(** * Cloud storage synchroniser: change aggregation, dispatch, reconciliation

    A shallow embedding of the watcher and dispatcher of [client.py]
    ([FileChangeHandler], [CloudStorageClient.force_sync]), of the
    corresponding functions of the older [client_new.py], and of the
    storage endpoints of [server.py] ([upload_file], [delete_file],
    [list_files]), with the properties of the design document stated and
    settled on it.

    - [Aggregator]: the dictionary of pending events, batches and drains.
    - [Paths]: path strings and path segments.
    - [Server]: the store below [STORAGE_DIR] and the three endpoints.
    - [Client], [ClientNew]: the handler's functions as commands over an
      abstract world (the remote store behind [requests], the local file
      system), with the trace of what they do.
    - [Deployment]: the client's world made of the server of [Server], a
      network and a local tree.
    - [Sched]: the threads of the handler, interleaved step by step.
    - [Service]: downloads and sequences of requests on the server.
    - [Outcomes]: what to look for in a trace.
    - [Joins]: the child threads of a handler and their joins.
    - [Drive]: the choice of the drive letter.
    - [Startup]: the download at startup of what the server holds.

    Modelling conventions.
    - Clock readings ([time.time()], [st_mtime]) are integers of type [Z]
      in some fixed resolution; the comparisons are the ones the source
      writes ([now - ts >= debounce], [remote < local]).
    - A Python [dict] keyed by path strings is a [gmap string _] where the
      source does not depend on its iteration order, and an association
      list in insertion order where it does ([local_files]).
    - A [pathlib] path is the list of its segments, root first.
    - The functions of [Client] run one thread's code; where the source
      starts threads and joins them, the threads' code runs in the order
      the threads are started. Interleavings are the subject of [Sched].
    - The client writes a relative path into the URL of a request as it
      is; [Deployment.request_path] is the path the server receives.
      Where a statement speaks of the remote entry at the relative path,
      the path is one that arrives as it is written
      ([Deployment.url_safe]).
    - The time of a directory in a store is the time it was made. A file
      system stamps a directory again when an entry is made or removed in
      it; what is said of entries that a request does not write to is
      said of files with their content and time, and of directories as
      directories ([Service.left_alone]). *)

From Stdlib Require Import Ascii String.
From stdpp Require Import gmap strings list fin_maps sorting.

Open Scope Z_scope.

(** ** Change aggregation: [_watch_loop] and the drain of [_process_loop] *)

(** [watchfiles.Change] *)
Inductive Change := added | modified | deleted.

#[global] Instance Change_eq_dec : EqDecision Change.
Proof. solve_decision. Defined.

(** What a drained event is turned into by [_handle_event]: the branch
    [change in (Change.added, Change.modified)] pushes the current content,
    the branch [change == Change.deleted] removes the remote path. *)
Inductive Kind := Upsert | Delete.

Definition action_kind (change : Change) : Kind :=
  match change with
  | added | modified => Upsert
  | deleted => Delete
  end.

Module Aggregator.

(** [self._events]: path -> (Change, timestamp) *)
Abbreviation events := (gmap string (Change * Z)).

(** One batch of [_watch_loop], under the lock:
    [for change, path in changes: self._events[str(path)] = (change, ts)] *)
Definition _watch_loop (changes : list (Change * string)) (ts : Z)
    (ev : events) : events :=
  foldl (fun m cp => <[cp.2 := (cp.1, ts)]> m) ev changes.

(** [now - ts >= self.debounce] for an entry [p, (chg, ts)] *)
Definition is_ready (now debounce : Z) (e : string * (Change * Z)) : bool :=
  now - e.2.2 >=? debounce.

(** Body of the loop of [_process_loop] over [list(self._events.items())]:
    [if now - ts >= self.debounce: ready.append((p, chg)); del self._events[p]] *)
Definition drain_step (now debounce : Z)
    (acc : list (string * Change) * events) (e : string * (Change * Z))
    : list (string * Change) * events :=
  if is_ready now debounce e
  then (acc.1 ++ [(e.1, e.2.1)], delete e.1 acc.2)
  else acc.

(** The critical section of one tick of [_process_loop]: the [ready] list
    and the dictionary that is left. *)
Definition drain (now debounce : Z) (ev : events)
    : list (string * Change) * events :=
  foldl (drain_step now debounce) ([], ev) (map_to_list ev).

(** The two threads touch [self._events] only under [self._lock], so a run
    of the aggregator is a sequence of whole batches and whole drains. *)
Inductive op :=
| Watch (changes : list (Change * string)) (ts : Z)
| Tick (now : Z).

(** Runs a sequence of critical sections; returns every action handed to
    the dispatcher, in order, and the final dictionary. *)
Fixpoint run (debounce : Z) (ops : list op) (ev : events)
    : list (string * Change) * events :=
  match ops with
  | [] => ([], ev)
  | Watch changes ts :: ops' => run debounce ops' (_watch_loop changes ts ev)
  | Tick now :: ops' =>
      let r := drain now debounce ev in
      let r' := run debounce ops' r.2 in
      (r.1 ++ r'.1, r'.2)
  end.





End Aggregator.

(** ** Paths *)

Module Paths.

(** Splits [s] at every [sep]; [cur] is the segment read so far. *)
Fixpoint split_on (sep : Ascii.ascii) (s : string) (cur : string) : list string :=
  match s with
  | EmptyString => [cur]
  | String c s' =>
      if Ascii.eqb c sep
      then cur :: split_on sep s' EmptyString
      else split_on sep s' (cur +:+ String c EmptyString)
  end.

(** [Path(s).parts] for a relative path string: the segments between
    slashes, without the empty ones and without ["."]. *)
Definition parts (s : string) : list string :=
  filter (fun x => x ≠ EmptyString ∧ x ≠ ".") (split_on "/"%char s EmptyString).

(** [str(path).replace('\\', '/')] for a relative path: its segments
    joined by slashes; the empty relative path prints as ["."]. *)
Definition posix (rel : list string) : string :=
  match rel with
  | [] => "."
  | _ => String.concat "/" rel
  end.

(** [p.relative_to(root)]: the segments of [p] below [root], or [None]
    where Python raises [ValueError] because [root] is no prefix of [p]. *)
Fixpoint relative_to (p root : list string) {struct root}
    : option (list string) :=
  match root with
  | [] => Some p
  | r :: root' =>
      match p with
      | [] => None
      | s :: p' => if decide (r = s) then relative_to p' root' else None
      end
  end.

(** [s.lstrip('/')] *)
Fixpoint lstrip_slash (s : string) : string :=
  match s with
  | String c s' => if Ascii.eqb c "/"%char then lstrip_slash s' else s
  | EmptyString => EmptyString
  end.

End Paths.

(** ** The storage server ([server.py]; [server_with_ngrok.py] has the same
    three endpoints, word for word) *)

Module Server.
Import Paths.

(** What lies below [STORAGE_DIR]. The key [[]] is [STORAGE_DIR] itself.
    Request paths are read relative to [STORAGE_DIR]; paths that would
    leave it (a leading slash, [".."]) are outside this model.

    The time of a regular file is the time of its last write. The time of
    a directory is the time it was made: a file system stamps a directory
    again whenever an entry is made or removed in it, and these later
    stamps are not recorded here. Nothing below is said of the time of a
    directory that was there before a request. *)
Inductive node :=
| Directory (mtime : Z)
| RegularFile (content : string) (mtime : Z).

Abbreviation store := (gmap (list string) node).

Inductive oserror :=
| FileExistsError | FileNotFoundError | NotADirectoryError | IsADirectoryError.

Inductive exn :=
| OSError (e : oserror)
| HTTPException (status_code : Z) (detail : string).

(** An HTTP response: its status, and for an error the exception it was
    made from ([detail=str(e)] for the 500 of the blanket handler). *)
Record response := { status_code : Z; cause : option exn }.

Definition ok200 : response := {| status_code := 200; cause := None |}.
Definition error500 (e : exn) : response :=
  {| status_code := 500; cause := Some e |}.
Definition error404 : response :=
  {| status_code := 404; cause := Some (HTTPException 404 "File not found") |}.

(** [STORAGE_DIR / file_path], as segments below [STORAGE_DIR] *)
Definition storage_path (file_path : string) : list string := parts file_path.

Definition is_dir (st : store) (loc : list string) : bool :=
  match st !! loc with Some (Directory _) => true | _ => false end.

Definition is_file (st : store) (loc : list string) : bool :=
  match st !! loc with Some (RegularFile _ _) => true | _ => false end.

Definition path_exists (st : store) (loc : list string) : bool :=
  match st !! loc with Some _ => true | None => false end.

(** [os.mkdir(loc)] at server time [now]. *)
Definition os_mkdir (now : Z) (loc : list string) (st : store)
    : oserror + store :=
  match st !! loc with
  | Some _ => inl FileExistsError
  | None =>
      match loc with
      | [] => inr (<[loc := Directory now]> st)
      | _ =>
          match st !! removelast loc with
          | None => inl FileNotFoundError
          | Some (RegularFile _ _) => inl NotADirectoryError
          | Some (Directory _) => inr (<[loc := Directory now]> st)
          end
      end
  end.

(** [Path.mkdir(parents=False, exist_ok=exist_ok)] *)
Definition mkdir (now : Z) (exist_ok : bool) (loc : list string) (st : store)
    : oserror + store :=
  match os_mkdir now loc st with
  | inr st' => inr st'
  | inl FileNotFoundError => inl FileNotFoundError
  | inl e => if exist_ok && is_dir st loc then inr st else inl e
  end.

(** [Path.mkdir(parents=True, exist_ok=True)] on the path whose segments,
    leaf first, are [rloc]: on [FileNotFoundError] the parent is made
    first, then the path itself with [parents=False]. *)
Fixpoint makedirs_rev (now : Z) (rloc : list string) (st : store)
    : oserror + store :=
  match os_mkdir now (rev rloc) st with
  | inr st' => inr st'
  | inl FileNotFoundError =>
      match rloc with
      | [] => inl FileNotFoundError
      | _ :: rparent =>
          match makedirs_rev now rparent st with
          | inl e => inl e
          | inr st1 => mkdir now true (rev rloc) st1
          end
      end
  | inl e => if is_dir st (rev rloc) then inr st else inl e
  end.

(** [file_location.parent.mkdir(parents=True, exist_ok=True)]; the parent
    of [STORAGE_DIR] is the working directory, which exists. *)
Definition mkdir_parent (now : Z) (loc : list string) (st : store)
    : oserror + store :=
  match rev loc with
  | [] => inr st
  | _ :: rparent => makedirs_rev now rparent st
  end.

(** [POST /upload/{file_path:path}] *)
Definition upload_file (now : Z) (file_path : string) (file : option string)
    (is_directory : bool) (st : store) : response * store :=
  let file_location := storage_path file_path in
  match mkdir_parent now file_location st with
  | inl e => (error500 (OSError e), st)
  | inr st1 =>
      if is_directory then
        match mkdir now true file_location st1 with
        | inl e => (error500 (OSError e), st1)
        | inr st2 => (ok200, st2)
        end
      else
        match file with
        | None =>
            (error500 (HTTPException 400 "No file provided for file upload"), st1)
        | Some content =>
            match st1 !! file_location with
            | Some (Directory _) => (error500 (OSError IsADirectoryError), st1)
            | _ => (ok200, <[file_location := RegularFile content now]> st1)
            end
        end
  end.

(** [shutil.rmtree(loc)]: [loc] and everything below it. *)
Definition rmtree (loc : list string) (st : store) : store :=
  filter (fun kv => ¬ loc `prefix_of` kv.1) st.

(** [DELETE /delete/{file_path:path}] *)
Definition delete_file (file_path : string) (st : store) : response * store :=
  let file_location := storage_path file_path in
  if negb (path_exists st file_location) then (error404, st)
  else if is_file st file_location
       then (ok200, delete file_location st)
       else (ok200, rmtree file_location st).

(** An entry of the JSON list of [GET /files]. *)
Record item := {
  path : string;
  is_directory : bool;
  size : Z;
  modified : Z
}.

Definition item_of (kv : list string * node) : item :=
  match kv.2 with
  | Directory mtime =>
      {| path := posix kv.1; is_directory := true; size := 0; modified := mtime |}
  | RegularFile content mtime =>
      {| path := posix kv.1; is_directory := false;
         size := Z.of_nat (String.length content); modified := mtime |}
  end.

(** [GET /files]: every entry strictly below [STORAGE_DIR]. *)
Definition list_files (st : store) : list item :=
  item_of <$> filter (fun kv => kv.1 ≠ []) (map_to_list st).

(** A store is a tree: whatever exists, except [STORAGE_DIR] itself, lies
    in an existing directory. *)
Definition well_formed (st : store) : Prop :=
  ∀ loc n, loc ≠ [] → st !! loc = Some n → is_dir st (removelast loc) = true.

(** The same, as a check that can be run. *)
Definition well_formedb (st : store) : bool :=
  forallb (fun kv => match kv.1 with
                     | [] => true
                     | _ => is_dir st (removelast kv.1)
                     end) (map_to_list st).

(** A fresh storage directory, made at [mtime]. *)
Definition empty_storage (mtime : Z) : store := {[ [] := Directory mtime ]}.

(** [st'] keeps every entry of [st], and is a tree if [st] is. *)
Definition extends (st st' : store) : Prop :=
  (∀ loc n, st !! loc = Some n → st' !! loc = Some n) ∧
  (well_formed st → well_formed st').

Definition node_is_dir (n : node) : bool :=
  match n with Directory _ => true | RegularFile _ _ => false end.

(** Every item of [st] is still there in [st'], as a directory if it was
    one and as a file if it was one. *)
Definition keeps (st st' : store) : Prop :=
  ∀ loc n, st !! loc = Some n →
    ∃ n', st' !! loc = Some n' ∧ node_is_dir n' = node_is_dir n.

(** Upload requests [(now, file_path, file, is_directory)] served one
    after the other, in whatever order they reach the server. *)
Definition serve_uploads (requests : list (Z * string * option string * bool))
    (st : store) : store :=
  foldl (fun st' r => (upload_file r.1.1.1 r.1.1.2 r.1.2 r.2 st').2) st requests.

End Server.

(** ** The client ([client.py]): what one thread of [FileChangeHandler]
    and [CloudStorageClient.force_sync] does *)

Module Client.
Import Paths.

(** Outcome of a [requests] call: a response, or an exception raised by
    the transport. *)
Inductive http_result :=
| Response (status_code : Z) (text : string)
| RequestException.

(** An entry of [response.json()] for [GET /files]; [modified] is read
    with [.get('modified', 0)]. *)
Record remote_item := {
  path : string;
  is_directory : bool;
  modified : option Z
}.

Inductive files_result :=
| FilesResponse (status_code : Z) (json : list remote_item)
| FilesException.

(** Outcome of [open(p, 'rb')] and of reading the file. *)
Inductive open_result :=
| Opened (content : string)
| PermissionError
| FileNotFoundError
| OtherError.

Record stat_result := { st_is_dir : bool; st_mtime : Z }.

(** What the client code runs against: the remote store behind
    [requests], and the local file system. *)
Class World (W : Type) := {
  requests_post_dir : string → W → http_result * W;
  requests_post_file : string → string → W → http_result * W;
  requests_delete : string → W → http_result * W;
  requests_get_files : W → files_result * W;
  open_rb : list string → W → open_result * W;
  path_stat : list string → W → option stat_result;
  path_rglob : list string → W → list (list string)
}.

(** The target of a thread started by [_handle_event] or [force_sync]. *)
Inductive thread_target :=
| Handle_child (child : list string)
| Upload_file (p : list string).

Inductive log_line :=
| Created_folder (cur : string)
| Failed_to_create_folder (cur text : string)
| Error_creating_folder (p : list string)
| Synchronized (rel : string)
| Upload_error (rel : string)
| Error_uploading_file (p : list string)
| Deleted (rel : string)
| Error_deleting (rel : string)
| Path_not_within_sync_folder
| Starting_synchronization
| Could_not_get_server_file_list
| Creating_directory (rel_path : string)
| Synchronization_complete
| Error_during_synchronization.

(** What a run does, in order; a call is recorded with its outcome. *)
Inductive event :=
| PostDirectory (url_path : string) (result : http_result)
| PostFile (url_path : string) (content : string) (result : http_result)
| DeleteRequest (url_path : string) (result : http_result)
| GetFiles (result : files_result)
| Open (p : list string) (result : open_result)
| Sleep (ms : Z)
| Print (line : log_line)
| ThreadStart (target : thread_target).

(** A command transforms the world and yields a result and its trace. *)
Definition cmd (W A : Type) : Type := W → A * W * list event.

#[global] Instance cmd_ret {W} : MRet (cmd W) :=
  fun A (a : A) w => (a, w, []).

#[global] Instance cmd_bind {W} : MBind (cmd W) :=
  fun A B (f : A → cmd W B) (m : cmd W A) w =>
    let r := m w in
    let r' := f r.1.1 r.1.2 in
    (r'.1.1, r'.1.2, r.2 ++ r'.2).

Definition emit {W} (e : event) : cmd W unit := fun w => (tt, w, [e]).

Definition call {W A} (e : A → event) (op : W → A * W) : cmd W A :=
  fun w => let r := op w in (r.1, r.2, [e r.1]).

Definition ask {W A} (q : W → A) : cmd W A := fun w => (q w, w, []).

Fixpoint for_each {W A} (l : list A) (body : A → cmd W unit) : cmd W unit :=
  match l with
  | [] => mret tt
  | x :: l' => body x ;; for_each l' body
  end.

(** [Path(s)] for a local path string: an absolute path keeps its root
    as first segment. *)
Definition Path (s : string) : list string :=
  (if String.prefix "/" s then ["/"] else []) ++ parts s.

(** [str(p)] for a local path. *)
Definition path_str (p : list string) : string :=
  match p with
  | "/" :: rest => "/" +:+ String.concat "/" rest
  | _ => posix p
  end.

(** [info] of [local_files] in [force_sync]. *)
Record local_info := { li_is_directory : bool; li_modified : Z }.

(** [d[k] = v] on a dictionary that is iterated in insertion order. *)
Fixpoint dict_set {V} (k : string) (v : V) (d : list (string * V))
    : list (string * V) :=
  match d with
  | [] => [(k, v)]
  | kv :: d' => if decide (kv.1 = k) then (k, v) :: d' else kv :: dict_set k v d'
  end.

Section handler.
Context {W : Type} `{World W}.
Variable sync_folder : list string.

(** The loop of [_create_folder] over [parts], one request per
    segment; [cur] is the path requested last. *)
Fixpoint create_folder_loop (p : list string) (parts : list string)
    (cur : string) : cmd W unit :=
  match parts with
  | [] => mret tt
  | part :: parts' =>
      let cur' := lstrip_slash (cur +:+ "/" +:+ part) in
      resp ← call (PostDirectory cur') (requests_post_dir cur');
      match resp with
      | Response status_code text =>
          if status_code =? 200
          then emit (Print (Created_folder cur'));;
               create_folder_loop p parts' cur'
          else emit (Print (Failed_to_create_folder cur' text))
      | RequestException => emit (Print (Error_creating_folder p))
      end
  end.

Definition _create_folder (p : list string) : cmd W unit :=
  match relative_to p sync_folder with
  | None => emit (Print (Error_creating_folder p))
  | Some rel => create_folder_loop p (parts (posix rel)) EmptyString
  end.

(** [for attempt in range(3)] of [_upload_file], with [attempts]
    iterations left. *)
Fixpoint upload_attempts (attempts : nat) (p : list string) (rel : string)
    : cmd W unit :=
  match attempts with
  | O => mret tt
  | S attempts' =>
      f ← call (Open p) (open_rb p);
      match f with
      | Opened content =>
          resp ← call (PostFile rel content) (requests_post_file rel content);
          match resp with
          | Response status_code _ =>
              if status_code =? 200
              then emit (Print (Synchronized rel))
              else upload_attempts attempts' p rel
          | RequestException => emit (Print (Upload_error rel))
          end
      | PermissionError | FileNotFoundError =>
          emit (Sleep 500);; upload_attempts attempts' p rel
      | OtherError => emit (Print (Upload_error rel))
      end
  end.

Definition _upload_file (p : list string) : cmd W unit :=
  match relative_to p sync_folder with
  | None => emit (Print (Error_uploading_file p))
  | Some rel => upload_attempts 3 p (posix rel)
  end.

Definition _delete_path (rel : string) : cmd W unit :=
  resp ← call (DeleteRequest rel) (requests_delete rel);
  match resp with
  | Response status_code _ =>
      if status_code =? 200 then emit (Print (Deleted rel)) else mret tt
  | RequestException => emit (Print (Error_deleting rel))
  end.

Definition _handle_child (child : list string) : cmd W unit :=
  st ← ask (path_stat child);
  match st with
  | None => mret tt
  | Some s => if st_is_dir s then _create_folder child else _upload_file child
  end.

(** [_handle_event]; the child threads of a directory run here one
    after the other, in the order they are started. *)
Definition _handle_event (change : Change) (path : string) : cmd W unit :=
  let p := Path path in
  match relative_to p sync_folder with
  | None => mret tt
  | Some rel =>
      emit (Sleep 50);;
      match action_kind change with
      | Upsert =>
          st ← ask (path_stat p);
          match st with
          | None => mret tt
          | Some s =>
              if st_is_dir s
              then _create_folder p;;
                   children ← ask (path_rglob p);
                   for_each children (fun child =>
                     emit (ThreadStart (Handle_child child));;
                     _handle_child child)
              else _upload_file p
          end
      | Delete => _delete_path (posix rel)
      end
  end.

(** [server_files = {item['path']: item for item in response.json()}] *)
Definition server_files_of (json : list remote_item) : gmap string remote_item :=
  foldl (fun m item => <[path item := item]> m) ∅ json.

(** The loop that fills [local_files] from [Path(path).rglob("*")]. *)
Definition local_files_of (root : list string) (w : W)
    : list (string * local_info) :=
  foldl (fun d item =>
           match relative_to item sync_folder with
           | None => d
           | Some rel =>
               let st := path_stat item w in
               dict_set (posix rel)
                 {| li_is_directory :=
                      match st with Some s => st_is_dir s | None => false end;
                    li_modified :=
                      match st with Some s => st_mtime s | None => 0 end |}
                 d
           end)
        [] (path_rglob root w).

(** [not server_info or server_info.get('modified', 0) < info['modified']] *)
Definition needs_upload (server_files : gmap string remote_item)
    (rel_path : string) (info : local_info) : bool :=
  match server_files !! rel_path with
  | None => true
  | Some server_info => default 0 (modified server_info) <? li_modified info
  end.

(** The arguments of the upload threads of [force_sync], in the order
    the loop over [local_files.items()] starts them. *)
Definition upload_threads (server_files : gmap string remote_item)
    (local_files : list (string * local_info)) : list (list string) :=
  foldl (fun threads e =>
           if negb (li_is_directory e.2)
           then if needs_upload server_files e.1 e.2
                then threads ++ [sync_folder ++ parts e.1]
                else threads
           else threads)
        [] local_files.

Definition sync_directories (server_files : gmap string remote_item)
    (local_files : list (string * local_info)) : cmd W unit :=
  for_each local_files (fun e =>
    if li_is_directory e.2 && bool_decide (server_files !! e.1 = None)
    then emit (Print (Creating_directory e.1));;
         _create_folder (sync_folder ++ parts e.1)
    else mret tt).

(** The tree [force_sync] walks: the sync folder, or the given path if
    [str(path).startswith(str(self.sync_folder))]. *)
Definition sync_root (path : option string) : option (list string) :=
  match path with
  | None => Some sync_folder
  | Some s =>
      if String.prefix (path_str sync_folder) (path_str (Path s))
      then Some (Path s) else None
  end.

(** [force_sync]; the upload threads run here one after the other, in
    the order they are started. *)
Definition force_sync (path : option string) : cmd W unit :=
  match sync_root path with
  | None => emit (Print Path_not_within_sync_folder)
  | Some root =>
      emit (Print Starting_synchronization);;
      response ← call GetFiles requests_get_files;
      match response with
      | FilesException => emit (Print Error_during_synchronization)
      | FilesResponse status_code json =>
          if negb (status_code =? 200)
          then emit (Print Could_not_get_server_file_list)
          else
            let server_files := server_files_of json in
            local_files ← ask (local_files_of root);
            sync_directories server_files local_files;;
            for_each (upload_threads server_files local_files) (fun p =>
              emit (ThreadStart (Upload_file p));;
              _upload_file p);;
            emit (Print Synchronization_complete)
      end
  end.

End handler.

(** The upload threads a trace starts. *)
Definition started_uploads (t : list event) : list (list string) :=
  omap (fun e => match e with
                 | ThreadStart (Upload_file p) => Some p
                 | _ => None
                 end) t.

(** The create-directory calls of a trace, with their outcomes. *)
Definition directory_requests (t : list event) : list (string * http_result) :=
  omap (fun e => match e with
                 | PostDirectory u r => Some (u, r)
                 | _ => None
                 end) t.

(** The upload calls of a trace, with their outcomes. *)
Definition upload_requests (t : list event) : list (string * http_result) :=
  omap (fun e => match e with
                 | PostFile u _ r => Some (u, r)
                 | _ => None
                 end) t.

Definition is_request (e : event) : bool :=
  match e with
  | PostDirectory _ _ | PostFile _ _ _ | DeleteRequest _ _ | GetFiles _ => true
  | _ => false
  end.

Definition is_delete_request (e : event) : bool :=
  match e with DeleteRequest _ _ => true | _ => false end.

(** [resp.status_code == 200] *)
Definition succeeded (r : http_result) : bool :=
  match r with
  | Response status_code _ => status_code =? 200
  | RequestException => false
  end.

(** What [_create_folder p] prints when the call for [cur] has the
    outcome [r], a failure. *)
Definition failure_report (p : list string) (cur : string) (r : http_result)
    : log_line :=
  match r with
  | Response _ text => Failed_to_create_folder cur text
  | RequestException => Error_creating_folder p
  end.

(** The paths [cur] takes in [_create_folder] when no call fails: one
    per segment, each ancestor before its descendants. *)
Fixpoint cumulative (parts : list string) (cur : string) : list string :=
  match parts with
  | [] => []
  | part :: parts' =>
      let cur' := lstrip_slash (cur +:+ "/" +:+ part) in
      cur' :: cumulative parts' cur'
  end.

(** A command relates the world before and after by [R], and every
    event of its trace satisfies [P]. *)
Definition within {W A} (R : W → W → Prop) (P : event → Prop)
    (m : cmd W A) : Prop :=
  ∀ w, R w (m w).1.2 ∧ Forall P (m w).2.

Definition no_delete (e : event) : Prop := is_delete_request e = false.

Definition is_thread_start (e : event) : bool :=
  match e with ThreadStart _ => true | _ => false end.

(** The remote paths of the ancestors of a directory and of the directory
    itself, the root-most first: one per segment. *)
Definition ancestors (parts : list string) : list string :=
  (fun k => String.concat "/" (take k parts)) <$> seq 1 (length parts).

(** A segment as [Path.parts] yields them: not empty, no slash inside. *)
Fixpoint no_slash (s : string) : bool :=
  match s with
  | EmptyString => true
  | String c s' => negb (Ascii.eqb c "/"%char) && no_slash s'
  end.

Definition plain (x : string) : Prop := x ≠ EmptyString ∧ no_slash x = true.

(** Runs the monad's operations of a goal. *)
Ltac run_cmd :=
  unfold mbind, cmd_bind, mret, cmd_ret, call, emit, ask; cbn [fst snd app].

End Client.

(** ** The older handler ([client_new.py]): directory creation, deletion
    and the upload loop of [_process_change] *)

Module ClientNew.
Import Paths Client.

Section handler.
Context {W : Type} `{World W}.
Variable sync_folder : list string.

(** [_create_folder]: one request, for the whole relative path. *)
Definition _create_folder (folder_path : list string) : cmd W unit :=
  match relative_to folder_path sync_folder with
  | None => emit (Print (Error_creating_folder folder_path))
  | Some rel =>
      let relative_path := posix rel in
      response ← call (PostDirectory relative_path)
                      (requests_post_dir relative_path);
      match response with
      | Response status_code _ =>
          if status_code =? 200
          then emit (Print (Created_folder relative_path))
          else mret tt
      | RequestException => emit (Print (Error_creating_folder folder_path))
      end
  end.

(** [_handle_deletion] *)
Definition _handle_deletion (path : list string) : cmd W unit :=
  match relative_to path sync_folder with
  | None => emit (Print (Error_deleting (path_str path)))
  | Some rel =>
      let relative_path := posix rel in
      response ← call (DeleteRequest relative_path)
                      (requests_delete relative_path);
      match response with
      | Response status_code _ =>
          if status_code =? 200
          then emit (Print (Deleted relative_path))
          else mret tt
      | RequestException => emit (Print (Error_deleting (path_str path)))
      end
  end.

(** [for attempt in range(self._retry_count)] of [_process_change],
    with [remaining] iterations left; [_retry_delay] is one second and
    is slept only if another attempt follows. *)
Fixpoint upload_attempts (remaining : nat) (file_path : list string)
    (relative_path : string) : cmd W unit :=
  match remaining with
  | O => mret tt
  | S remaining' =>
      f ← call (Open file_path) (open_rb file_path);
      match f with
      | Opened content =>
          response ← call (PostFile relative_path content)
                          (requests_post_file relative_path content);
          match response with
          | Response status_code _ =>
              if status_code =? 200
              then emit (Print (Synchronized relative_path))
              else upload_attempts remaining' file_path relative_path
          | RequestException => emit (Print (Upload_error relative_path))
          end
      | PermissionError | FileNotFoundError =>
          (match remaining' with
           | O => mret tt
           | S _ => emit (Sleep 1000)
           end);;
          upload_attempts remaining' file_path relative_path
      | OtherError => emit (Print (Upload_error relative_path))
      end
  end.

End handler.

End ClientNew.

(** ** Client and server together *)

Module Deployment.
Import Paths.

(** What happens to a request on its way. *)
Inductive delivery := Delivered | RequestLost | ResponseLost.

(** The client's surroundings other than the server: the network with
    the server's clock, and the local file system. *)
Class Surroundings (E : Type) := {
  next_request : E → delivery * Z * E;
  local_open : list string → E → Client.open_result * E;
  local_stat : list string → E → option Client.stat_result;
  local_rglob : list string → E → list (list string)
}.

Record world (E : Type) := World {
  remote : Server.store;
  around : E
}.
Arguments World {E} _ _.
Arguments remote {E} _.
Arguments around {E} _.

(** What the client prints of the body of a response: the [detail] of an
    [HTTPException]. The JSON around it, and the bodies of the other
    responses, are left out; nothing but printed text depends on them. *)
Definition response_text (r : Server.response) : string :=
  match Server.cause r with
  | Some (Server.HTTPException _ detail) => detail
  | _ => EmptyString
  end.

(** Sends one request to the endpoint [serve]. *)
Definition through {E} `{Surroundings E}
    (serve : Z → Server.store → Server.response * Server.store)
    (w : world E) : Client.http_result * world E :=
  let n := next_request (around w) in
  match n.1.1 with
  | RequestLost => (Client.RequestException, World (remote w) n.2)
  | ResponseLost =>
      (Client.RequestException, World (serve n.1.2 (remote w)).2 n.2)
  | Delivered =>
      let r := serve n.1.2 (remote w) in
      (Client.Response (Server.status_code r.1) (response_text r.1),
       World r.2 n.2)
  end.

Definition remote_item_of (i : Server.item) : Client.remote_item :=
  {| Client.path := Server.path i;
     Client.is_directory := Server.is_directory i;
     Client.modified := Some (Server.modified i) |}.

Definition get_files {E} `{Surroundings E} (w : world E)
    : Client.files_result * world E :=
  let n := next_request (around w) in
  match n.1.1 with
  | Delivered =>
      (Client.FilesResponse 200 (remote_item_of <$> Server.list_files (remote w)),
       World (remote w) n.2)
  | _ => (Client.FilesException, World (remote w) n.2)
  end.

(** *** The path a request arrives with

    The client writes the relative path into the URL as it is
    ([f"{self.server_url}/upload/{rel}"], and the same for [/delete/] and
    [/download/]), and [requests] reads the URL before it sends it. The
    path of the URL ends at the first ['?'] or ['#']: what follows is the
    query or the fragment, and no part of the endpoint's [file_path]. The
    server decodes the escapes [%XX] of the path. Where some ['%'] of the
    path starts no escape, [requests] escapes every ['%'] itself, and the
    path arrives as it was written. Other characters arrive as they were
    written, escaped on the way where the URL needs it. Segments [".."],
    which [requests] resolves before it sends the URL, are outside this
    model, as they are in [Server]; decoded bytes are taken as they are. *)

Definition hex_digit (c : Ascii.ascii) : option N :=
  let n := Ascii.N_of_ascii c in
  if ((48 <=? n) && (n <=? 57))%N then Some (n - 48)%N
  else if ((65 <=? n) && (n <=? 70))%N then Some (n - 55)%N
  else if ((97 <=? n) && (n <=? 102))%N then Some (n - 87)%N
  else None.

(** The path of the URL: what stands before the first ['?'] or ['#']. *)
Fixpoint before_query (s : string) : string :=
  match s with
  | EmptyString => EmptyString
  | String c s' =>
      if Ascii.eqb c "?"%char || Ascii.eqb c "#"%char then EmptyString
      else String c (before_query s')
  end.

(** Every ['%'] of [s] starts an escape [%XX]. *)
Fixpoint percent_encoded (s : string) : bool :=
  match s with
  | EmptyString => true
  | String c s1 =>
      if Ascii.eqb c "%"%char then
        match s1 with
        | String a (String b s3) =>
            match hex_digit a, hex_digit b with
            | Some _, Some _ => percent_encoded s3
            | _, _ => false
            end
        | _ => false
        end
      else percent_encoded s1
  end.

(** [urllib.parse.unquote]: every escape [%XX] gives the byte [XX]. *)
Fixpoint unquote (s : string) : string :=
  match s with
  | EmptyString => EmptyString
  | String c s1 =>
      match s1 with
      | String a (String b s3) =>
          match Ascii.eqb c "%"%char, hex_digit a, hex_digit b with
          | true, Some x, Some y =>
              String (Ascii.ascii_of_N (16 * x + y)) (unquote s3)
          | _, _, _ => String c (unquote s1)
          end
      | _ => String c (unquote s1)
      end
  end.

(** [file_path] as the endpoint receives it, for the relative path [rel]
    written into the URL. *)
Definition request_path (rel : string) : string :=
  let path := before_query rel in
  if percent_encoded path then unquote path else path.

(** A character that the URL hands on as it is written. A backslash is
    left out as well: the client turns it into a slash
    ([.replace('\\', '/')]). *)
Definition plain_char (c : Ascii.ascii) : bool :=
  negb (Ascii.eqb c "?"%char) && negb (Ascii.eqb c "#"%char) &&
  negb (Ascii.eqb c "%"%char) && negb (Ascii.eqb c "\"%char).

Fixpoint plain_chars (s : string) : bool :=
  match s with
  | EmptyString => true
  | String c s' => plain_char c && plain_chars s'
  end.

(** A relative path that reaches the server as it is written, and that
    the server reads below its storage directory: it has no ['?'], ['#'],
    ['%'] or backslash, no segment [".."] and no slash in front. *)
Definition url_safe (rel : string) : bool :=
  plain_chars rel &&
  negb (bool_decide (".." ∈ split_on "/"%char rel EmptyString)) &&
  negb (String.prefix "/" rel).

#[global] Instance deployed {E} `{Surroundings E} : Client.World (world E) := {
  Client.requests_post_dir url_path :=
    through (fun now =>
      Server.upload_file now (request_path url_path) None true);
  Client.requests_post_file url_path content :=
    through (fun now =>
      Server.upload_file now (request_path url_path) (Some content) false);
  Client.requests_delete url_path :=
    through (fun _ => Server.delete_file (request_path url_path));
  Client.requests_get_files := get_files;
  Client.open_rb p w :=
    let r := local_open p (around w) in (r.1, World (remote w) r.2);
  Client.path_stat p w := local_stat p (around w);
  Client.path_rglob p w := local_rglob p (around w)
}.

(** A concrete surrounding: a reliable network, a server clock that
    stands still, and a local tree nobody else writes to. *)
Inductive local_node :=
| LocalDirectory (mtime : Z)
| LocalFile (content : string) (mtime : Z).

Record quiet := Quiet {
  local : gmap (list string) local_node;
  server_time : Z
}.

#[global] Instance quiet_surroundings : Surroundings quiet := {
  next_request e := (Delivered, server_time e, e);
  local_open p e :=
    (match local e !! p with
     | Some (LocalFile content _) => Client.Opened content
     | Some (LocalDirectory _) => Client.PermissionError
     | None => Client.FileNotFoundError
     end, e);
  local_stat p e :=
    match local e !! p with
    | Some (LocalFile _ mtime) =>
        Some {| Client.st_is_dir := false; Client.st_mtime := mtime |}
    | Some (LocalDirectory mtime) =>
        Some {| Client.st_is_dir := true; Client.st_mtime := mtime |}
    | None => None
    end;
  local_rglob p e :=
    filter (fun q => p `prefix_of` q ∧ q ≠ p) (map_to_list (local e)).*1
}.

Definition keeps_remote {E} (w w' : world E) : Prop :=
  Server.keeps (remote w) (remote w').

(** A small deployment: the sync folder [/sync] with a directory and two
    files, and a server that holds an older copy of one file and a newer
    copy of the other. *)
Definition sync : list string := ["/"; "sync"].

Definition desk : quiet :=
  Quiet (list_to_map
           [(["/"; "sync"; "docs"], LocalDirectory 10);
            (["/"; "sync"; "docs"; "readme.md"], LocalFile "hello" 150);
            (["/"; "sync"; "notes.txt"], LocalFile "draft" 50);
            (["/"; "sync"; "report"], LocalFile "figures" 70)])
        1000.

Definition shelf : Server.store :=
  list_to_map
    [([], Server.Directory 0);
     (["docs"], Server.Directory 5);
     (["docs"; "readme.md"], Server.RegularFile "hullo" 100);
     (["notes.txt"], Server.RegularFile "final" 200);
     (["report"], Server.Directory 60)].

Definition office : world quiet := World shelf desk.

(** A surrounding whose network follows a script: the requests meet the
    fates of [fates] one after the other, and are delivered once the
    script has run out. The rest is as in [quiet]. *)
Record scripted := Scripted {
  fates : list delivery;
  calm : quiet
}.

#[global] Instance scripted_surroundings : Surroundings scripted := {
  next_request e :=
    match fates e with
    | [] => (Delivered, server_time (calm e), e)
    | fate :: fates' => (fate, server_time (calm e), Scripted fates' (calm e))
    end;
  local_open p e := ((local_open p (calm e)).1, e);
  local_stat p e := local_stat p (calm e);
  local_rglob p e := local_rglob p (calm e)
}.



(** Two local files, [a] and [a#b.txt], and a server that holds a newer
    copy of [a] and nothing else. *)
Definition annex : world quiet :=
  World (list_to_map
           [([], Server.Directory 0);
            (["a"], Server.RegularFile "new" 200)])
        (Quiet (list_to_map
                  [(["/"; "sync"; "a"], LocalFile "old" 50);
                   (["/"; "sync"; "a#b.txt"], LocalFile "stray" 60)])
               1000).

(** A local directory [/sync/pics] that the server lists, with a new
    directory [2024] in it that the server does not have. *)
Definition gallery : world quiet :=
  World (list_to_map
           [([], Server.Directory 0);
            (["pics"], Server.Directory 5)])
        (Quiet (list_to_map
                  [(["/"; "sync"; "pics"], LocalDirectory 10);
                   (["/"; "sync"; "pics"; "2024"], LocalDirectory 20)])
               1000).

End Deployment.

(** ** Threads of [FileChangeHandler]: the processing loop, the handler
    threads it starts, and the child threads a handler starts *)

Module Sched.
Import Aggregator.

Abbreviation tid := nat.

(** Where a thread running [_handle_event] is. *)
Inductive handler_pc :=
| HStart
| HSpawning (todo : list string) (started : list tid)
| HJoining (pending : list tid).

(** The code a thread runs: [_handle_event(change, path)] or
    [_handle_child(child)]. *)
Inductive code :=
| Handler (change : Change) (path : string) (pc : handler_pc)
| Child (child : string).

(** A [threading.Thread] that was started. *)
Record thread := Thread { code_of : code; alive : bool }.

(** Where [_process_loop] is. *)
Inductive loop_pc :=
| LTop
| LStarting (todo : list (string * Change)) (started : list tid)
| LJoining (pending : list tid)
| LSleeping.

Record state := State {
  events_of : events;
  threads : gmap tid thread;
  next_tid : tid;
  loop : loop_pc
}.

Definition init : state := State ∅ ∅ 0%nat LTop.

(** One atomic step of one thread:
    - [WatchBatch]: the watcher thread stores a batch, under the lock;
    - [LoopDrain]: the processing loop, at the head of its [while], reads
      the clock and drains the ready entries, under the lock;
    - [LoopStep]: the processing loop runs its next statement: it starts
      the thread of the next ready entry, passes from starting to
      joining, joins the next thread if that one has ended, goes to
      sleep, or wakes up;
    - [HandlerDir t children]: the handler thread [t], for an added or
      modified path, has found a directory, has run [_create_folder] and
      has listed the [children] with [rglob];
    - [HandlerStep t]: the handler thread [t] starts the thread of its
      next child, passes from starting to joining, or joins the next
      child thread if that one has ended;
    - [Finish t]: thread [t] returns: a handler that had no children to
      start (a file, a deletion, a path that is gone or lies outside the
      sync folder) or has joined them all, or a child thread. *)
Inductive label :=
| WatchBatch (changes : list (Change * string)) (ts : Z)
| LoopDrain (now : Z)
| LoopStep
| HandlerDir (t : tid) (children : list string)
| HandlerStep (t : tid)
| Finish (t : tid).

Definition is_alive (ths : gmap tid thread) (t : tid) : bool :=
  match ths !! t with Some th => alive th | None => false end.

Definition set_pc (s : state) (t : tid) (change : Change) (path : string)
    (pc : handler_pc) : state :=
  State (events_of s) (<[t := Thread (Handler change path pc) true]> (threads s))
        (next_tid s) (loop s).

Definition set_loop (s : state) (l : loop_pc) : state :=
  State (events_of s) (threads s) (next_tid s) l.

(** [thread.start()] on a new thread that runs [c]. *)
Definition spawn (s : state) (c : code) : state :=
  State (events_of s) (<[next_tid s := Thread c true]> (threads s))
        (S (next_tid s)) (loop s).

Definition exec (debounce : Z) (l : label) (s : state) : option state :=
  match l with
  | WatchBatch changes ts =>
      Some (State (_watch_loop changes ts (events_of s)) (threads s)
                  (next_tid s) (loop s))
  | LoopDrain now =>
      match loop s with
      | LTop =>
          let r := drain now debounce (events_of s) in
          Some (State r.2 (threads s) (next_tid s)
                      (match r.1 with
                       | [] => LSleeping
                       | _ => LStarting r.1 []
                       end))
      | _ => None
      end
  | LoopStep =>
      match loop s with
      | LTop => None
      | LStarting [] started => Some (set_loop s (LJoining started))
      | LStarting (e :: todo) started =>
          Some (set_loop (spawn s (Handler e.2 e.1 HStart))
                         (LStarting todo (started ++ [next_tid s])))
      | LJoining [] => Some (set_loop s LSleeping)
      | LJoining (t :: pending) =>
          if is_alive (threads s) t then None
          else Some (set_loop s (LJoining pending))
      | LSleeping => Some (set_loop s LTop)
      end
  | HandlerDir t children =>
      match threads s !! t with
      | Some (Thread (Handler change path HStart) true) =>
          match action_kind change with
          | Upsert => Some (set_pc s t change path (HSpawning children []))
          | Delete => None
          end
      | _ => None
      end
  | HandlerStep t =>
      match threads s !! t with
      | Some (Thread (Handler change path (HSpawning [] started)) true) =>
          Some (set_pc s t change path (HJoining started))
      | Some (Thread (Handler change path (HSpawning (c :: todo) started)) true) =>
          Some (set_pc (spawn s (Child c)) t change path
                       (HSpawning todo (started ++ [next_tid s])))
      | Some (Thread (Handler change path (HJoining (c :: pending))) true) =>
          if is_alive (threads s) c then None
          else Some (set_pc s t change path (HJoining pending))
      | _ => None
      end
  | Finish t =>
      match threads s !! t with
      | Some (Thread (Handler change path HStart) true) =>
          Some (State (events_of s)
                      (<[t := Thread (Handler change path HStart) false]> (threads s))
                      (next_tid s) (loop s))
      | Some (Thread (Handler change path (HJoining [])) true) =>
          Some (State (events_of s)
                      (<[t := Thread (Handler change path (HJoining [])) false]> (threads s))
                      (next_tid s) (loop s))
      | Some (Thread (Child c) true) =>
          Some (State (events_of s) (<[t := Thread (Child c) false]> (threads s))
                      (next_tid s) (loop s))
      | _ => None
      end
  end.

(** Runs a schedule; [None] if some step is not enabled. *)
Fixpoint run (debounce : Z) (ls : list label) (s : state) : option state :=
  match ls with
  | [] => Some s
  | l :: ls' =>
      match exec debounce l s with
      | Some s' => run debounce ls' s'
      | None => None
      end
  end.

(** The path a thread works on. *)
Definition thread_path (th : thread) : string :=
  match code_of th with
  | Handler _ path _ => path
  | Child child => child
  end.

Definition is_handler (th : thread) : bool :=
  match code_of th with Handler _ _ _ => true | Child _ => false end.

(** Two different threads are at work on the same path. *)
Definition concurrent_same_path (s : state) : Prop :=
  ∃ t1 t2 th1 th2,
    t1 ≠ t2 ∧ threads s !! t1 = Some th1 ∧ threads s !! t2 = Some th2 ∧
    alive th1 = true ∧ alive th2 = true ∧ thread_path th1 = thread_path th2.

(** The same, for two threads the processing loop started. *)
Definition concurrent_handlers_same_path (s : state) : Prop :=
  ∃ t1 t2 th1 th2,
    t1 ≠ t2 ∧ threads s !! t1 = Some th1 ∧ threads s !! t2 = Some th2 ∧
    alive th1 = true ∧ alive th2 = true ∧
    is_handler th1 = true ∧ is_handler th2 = true ∧
    thread_path th1 = thread_path th2.

Definition path_of (ths : gmap tid thread) (t : tid) : option string :=
  thread_path <$> ths !! t.

(** The [threads] list of [_process_loop]: the handler threads of the
    current tick that were started and are not joined yet. *)
Definition loop_threads (l : loop_pc) : list tid :=
  match l with
  | LStarting _ started => started
  | LJoining pending => pending
  | LTop | LSleeping => []
  end.

(** The paths of [ready] whose thread is still to be started. *)
Definition loop_todo (l : loop_pc) : list string :=
  match l with
  | LStarting todo _ => todo.*1
  | _ => []
  end.

(** What holds of every state the threads can reach: thread ids are
    fresh when given out; a handler thread that is alive is one of the
    loop's current threads; these are handler threads; and their paths,
    with the paths still to be started, are pairwise different. *)
Definition inv (s : state) : Prop :=
  (∀ t, is_Some (threads s !! t) → (t < next_tid s)%nat) ∧
  (∀ t th, threads s !! t = Some th → alive th = true →
           is_handler th = true → t ∈ loop_threads (loop s)) ∧
  (∀ t, t ∈ loop_threads (loop s) →
        ∃ th, threads s !! t = Some th ∧ is_handler th = true) ∧
  NoDup (omap (path_of (threads s)) (loop_threads (loop s)) ++ loop_todo (loop s)).

(** A schedule in which a directory and a file in it are reported in one
    batch: the loop starts a handler for each, and the handler of the
    directory starts a child thread for the file. *)
Definition crowded_schedule : list label :=
  [WatchBatch [(added, "/sync/d"); (added, "/sync/d/f.txt")] 0;
   LoopDrain 200; LoopStep; LoopStep; LoopStep;
   HandlerDir 1%nat ["/sync/d/f.txt"];
   HandlerStep 1%nat].

End Sched.

(** ** The server as a whole: downloads, and sequences of requests *)

Module Service.
Import Paths Server.

(** What [GET /download/{file_path:path}] answers: the 404 of the guard,
    the content of a regular file, or the 500 that comes of
    [FileResponse] on a path that is no regular file. *)
Inductive download_response :=
| NotFound404
| FileResponse (content : string)
| NotAFile500.

(** [GET /download/{file_path:path}] *)
Definition download_file (file_path : string) (st : store) : download_response :=
  let file_location := storage_path file_path in
  if negb (path_exists st file_location) then NotFound404
  else match st !! file_location with
       | Some (RegularFile content _) => FileResponse content
       | _ => NotAFile500
       end.

(** A request that can change the store. *)
Inductive request :=
| Upload (now : Z) (file_path : string) (file : option string) (is_directory : bool)
| Remove (file_path : string).

Definition serve (r : request) (st : store) : response * store :=
  match r with
  | Upload now file_path file is_directory =>
      upload_file now file_path file is_directory st
  | Remove file_path => delete_file file_path st
  end.

(** The store after the requests [rs], served one after the other. *)
Definition serve_all (rs : list request) (st : store) : store :=
  foldl (fun st' r => (serve r st').2) st rs.

(** A segment as [parts] yields them: not empty, not ["."], no slash. *)
Definition segment (x : string) : Prop :=
  x ≠ EmptyString ∧ x ≠ "." ∧ Client.no_slash x = true.

(** Every key of the store is made of such segments. *)
Definition addressable (st : store) : Prop :=
  ∀ loc n, st !! loc = Some n → Forall segment loc.

(** [n'] is the entry [n] as a request leaves it that does not write to
    it: a regular file with the same content and time, or a directory,
    whose time a file system may have changed. *)
Definition left_alone (n n' : node) : Prop :=
  match n, n' with
  | Directory _, Directory _ => True
  | RegularFile content mtime, RegularFile content' mtime' =>
      content' = content ∧ mtime' = mtime
  | _, _ => False
  end.

(** The same for a path that may hold no entry. *)
Definition left_as_it_was (o o' : option node) : Prop :=
  match o, o' with
  | None, None => True
  | Some n, Some n' => left_alone n n'
  | _, _ => False
  end.

End Service.

(** ** What to look for in a trace *)

Module Outcomes.
Import Client.

(** The attempts of a trace to open a file, with their outcomes. *)
Definition open_attempts (t : list event) : list open_result :=
  omap (fun e => match e with Open _ r => Some r | _ => None end) t.

(** The directories a trace announces with "Creating directory". *)
Definition announced_directories (t : list event) : list string :=
  omap (fun e => match e with
                 | Print (Creating_directory rel_path) => Some rel_path
                 | _ => None
                 end) t.

(** The child threads a trace starts. *)
Definition started_children (t : list event) : list (list string) :=
  omap (fun e => match e with
                 | ThreadStart (Handle_child child) => Some child
                 | _ => None
                 end) t.

Definition is_create_directory (e : event) : bool :=
  match e with PostDirectory _ _ => true | _ => false end.

(** The start of an upload thread, or an upload request. *)
Definition is_upload (e : event) : bool :=
  match e with
  | PostFile _ _ _ | ThreadStart (Upload_file _) => true
  | _ => false
  end.

(** What [_create_folder] leaves in a trace, and what [_upload_file] does. *)
Definition folder_event (e : event) : bool :=
  match e with
  | PostDirectory _ _ => true
  | Print (Created_folder _) | Print (Failed_to_create_folder _ _)
  | Print (Error_creating_folder _) => true
  | _ => false
  end.

Definition upload_event (e : event) : bool :=
  match e with
  | Open _ _ | PostFile _ _ _ | Sleep _ => true
  | Print (Synchronized _) | Print (Upload_error _)
  | Print (Error_uploading_file _) => true
  | ThreadStart (Upload_file _) => true
  | _ => false
  end.

(** The paths of a walk of the local tree are named as a file system
    names them, and so that the URL of a request hands them on as they
    are written: below the sync folder they are made of proper segments,
    and the relative path is [url_safe]. *)
Definition plain_walk (sync_folder : list string)
    (items : list (list string)) : Prop :=
  Forall (fun item =>
            match Paths.relative_to item sync_folder with
            | Some rel =>
                Forall Service.segment rel ∧
                Deployment.url_safe (Paths.posix rel) = true
            | None => True
            end) items.

End Outcomes.

(** ** Child threads and their joins *)

Module Joins.
Import Aggregator Sched.

(** The [threads] list of [_handle_event]: the child threads that were
    started and are not joined yet. *)
Definition handler_threads (pc : handler_pc) : list tid :=
  match pc with
  | HStart => []
  | HSpawning _ started => started
  | HJoining pending => pending
  end.

(** Every child thread that is alive is in the list of a handler thread
    that is alive. *)
Definition children_joined (ths : gmap tid thread) : Prop :=
  ∀ c th, ths !! c = Some th → alive th = true → is_handler th = false →
    ∃ t change path pc,
      ths !! t = Some (Thread (Handler change path pc) true) ∧
      c ∈ handler_threads pc.

(** The crowded schedule, run to the end of its tick: the child thread
    returns, the directory's handler joins it and returns, the file's
    handler returns, and the loop joins both and goes to sleep. *)
Definition settled_schedule : list label :=
  crowded_schedule ++
  [HandlerStep 1%nat; Finish 2%nat; HandlerStep 1%nat; Finish 1%nat;
   Finish 0%nat; LoopStep; LoopStep; LoopStep].

End Joins.

(** ** The drive letter of [CloudStorageClient] *)

Module Drive.

(** The loop of [_get_available_drive_letter] over the letters that are
    left: [if f"{letter}:" not in used_drives: return f"{letter}:"];
    [None] where the loop ends and [RuntimeError] is raised. *)
Fixpoint first_free (letters : string) (used_drives : gset string)
    : option string :=
  match letters with
  | EmptyString => None
  | String letter letters' =>
      if decide (String letter ":" ∈ used_drives)
      then first_free letters' used_drives
      else Some (String letter ":")
  end.

(** [_get_available_drive_letter], given the set [used_drives] it has
    computed from the listing. *)
Definition _get_available_drive_letter (used_drives : gset string)
    : option string :=
  first_free "ZYXWVUTSRQPONMLKJIHGFED" used_drives.

End Drive.

(** ** Startup: the download of what the server holds
    ([CloudStorageClient._setup_virtual_drive]) *)

Module Startup.
Import Paths Server Service.

(** What the client meets at startup besides the server's store: the
    fate of each request, and the clock that stamps what is made in the
    sync folder. *)
Class Outside (E : Type) := {
  request_fate : E → Deployment.delivery * E;
  local_clock : E → Z * E
}.

(** The server's store, what lies below the sync folder (the key [[]]
    is the sync folder itself), and the rest. *)
Record site (E : Type) := Site {
  server : store;
  tree : store;
  env : E
}.
Arguments Site {E} _ _ _.
Arguments server {E} _.
Arguments tree {E} _.
Arguments env {E} _.

(** How the block ends: it runs to its end, or an exception leaves it. *)
Inductive outcome := Ready | Raised.

Inductive startup_line :=
| Synchronizing_existing
| Folder_created (dir_path : string)
| File_downloaded (file_path : string).

(** [sorted] compares strings character by character. *)
Definition string_le (a b : string) : Prop := String.leb a b = true.

#[global] Instance string_le_dec (a b : string) : Decision (string_le a b).
Proof. unfold string_le. apply _. Defined.

(** Every entry of the store has a path that the URL of a download
    hands on as it is written, and that the list names as it is. *)
Definition fetchable (st : store) : Prop :=
  ∀ loc n, st !! loc = Some n → Deployment.url_safe (posix loc) = true.

(** The same, as a check that can be run. *)
Definition fetchableb (st : store) : bool :=
  forallb (fun kv => Deployment.url_safe (posix kv.1)) (map_to_list st).

(** Two entries of the same kind, and of the same content if files. *)
Definition same_entry (remote local : option node) : Prop :=
  match remote, local with
  | None, None => True
  | Some (Directory _), Some (Directory _) => True
  | Some (RegularFile content _), Some (RegularFile content' _) =>
      content = content'
  | _, _ => False
  end.

Section startup.
Context {E : Type} `{Outside E}.

(** [requests.get(f"{self.server_url}/files")]: [None] for an exception. *)
Definition get_files (s : site E) : option (Z * list item) * site E :=
  let n := request_fate (env s) in
  match n.1 with
  | Deployment.Delivered =>
      (Some (200, list_files (server s)), Site (server s) (tree s) n.2)
  | _ => (None, Site (server s) (tree s) n.2)
  end.

(** [requests.get(f"{self.server_url}/download/{file_path}", stream=True)]
    with the body that [iter_content] yields; a response arrives whole
    or not at all. The listed path is written into the URL as it is, so
    the server looks for [Deployment.request_path file_path]. *)
Definition get_download (file_path : string) (s : site E)
    : option (Z * string) * site E :=
  let n := request_fate (env s) in
  match n.1 with
  | Deployment.Delivered =>
      (Some (match download_file (Deployment.request_path file_path)
                     (server s) with
             | NotFound404 => (404, EmptyString)
             | FileResponse content => (200, content)
             | NotAFile500 => (500, EmptyString)
             end),
       Site (server s) (tree s) n.2)
  | _ => (None, Site (server s) (tree s) n.2)
  end.

(** [local_path.mkdir(parents=True, exist_ok=True)] for
    [local_path = self.sync_folder / rel]; [None] for an [OSError]. *)
Definition local_mkdir (loc : list string) (s : site E) : option (site E) :=
  let c := local_clock (env s) in
  match makedirs_rev c.1 (rev loc) (tree s) with
  | inl _ => None
  | inr tree' => Some (Site (server s) tree' c.2)
  end.

(** [local_path.parent.mkdir(parents=True, exist_ok=True)] *)
Definition local_mkdir_parent (loc : list string) (s : site E)
    : option (site E) :=
  let c := local_clock (env s) in
  match mkdir_parent c.1 loc (tree s) with
  | inl _ => None
  | inr tree' => Some (Site (server s) tree' c.2)
  end.

(** [with open(local_path, 'wb') as f: ... f.write(chunk)]; [None] where
    [open] raises: the path is a directory, or it has no directory to
    lie in. *)
Definition local_write (loc : list string) (content : string) (s : site E)
    : option (site E) :=
  let c := local_clock (env s) in
  match tree s !! loc with
  | Some (Directory _) => None
  | _ =>
      match loc with
      | [] => Some (Site (server s) (<[loc := RegularFile content c.1]> (tree s)) c.2)
      | _ =>
          if is_dir (tree s) (removelast loc)
          then Some (Site (server s) (<[loc := RegularFile content c.1]> (tree s)) c.2)
          else None
      end
  end.

(** [for dir_path in sorted(directories): ...] *)
Fixpoint make_directories (directories : list string) (s : site E)
    : outcome * site E * list startup_line :=
  match directories with
  | [] => (Ready, s, [])
  | dir_path :: directories' =>
      match local_mkdir (parts dir_path) s with
      | None => (Raised, s, [])
      | Some s1 =>
          let r := make_directories directories' s1 in
          (r.1.1, r.1.2, Folder_created dir_path :: r.2)
      end
  end.

(** [for file_path in files: ...] *)
Fixpoint download_files (files : list string) (s : site E)
    : outcome * site E * list startup_line :=
  match files with
  | [] => (Ready, s, [])
  | file_path :: files' =>
      match local_mkdir_parent (parts file_path) s with
      | None => (Raised, s, [])
      | Some s1 =>
          let response := get_download file_path s1 in
          match response.1 with
          | None => (Raised, response.2, [])
          | Some (status_code, content) =>
              if status_code =? 200
              then match local_write (parts file_path) content response.2 with
                   | None => (Raised, response.2, [])
                   | Some s3 =>
                       let r := download_files files' s3 in
                       (r.1.1, r.1.2, File_downloaded file_path :: r.2)
                   end
              else download_files files' response.2
          end
      end
  end.

(** The block "Download existing files from server" of
    [_setup_virtual_drive]. *)
Definition download_existing (s : site E)
    : outcome * site E * list startup_line :=
  let response := get_files s in
  match response.1 with
  | None => (Raised, response.2, [])
  | Some (status_code, items) =>
      if status_code =? 200
      then match items with
           | [] => (Ready, response.2, [])
           | _ =>
               let directories :=
                 path <$> filter (fun i => is_directory i = true) items in
               let d := make_directories (merge_sort string_le directories)
                          response.2 in
               match d.1.1 with
               | Raised => (Raised, d.1.2, Synchronizing_existing :: d.2)
               | Ready =>
                   let files :=
                     path <$> filter (fun i => is_directory i = false) items in
                   let f := download_files files d.1.2 in
                   (f.1.1, f.1.2, Synchronizing_existing :: d.2 ++ f.2)
               end
           end
      else (Ready, response.2, [])
  end.

End startup.

(** A reliable network and a clock that stands still. *)
Record calm := Calm { calm_time : Z }.

#[global] Instance calm_outside : Outside calm := {
  request_fate e := (Deployment.Delivered, e);
  local_clock e := (calm_time e, e)
}.

(** The first start of a client: a new sync folder, and a server that
    has taken three uploads. *)
Definition first_start : site calm :=
  Site (serve_all [Upload 5 "docs" None true;
                   Upload 100 "docs/readme.md" (Some "hullo") false;
                   Upload 200 "notes.txt" (Some "final") false]
          (empty_storage 0))
       (empty_storage 900) (Calm 1000).

End Startup.

(** * Properties *)

(** ** Aggregator: latest-wins recording and the debounced drain *)

Module AggregatorFacts.
Import Aggregator.



Lemma drain_fold now debounce l acc (m : events) :
  foldl (drain_step now debounce) (acc, m) l =
  (acc ++ ((fun e => (e.1, e.2.1)) <$> filter (fun e => is_ready now debounce e) l),
   foldl (fun m' e => if is_ready now debounce e then delete e.1 m' else m') m l).
Proof.
  revert acc m. induction l as [|e l IH]; intros acc m; cbn [foldl].
  - by rewrite filter_nil, fmap_nil, app_nil_r.
  - unfold drain_step at 2.
    destruct (is_ready now debounce e) eqn:He; cbn [fst snd].
    + rewrite IH. rewrite filter_cons_True by (by apply Is_true_true_2).
      by rewrite fmap_cons, <- app_assoc.
    + rewrite IH. rewrite filter_cons_False by (by apply Is_true_false_2). done.
Qed.


Lemma drain_ready now debounce (ev : events) :
  (drain now debounce ev).1 =
  (fun e => (e.1, e.2.1)) <$> filter (fun e => is_ready now debounce e) (map_to_list ev).
Proof. unfold drain. by rewrite drain_fold. Qed.



Lemma drain_ready_keys now debounce (ev : events) :
  (drain now debounce ev).1.*1 =
  (filter (fun e => is_ready now debounce e) (map_to_list ev)).*1.
Proof.
  rewrite drain_ready, <- list_fmap_compose. by apply list_fmap_ext.
Qed.

(** A drain never hands the same path over twice. *)
Lemma drain_ready_NoDup now debounce (ev : events) :
  NoDup (drain now debounce ev).1.*1.
Proof.
  rewrite drain_ready_keys.
  eapply sublist_NoDup; [apply (NoDup_fst_map_to_list ev)|].
  apply fmap_sublist, sublist_filter.
Qed.








End AggregatorFacts.

(** ** Server: directory creation, upload and delete on the store *)

Module ServerFacts.
Import Paths Server.

Lemma is_dir_lookup (st : store) (loc : list string) :
  is_dir st loc = true ↔ ∃ mtime, st !! loc = Some (Directory mtime).
Proof.
  unfold is_dir. destruct (st !! loc) as [[m|c m]|]; split;
    try done; eauto; by intros [? [=]].
Qed.

Lemma is_dir_insert_fresh (st : store) (loc : list string) (n : node) (q : list string) :
  st !! loc = None → is_dir st q = true → is_dir (<[loc := n]> st) q = true.
Proof.
  intros Hnone Hq. apply is_dir_lookup in Hq as [m Hq]. apply is_dir_lookup.
  exists m. rewrite lookup_insert_ne; [done|]. intros ->. congruence.
Qed.

Lemma removelast_rev_cons (x : string) rparent :
  removelast (rev (x :: rparent)) = rev rparent.
Proof. cbn [rev]. apply removelast_last. Qed.

Lemma os_mkdir_inr (now : Z) (loc : list string) (st st' : store) :
  os_mkdir now loc st = inr st' →
  st !! loc = None ∧ st' = <[loc := Directory now]> st ∧
  (loc = [] ∨ is_dir st (removelast loc) = true).
Proof.
  unfold os_mkdir. destruct (st !! loc) eqn:Hloc; [done|].
  destruct loc as [|x loc'].
  - intros [= <-]. auto.
  - destruct (st !! removelast (x :: loc')) as [[m|c m]|] eqn:Hp; try done.
    intros [= <-]. split; [done|]. split; [done|]. right.
    apply is_dir_lookup. eauto.
Qed.

Lemma os_mkdir_exists (now : Z) (loc : list string) (st : store) :
  is_Some (st !! loc) → os_mkdir now loc st = inl FileExistsError.
Proof. intros [n Hn]. unfold os_mkdir. by rewrite Hn. Qed.

(** A successful [mkdir] leaves the store as it is when the directory
    exists, and adds exactly the directory otherwise. *)
Lemma mkdir_inr (now : Z) (exist_ok : bool) (loc : list string) (st st' : store) :
  mkdir now exist_ok loc st = inr st' →
  (st' = st ∧ is_dir st loc = true) ∨
  (st !! loc = None ∧ st' = <[loc := Directory now]> st ∧
   (loc = [] ∨ is_dir st (removelast loc) = true)).
Proof.
  unfold mkdir. destruct (os_mkdir now loc st) as [e|st1] eqn:Hos.
  - destruct e; try done;
      destruct (exist_ok && is_dir st loc) eqn:Hok; try done;
      intros [= <-]; left; apply andb_true_iff in Hok as [_ ?]; by split.
  - intros [= <-]. right. by apply os_mkdir_inr.
Qed.

Lemma extends_refl (st : store) : extends st st.
Proof. by split. Qed.

Lemma extends_trans (st1 st2 st3 : store) :
  extends st1 st2 → extends st2 st3 → extends st1 st3.
Proof. intros [H1 W1] [H2 W2]. split; auto. Qed.

Lemma extends_is_dir (st st' : store) (loc : list string) :
  extends st st' → is_dir st loc = true → is_dir st' loc = true.
Proof.
  intros [Hk _] Hd. apply is_dir_lookup in Hd as [m Hd].
  apply is_dir_lookup. eauto.
Qed.

Lemma extends_new_directory (now : Z) (loc : list string) (st : store) :
  st !! loc = None → (loc = [] ∨ is_dir st (removelast loc) = true) →
  extends st (<[loc := Directory now]> st).
Proof.
  intros Hnone Hparent. split.
  - intros q n Hq. rewrite lookup_insert_ne; [done|]. intros ->. congruence.
  - intros Hwf q n Hne Hq. destruct (decide (q = loc)) as [->|Hql].
    + destruct Hparent as [->|Hp]; [done|]. by apply is_dir_insert_fresh.
    + rewrite lookup_insert_ne in Hq by done.
      apply is_dir_insert_fresh; [done|]. by eapply Hwf.
Qed.

Lemma mkdir_extends (now : Z) (exist_ok : bool) (loc : list string) (st st' : store) :
  mkdir now exist_ok loc st = inr st' →
  extends st st' ∧ is_dir st' loc = true.
Proof.
  intros [[-> Hd]|(Hnone & -> & Hp)]%mkdir_inr.
  - split; [apply extends_refl | done].
  - split; [by apply extends_new_directory|].
    apply is_dir_lookup. exists now. apply lookup_insert_eq.
Qed.

Lemma makedirs_rev_extends (now : Z) (rloc : list string) : ∀ st st' : store,
  makedirs_rev now rloc st = inr st' →
  extends st st' ∧ is_dir st' (rev rloc) = true.
Proof.
  induction rloc as [|x rparent IH]; intros st st'; cbn [makedirs_rev].
  - destruct (os_mkdir now (rev []) st) as [e|st1] eqn:Hos.
    + destruct e; try done; destruct (is_dir st (rev [])) eqn:Hd; try done;
        intros [= <-]; (split; [apply extends_refl | done]).
    + intros [= <-]. apply os_mkdir_inr in Hos as (Hnone & -> & Hp). split.
      * by apply extends_new_directory.
      * apply is_dir_lookup. exists now. apply lookup_insert_eq.
  - destruct (os_mkdir now (rev (x :: rparent)) st) as [e|st1] eqn:Hos.
    + destruct e.
      2:{ destruct (makedirs_rev now rparent st) as [e|st1] eqn:Hrec; [done|].
          intros Hmk. apply IH in Hrec as [He1 _].
          apply mkdir_extends in Hmk as [He2 Hd]. split; [|done].
          by eapply extends_trans. }
      all: destruct (is_dir st (rev (x :: rparent))) eqn:Hd; try done;
        intros [= <-]; (split; [apply extends_refl | done]).
    + intros [= <-]. apply os_mkdir_inr in Hos as (Hnone & -> & Hp). split.
      * by apply extends_new_directory.
      * apply is_dir_lookup. exists now. apply lookup_insert_eq.
Qed.

Lemma rev_nil_inv {A} (l : list A) : rev l = [] → l = [].
Proof. intros Hr. apply (f_equal (@rev A)) in Hr. by rewrite rev_involutive in Hr. Qed.

Lemma rev_cons_inv {A} (l : list A) x r :
  rev l = x :: r → l = rev r ++ [x] ∧ removelast l = rev r.
Proof.
  intros Hr. apply (f_equal (@rev A)) in Hr. rewrite rev_involutive in Hr.
  subst l. cbn [rev]. split; [done|]. apply removelast_last.
Qed.

(** After the parent of [loc] has been made, [loc] lies in a directory. *)
Lemma mkdir_parent_extends (now : Z) (loc : list string) (st st' : store) :
  mkdir_parent now loc st = inr st' →
  extends st st' ∧ (loc = [] ∨ is_dir st' (removelast loc) = true).
Proof.
  unfold mkdir_parent. destruct (rev loc) as [|x rparent] eqn:Hrev.
  - intros [= <-]. apply rev_nil_inv in Hrev. split; [apply extends_refl | auto].
  - intros [He Hd]%makedirs_rev_extends.
    apply rev_cons_inv in Hrev as [_ Hp]. rewrite Hp. auto.
Qed.

(** Making the parent of a path that exists in a tree changes nothing. *)
Lemma mkdir_parent_present (now : Z) (loc : list string) (st : store) :
  well_formed st → is_Some (st !! loc) → mkdir_parent now loc st = inr st.
Proof.
  intros Hwf [n Hn]. unfold mkdir_parent.
  destruct (rev loc) as [|x rparent] eqn:Hrev; [done|].
  apply rev_cons_inv in Hrev as [Hloc Hparent].
  assert (Hd : is_dir st (rev rparent) = true).
  { rewrite <- Hparent. eapply Hwf; [|done]. rewrite Hloc. by destruct (rev rparent). }
  destruct rparent as [|y rpp]; cbn [makedirs_rev];
    (rewrite os_mkdir_exists;
     [by rewrite Hd | apply is_dir_lookup in Hd as [m ->]; eauto]).
Qed.

Lemma well_formedb_correct (st : store) :
  well_formedb st = true → well_formed st.
Proof.
  unfold well_formedb. rewrite forallb_forall. intros Hall loc n Hne Hloc.
  specialize (Hall (loc, n)). cbn in Hall. destruct loc; [done|].
  apply Hall, list_elem_of_In. by apply elem_of_map_to_list.
Qed.

Lemma mkdir_lookup_other (now : Z) (exist_ok : bool) (loc q : list string)
    (st st' : store) :
  mkdir now exist_ok loc st = inr st' → q ≠ loc → st' !! q = st !! q.
Proof.
  intros [[-> _]|(_ & -> & _)]%mkdir_inr Hne; [done|].
  by rewrite lookup_insert_ne.
Qed.

(** Making a path and its parents touches no longer path. *)
Lemma makedirs_rev_lookup_longer (now : Z) (rloc : list string) :
  ∀ (st st' : store) (q : list string),
    makedirs_rev now rloc st = inr st' →
    (length rloc < length q)%nat → st' !! q = st !! q.
Proof.
  induction rloc as [|x rparent IH]; intros st st' q; cbn [makedirs_rev];
    destruct (os_mkdir now (rev _) st) as [e|st1] eqn:Hos.
  - destruct e; try done; destruct (is_dir st (rev [])); try done;
      by intros [= <-].
  - intros [= <-] Hlen. apply os_mkdir_inr in Hos as (_ & -> & _).
    rewrite lookup_insert_ne; [done|]. intros <-. cbn in Hlen. lia.
  - destruct e.
    2:{ destruct (makedirs_rev now rparent st) as [e|st1] eqn:Hrec; [done|].
        intros Hmk Hlen. cbn [length] in Hlen.
        rewrite (mkdir_lookup_other _ _ _ q _ _ Hmk).
        - eapply IH; [done|lia].
        - intros ->. rewrite length_rev in Hlen. cbn in Hlen. lia. }
    all: destruct (is_dir st (rev (x :: rparent))); try done; by intros [= <-].
  - intros [= <-] Hlen. apply os_mkdir_inr in Hos as (_ & -> & _).
    rewrite lookup_insert_ne; [done|]. intros <-.
    rewrite length_rev in Hlen. lia.
Qed.

(** Making the parent of [loc] does not touch [loc]. *)
Lemma mkdir_parent_lookup_target (now : Z) (loc : list string) (st st' : store) :
  mkdir_parent now loc st = inr st' → st' !! loc = st !! loc.
Proof.
  unfold mkdir_parent. destruct (rev loc) as [|x rparent] eqn:Hrev.
  - by intros [= <-].
  - intros Hmk. eapply makedirs_rev_lookup_longer; [done|].
    rewrite <- (length_rev loc), Hrev. cbn. lia.
Qed.

(** In a tree every ancestor of a directory is a directory. *)
Lemma well_formed_ancestors (st : store) (a k : list string) :
  well_formed st → is_dir st (a ++ k) = true → is_dir st a = true.
Proof.
  intros Hwf. induction k as [|x k IH] using rev_ind.
  - by rewrite app_nil_r.
  - intros Hd. apply IH. apply is_dir_lookup in Hd as [m Hd].
    rewrite <- (removelast_last (a ++ k) x), <- app_assoc.
    eapply Hwf; [|done]. by destruct a, k.
Qed.

Lemma well_formed_empty_storage (mtime : Z) : well_formed (empty_storage mtime).
Proof. by apply well_formedb_correct. Qed.

(** C8. Creating a directory that exists in the store returns success and
    leaves the store as it is. *)
Theorem create_directory_idempotent (now : Z) (file_path : string)
    (file : option string) (st : store) :
  well_formed st →
  is_dir st (storage_path file_path) = true →
  upload_file now file_path file true st = (ok200, st).
Proof.
  intros Hwf Hd. unfold upload_file.
  assert (Hsome : is_Some (st !! storage_path file_path)).
  { apply is_dir_lookup in Hd as [m ->]. eauto. }
  rewrite mkdir_parent_present by done.
  unfold mkdir. by rewrite os_mkdir_exists, Hd.
Qed.

(** Creating [docs/img] a second time. *)
Lemma create_directory_idempotent_witness :
  let st := (upload_file 1 "docs/img" None true (empty_storage 0)).2 in
  is_dir st (storage_path "docs/img") = true ∧
  upload_file 2 "docs/img" None true st = (ok200, st).
Proof.
  intros st. split; [reflexivity|].
  apply (create_directory_idempotent 2 "docs/img" None st).
  - apply well_formedb_correct. vm_compute. reflexivity.
  - vm_compute. reflexivity.
Defined.


Lemma keeps_refl (st : store) : keeps st st.
Proof. intros loc n Hn. eauto. Qed.

Lemma keeps_trans (st1 st2 st3 : store) :
  keeps st1 st2 → keeps st2 st3 → keeps st1 st3.
Proof.
  intros H1 H2 loc n Hn. destruct (H1 _ _ Hn) as (n' & Hn' & Hk).
  destruct (H2 _ _ Hn') as (n'' & Hn'' & Hk'). exists n''. split; [done|].
  congruence.
Qed.

Lemma extends_keeps (st st' : store) : extends st st' → keeps st st'.
Proof. intros [Hk _] loc n Hn. eauto. Qed.

(** An upload request, whatever it carries and however it ends, removes
    nothing and turns no file into a directory or back. *)
Lemma upload_file_keeps (now : Z) (file_path : string) (file : option string)
    (is_directory : bool) (st : store) :
  keeps st (upload_file now file_path file is_directory st).2.
Proof.
  unfold upload_file.
  destruct (mkdir_parent now (storage_path file_path) st) as [e|st1] eqn:Hmk;
    [apply keeps_refl|].
  apply mkdir_parent_extends in Hmk as [Hext _].
  apply extends_keeps in Hext. eapply keeps_trans; [exact Hext|].
  destruct is_directory.
  - destruct (mkdir now true (storage_path file_path) st1) as [e|st2] eqn:Hd;
      [apply keeps_refl|].
    apply mkdir_extends in Hd as [Hext2 _]. by apply extends_keeps.
  - destruct file as [content|]; [|apply keeps_refl].
    destruct (st1 !! storage_path file_path) as [[m|c m]|] eqn:Ht; cbn [snd].
    + apply keeps_refl.
    + intros loc n Hn. destruct (decide (loc = storage_path file_path)) as [->|Hne].
      * rewrite lookup_insert_eq. eexists. split; [done|].
        rewrite Ht in Hn. by injection Hn as <-.
      * rewrite lookup_insert_ne by done. eauto.
    + intros loc n Hn. rewrite lookup_insert_ne; [eauto|]. congruence.
Qed.

(** So does any sequence of upload requests, in any order. *)
Lemma serve_uploads_keeps (requests : list (Z * string * option string * bool))
    (st : store) :
  keeps st (serve_uploads requests st).
Proof.
  unfold serve_uploads. revert st.
  induction requests as [|r requests IH]; intros st; cbn [foldl].
  - apply keeps_refl.
  - eapply keeps_trans; [apply upload_file_keeps | apply IH].
Qed.

(** Deleting a path that is not in the store: not found, nothing changes. *)
Lemma delete_file_absent (file_path : string) (st : store) :
  st !! storage_path file_path = None →
  delete_file file_path st = (error404, st).
Proof. intros Hnone. unfold delete_file, path_exists. by rewrite Hnone. Qed.

(** After any delete request the path is not in the store. *)
Lemma delete_file_gone (file_path : string) (st : store) :
  (delete_file file_path st).2 !! storage_path file_path = None.
Proof.
  unfold delete_file, path_exists, is_file.
  destruct (st !! storage_path file_path) as [[m|c m]|] eqn:Ht; cbn [snd negb].
  - unfold rmtree. apply map_lookup_filter_None. right. intros n _ Hp.
    by apply Hp.
  - apply lookup_delete_eq.
  - done.
Qed.

Lemma removelast_neq (loc : list string) : loc ≠ [] → removelast loc ≠ loc.
Proof.
  intros Hne Heq. apply (f_equal length) in Heq.
  destruct loc as [|x loc _] using rev_ind; [done|].
  rewrite removelast_last, length_app in Heq. cbn in Heq. lia.
Qed.

Lemma removelast_prefix (loc : list string) : removelast loc `prefix_of` loc.
Proof.
  destruct loc as [|x loc _] using rev_ind; [done|].
  rewrite removelast_last. by apply prefix_app_r.
Qed.

(** Every endpoint keeps the store a tree. *)
Lemma upload_file_well_formed (now : Z) (file_path : string)
    (file : option string) (is_directory : bool) (st : store) :
  well_formed st → well_formed (upload_file now file_path file is_directory st).2.
Proof.
  intros Hwf. unfold upload_file.
  destruct (mkdir_parent now (storage_path file_path) st) as [e|st1] eqn:Hmk;
    [done|].
  apply mkdir_parent_extends in Hmk as [[_ Hwf1] Hparent].
  specialize (Hwf1 Hwf). destruct is_directory.
  - destruct (mkdir now true (storage_path file_path) st1) as [e|st2] eqn:Hd;
      [done|].
    apply mkdir_extends in Hd as [[_ Hwf2] _]. by apply Hwf2.
  - destruct file as [content|]; [|done].
    assert (Hins : ∀ c, (∀ m, st1 !! storage_path file_path ≠ Some (Directory m)) →
            well_formed (<[storage_path file_path := RegularFile c now]> st1)).
  { intros c Hnodir q n Hq Hn.
    assert (Hp : removelast q ≠ storage_path file_path ∨
                 q = storage_path file_path).
    { destruct (decide (q = storage_path file_path)) as [|Hne]; [by right|left].
      rewrite lookup_insert_ne in Hn by done. intros Heq.
      specialize (Hwf1 _ _ Hq Hn). rewrite Heq in Hwf1.
      apply is_dir_lookup in Hwf1 as [m' Hm']. by apply (Hnodir m'). }
    assert (Hdir : is_dir st1 (removelast q) = true).
    { destruct (decide (q = storage_path file_path)) as [->|Hne].
      - by destruct Hparent.
      - rewrite lookup_insert_ne in Hn by done. by eapply Hwf1. }
    apply is_dir_lookup in Hdir as [m' Hm']. apply is_dir_lookup. exists m'.
    rewrite lookup_insert_ne; [done|]. intros Heq.
    destruct Hp as [Hp| ->]; [done|]. by apply (removelast_neq _ Hq). }
  destruct (st1 !! storage_path file_path) as [[m|c m]|] eqn:Ht; cbn [snd];
    [done| |]; apply (Hins content); congruence.
Qed.

Lemma delete_file_well_formed (file_path : string) (st : store) :
  well_formed st → well_formed (delete_file file_path st).2.
Proof.
  intros Hwf. unfold delete_file, path_exists, is_file.
  destruct (st !! storage_path file_path) as [[m|c m]|] eqn:Ht; cbn [snd negb];
    [| |done].
  - intros q n Hq Hn. unfold rmtree in *.
    apply map_lookup_filter_Some in Hn as [Hn Hkeep]. cbn in Hkeep.
    specialize (Hwf _ _ Hq Hn). apply is_dir_lookup in Hwf as [m' Hm'].
    apply is_dir_lookup. exists m'. apply map_lookup_filter_Some. split; [done|].
    cbn. intros Hpre. apply Hkeep.
    etrans; [exact Hpre | apply removelast_prefix].
  - intros q n Hq Hn. apply lookup_delete_Some in Hn as [Hne Hn].
    specialize (Hwf _ _ Hq Hn). apply is_dir_lookup in Hwf as [m' Hm'].
    apply is_dir_lookup. exists m'. rewrite lookup_delete_ne; [done|].
    congruence.
Qed.

End ServerFacts.

(** ** Client: traces of the handler's functions *)

Module ClientFacts.
Import Paths Client.

(** *** Path strings *)

Lemma relative_to_prefix (p root : list string) :
  relative_to p root = None ↔ ¬ root `prefix_of` p.
Proof.
  revert p. induction root as [|r root IH]; intros p; cbn [relative_to].
  - split; [done|]. intros Hn. exfalso. apply Hn, prefix_nil.
  - destruct p as [|x p].
    + split; [|done]. intros _ [k Hk]. done.
    + destruct (decide (r = x)) as [->|Hne].
      * rewrite IH. split; intros Hn Hp; apply Hn.
        -- by apply prefix_cons_inv_2 in Hp.
        -- by apply prefix_cons.
      * split; [|done]. intros _ Hp. by apply prefix_cons_inv_1 in Hp.
Qed.

Lemma relative_to_app (root rel : list string) :
  relative_to (root ++ rel) root = Some rel.
Proof.
  induction root as [|r root IH]; cbn [relative_to app]; [done|].
  by rewrite decide_True.
Qed.

Lemma append_cons (c : Ascii.ascii) (a b : string) :
  String c a +:+ b = String c (a +:+ b).
Proof. reflexivity. Qed.

Lemma append_nil_l (b : string) : EmptyString +:+ b = b.
Proof. reflexivity. Qed.

Lemma append_nil_r (a : string) : a +:+ EmptyString = a.
Proof. induction a as [|c a IH]; [done|]. by rewrite append_cons, IH. Qed.

Lemma append_assoc (a b c : string) : (a +:+ b) +:+ c = a +:+ (b +:+ c).
Proof.
  induction a as [|x a IH]; [done|]. by rewrite !append_cons, IH.
Qed.

Lemma no_slash_app (a b : string) :
  no_slash (a +:+ b) = no_slash a && no_slash b.
Proof.
  induction a as [|c a IH]; [done|].
  rewrite append_cons. cbn [no_slash]. by rewrite IH, andb_assoc.
Qed.

Lemma split_on_no_slash (s : string) : ∀ cur,
  no_slash cur = true →
  Forall (fun x => no_slash x = true) (split_on "/"%char s cur).
Proof.
  induction s as [|c s IH]; intros cur Hcur; cbn [split_on].
  - by repeat constructor.
  - destruct (Ascii.eqb c "/"%char) eqn:Hc.
    + constructor; [done|]. by apply IH.
    + apply IH. rewrite no_slash_app, Hcur. cbn [no_slash]. by rewrite Hc.
Qed.

(** The segments of a path string are plain. *)
Lemma parts_plain (s : string) : Forall plain (parts s).
Proof.
  unfold parts. apply Forall_forall. intros x Hx.
  apply list_elem_of_filter in Hx as [[Hne _] Hx]. split; [done|].
  pose proof (split_on_no_slash s EmptyString eq_refl) as Hall.
  rewrite Forall_forall in Hall. by apply Hall.
Qed.

Lemma lstrip_slash_plain (x rest : string) :
  plain x → lstrip_slash (x +:+ rest) = x +:+ rest.
Proof.
  intros [Hne Hns]. destruct x as [|c x]; [done|].
  rewrite append_cons. cbn [lstrip_slash no_slash] in *.
  by destruct (Ascii.eqb c "/"%char).
Qed.

Lemma lstrip_slash_first (x : string) :
  plain x → lstrip_slash (EmptyString +:+ "/" +:+ x) = x.
Proof.
  intros Hx. rewrite append_nil_l, append_cons, append_nil_l.
  cbn [lstrip_slash]. rewrite Ascii.eqb_refl.
  rewrite <- (append_nil_r x) at 1. rewrite lstrip_slash_plain by done.
  apply append_nil_r.
Qed.

Lemma concat_cons2 (a b : string) (pre : list string) :
  String.concat "/" (a :: b :: pre) = a +:+ "/" +:+ String.concat "/" (b :: pre).
Proof. reflexivity. Qed.

Lemma concat_snoc (pre : list string) (x : string) :
  pre ≠ [] →
  String.concat "/" (pre ++ [x]) = String.concat "/" pre +:+ "/" +:+ x.
Proof.
  induction pre as [|a pre IH]; [done|]. intros _.
  destruct pre as [|b pre]; [reflexivity|].
  change ((a :: b :: pre) ++ [x]) with (a :: b :: (pre ++ [x])).
  rewrite !concat_cons2.
  change (b :: pre ++ [x]) with ((b :: pre) ++ [x]).
  rewrite IH by done. by rewrite !append_assoc.
Qed.

Lemma concat_plain_start (a : string) (pre : list string) :
  ∃ rest, String.concat "/" (a :: pre) = a +:+ rest.
Proof.
  destruct pre as [|b pre].
  - exists EmptyString. by rewrite append_nil_r.
  - rewrite concat_cons2. by eexists.
Qed.

Lemma cumulative_from (parts pre : list string) :
  Forall plain pre → Forall plain parts →
  cumulative parts (String.concat "/" pre) =
  (fun k => String.concat "/" (pre ++ take k parts)) <$> seq 1 (length parts).
Proof.
  revert pre. induction parts as [|part parts IH]; intros pre Hpre Hparts;
    [done|].
  apply Forall_cons in Hparts as [Hpart Hparts].
  cbn [cumulative length seq fmap list_fmap].
  assert (Hcur : lstrip_slash (String.concat "/" pre +:+ "/" +:+ part) =
                 String.concat "/" (pre ++ [part])).
  { destruct pre as [|a pre'].
    - by apply lstrip_slash_first.
    - rewrite concat_snoc by done. apply Forall_cons in Hpre as [Ha _].
      destruct (concat_plain_start a pre') as [rest ->].
      rewrite append_assoc. by apply lstrip_slash_plain. }
  rewrite Hcur. f_equal.
  rewrite IH by (try apply Forall_app; auto).
  rewrite <- (fmap_S_seq 1), <- list_fmap_compose. apply list_fmap_ext.
  intros i k _. cbn [take compose]. by rewrite <- app_assoc.
Qed.

(** The paths [_create_folder] asks for are the prefixes of the relative
    path: first segment, first two segments, and so on. *)
Lemma cumulative_ancestors (parts : list string) :
  Forall plain parts → cumulative parts EmptyString = ancestors parts.
Proof. intros Hp. by apply (cumulative_from parts []). Qed.

Section commands.
Context {W : Type}.
Variable R : W → W → Prop.
Variable P : event → Prop.
Hypothesis R_refl : ∀ w, R w w.
Hypothesis R_trans : ∀ w1 w2 w3, R w1 w2 → R w2 w3 → R w1 w3.

Lemma within_ret {A} (a : A) : within R P (mret a : cmd W A).
Proof. intros w. split; [apply R_refl | constructor]. Qed.

Lemma within_bind {A B} (m : cmd W A) (f : A → cmd W B) :
  within R P m → (∀ a, within R P (f a)) → within R P (m ≫= f).
Proof.
  intros Hm Hf w. destruct (Hm w) as [HR HP].
  destruct (Hf (m w).1.1 (m w).1.2) as [HR' HP']. split; cbn.
  - eapply R_trans; eauto.
  - by apply Forall_app.
Qed.

Lemma within_emit (e : event) : P e → within R P (emit e : cmd W unit).
Proof. intros He w. split; [apply R_refl | by repeat constructor]. Qed.

Lemma within_call {A} (e : A → event) (op : W → A * W) :
  (∀ w, R w (op w).2) → (∀ a, P (e a)) → within R P (call e op).
Proof. intros Hop He w. split; [apply Hop | by repeat constructor]. Qed.

Lemma within_ask {A} (q : W → A) : within R P (ask q).
Proof. intros w. split; [apply R_refl | constructor]. Qed.

Lemma within_for_each {A} (l : list A) (body : A → cmd W unit) :
  (∀ x, within R P (body x)) → within R P (for_each l body).
Proof.
  intros Hb. induction l as [|x l IH]; cbn [for_each].
  - by apply within_ret.
  - apply within_bind; [apply Hb | intros _; apply IH].
Qed.
End commands.

(** Whatever the handler's functions other than [_delete_path] do, it
    is done through requests that create or upload, through the file
    list, or locally. *)
Section frame.
Context {W : Type} `{World W}.
Variable R : W → W → Prop.
Variable P : event → Prop.
Variable sync_folder : list string.
Hypothesis R_refl : ∀ w, R w w.
Hypothesis R_trans : ∀ w1 w2 w3, R w1 w2 → R w2 w3 → R w1 w3.
Hypothesis R_post_dir : ∀ u w, R w (requests_post_dir u w).2.
Hypothesis R_post_file : ∀ u c w, R w (requests_post_file u c w).2.
Hypothesis R_get_files : ∀ w, R w (requests_get_files w).2.
Hypothesis R_open : ∀ p w, R w (open_rb p w).2.
Hypothesis P_quiet :
  ∀ e, is_delete_request e = false → is_thread_start e = false → P e.

Lemma create_folder_loop_within p parts cur :
  within R P (create_folder_loop p parts cur).
Proof.
  revert cur. induction parts as [|part parts IH]; intros cur;
    cbn [create_folder_loop].
  - by apply within_ret.
  - apply (within_bind _ _ R_trans); [|].
    + apply within_call; [done|]. intros a. by apply P_quiet.
    + intros [status_code text|].
      * destruct (status_code =? 200).
        -- apply (within_bind _ _ R_trans); [|intros _; apply IH].
           apply (within_emit _ _ R_refl). by apply P_quiet.
        -- apply (within_emit _ _ R_refl). by apply P_quiet.
      * apply (within_emit _ _ R_refl). by apply P_quiet.
Qed.

Lemma create_folder_within p : within R P (_create_folder sync_folder p).
Proof.
  unfold _create_folder. destruct (relative_to p sync_folder).
  - apply create_folder_loop_within.
  - apply (within_emit _ _ R_refl). by apply P_quiet.
Qed.

Lemma upload_attempts_within n p rel : within R P (upload_attempts n p rel).
Proof.
  induction n as [|n IH]; cbn [upload_attempts].
  - by apply within_ret.
  - apply (within_bind _ _ R_trans); [|].
    + apply within_call; [done|]. intros a. by apply P_quiet.
    + intros [content| | |].
      * apply (within_bind _ _ R_trans); [|].
        -- apply within_call; [done|]. intros a. by apply P_quiet.
        -- intros [status_code text|].
           ++ destruct (status_code =? 200); [|done].
              apply (within_emit _ _ R_refl). by apply P_quiet.
           ++ apply (within_emit _ _ R_refl). by apply P_quiet.
      * apply (within_bind _ _ R_trans); [|done].
        apply (within_emit _ _ R_refl). by apply P_quiet.
      * apply (within_bind _ _ R_trans); [|done].
        apply (within_emit _ _ R_refl). by apply P_quiet.
      * apply (within_emit _ _ R_refl). by apply P_quiet.
Qed.

Lemma upload_file_within p : within R P (_upload_file sync_folder p).
Proof.
  unfold _upload_file. destruct (relative_to p sync_folder).
  - apply upload_attempts_within.
  - apply (within_emit _ _ R_refl). by apply P_quiet.
Qed.

Lemma sync_directories_within server_files local_files :
  within R P (sync_directories sync_folder server_files local_files).
Proof.
  unfold sync_directories. apply (within_for_each _ _ R_refl R_trans).
  intros e. destruct (_ && _).
  - apply (within_bind _ _ R_trans); [|intros _; apply create_folder_within].
    apply (within_emit _ _ R_refl). by apply P_quiet.
  - by apply within_ret.
Qed.

(** [force_sync] adds the start of its upload threads. *)
Lemma force_sync_within path :
  (∀ p, P (ThreadStart (Upload_file p))) →
  within R P (force_sync sync_folder path).
Proof.
  intros P_start. unfold force_sync.
  destruct (sync_root sync_folder path) as [root|].
  2:{ apply (within_emit _ _ R_refl). by apply P_quiet. }
  apply (within_bind _ _ R_trans); [|intros _].
  { apply (within_emit _ _ R_refl). by apply P_quiet. }
  apply (within_bind _ _ R_trans); [|].
  { apply within_call; [done|]. intros a. by apply P_quiet. }
  intros [status_code json|].
  2:{ apply (within_emit _ _ R_refl). by apply P_quiet. }
  destruct (negb _).
  { apply (within_emit _ _ R_refl). by apply P_quiet. }
  apply (within_bind _ _ R_trans); [by apply within_ask|intros local_files].
  apply (within_bind _ _ R_trans); [apply sync_directories_within|intros _].
  apply (within_bind _ _ R_trans); [|intros _].
  - apply (within_for_each _ _ R_refl R_trans). intros p.
    apply (within_bind _ _ R_trans); [|intros _; apply upload_file_within].
    by apply (within_emit _ _ R_refl).
  - apply (within_emit _ _ R_refl). by apply P_quiet.
Qed.

End frame.

(** *** What [_create_folder], [_upload_file], [_handle_event] and
    [force_sync] do *)

Section traces.
Context {W : Type} `{World W}.
Variable sync_folder : list string.

Lemma create_folder_loop_cons p part parts cur (w : W) :
  (create_folder_loop p (part :: parts) cur w).2 =
  let cur' := lstrip_slash (cur +:+ "/" +:+ part) in
  let r := requests_post_dir cur' w in
  PostDirectory cur' r.1 ::
    if succeeded r.1
    then Print (Created_folder cur') :: (create_folder_loop p parts cur' r.2).2
    else [Print (failure_report p cur' r.1)].
Proof.
  cbn [create_folder_loop]. run_cmd.
  destruct (requests_post_dir _ w) as [[c text|] w1]; cbn [fst snd succeeded];
    [destruct (c =? 200)|]; run_cmd; reflexivity.
Qed.

Lemma directory_requests_dir u r t :
  directory_requests (PostDirectory u r :: t) = (u, r) :: directory_requests t.
Proof. reflexivity. Qed.

Lemma directory_requests_print line t :
  directory_requests (Print line :: t) = directory_requests t.
Proof. reflexivity. Qed.

(** The calls are made for the paths of [cumulative], in that order. *)
Lemma create_folder_loop_prefix p parts : ∀ cur (w : W),
  ∃ k, (directory_requests (create_folder_loop p parts cur w).2).*1 =
       take k (cumulative parts cur).
Proof.
  induction parts as [|part parts IH]; intros cur w.
  - by exists 0%nat.
  - rewrite create_folder_loop_cons. cbn zeta.
    rewrite directory_requests_dir. destruct (succeeded _).
    + destruct (IH (lstrip_slash (cur +:+ "/" +:+ part))
                   (requests_post_dir (lstrip_slash (cur +:+ "/" +:+ part)) w).2)
        as [k Hk].
      exists (S k). rewrite directory_requests_print, fmap_cons, Hk.
      reflexivity.
    + by exists 1%nat.
Qed.

(** If no call fails there is one call per segment. *)
Lemma create_folder_loop_complete p parts : ∀ cur (w : W),
  Forall (fun c => succeeded c.2 = true)
         (directory_requests (create_folder_loop p parts cur w).2) →
  (directory_requests (create_folder_loop p parts cur w).2).*1 =
  cumulative parts cur.
Proof.
  induction parts as [|part parts IH]; intros cur w; [done|].
  rewrite create_folder_loop_cons. cbn zeta.
  rewrite directory_requests_dir, fmap_cons. cbn [cumulative fst].
  destruct (succeeded _) eqn:Hok.
  - rewrite directory_requests_print.
    intros [_ Hrest]%Forall_cons. f_equal. by apply IH.
  - intros [Hbad _]%Forall_cons. cbn [snd] in Hbad. congruence.
Qed.

(** After a call that fails there is the report of the failure, and
    nothing else. *)
Lemma create_folder_loop_stops p parts : ∀ cur (w : W) t1 u r t2,
  (create_folder_loop p parts cur w).2 = t1 ++ PostDirectory u r :: t2 →
  succeeded r = false →
  t2 = [Print (failure_report p u r)].
Proof.
  induction parts as [|part parts IH]; intros cur w t1 u r t2.
  - cbn. by destruct t1.
  - rewrite create_folder_loop_cons. cbn zeta. intros Ht Hbad.
    destruct t1 as [|e1 t1]; cbn [app] in Ht.
    + injection Ht as -> -> Ht. by rewrite Hbad in Ht.
    + injection Ht as _ Ht. destruct (succeeded _).
      * destruct t1 as [|e2 t1]; cbn [app] in Ht; [done|].
        injection Ht as _ Ht. by eapply IH.
      * destruct t1 as [|e2 t1]; cbn [app] in Ht; [done|].
        injection Ht as _ Ht. by destruct t1.
Qed.

Lemma create_folder_loop_only_directories p parts : ∀ cur (w : W),
  Forall (fun e => is_request e = true → ∃ u r, e = PostDirectory u r)
         (create_folder_loop p parts cur w).2.
Proof.
  induction parts as [|part parts IH]; intros cur w; [constructor|].
  rewrite create_folder_loop_cons. cbn zeta.
  constructor; [eauto|]. destruct (succeeded _).
  - constructor; [done|]. apply IH.
  - by repeat constructor.
Qed.

(** For a directory below the sync folder, [_create_folder] asks the
    server to create one directory per segment of the relative path,
    from the root downward: the calls are made for an initial part of
    the list of ancestors, in its order, and for all of it if no call
    fails. A call that fails is the last: it is followed by the report
    of the failure and by nothing else; and no request other than
    create-directory is made. *)
Lemma create_folder_calls (p rel : list string) (w : W) :
  relative_to p sync_folder = Some rel →
  let t := (_create_folder sync_folder p w).2 in
  let calls := directory_requests t in
  let segments := parts (posix rel) in
  length (ancestors segments) = length segments ∧
  (∃ k, calls.*1 = take k (ancestors segments)) ∧
  (Forall (fun c => succeeded c.2 = true) calls →
   calls.*1 = ancestors segments) ∧
  (∀ t1 u r t2, t = t1 ++ PostDirectory u r :: t2 → succeeded r = false →
     t2 = [Print (failure_report p u r)]) ∧
  Forall (fun e => is_request e = true → ∃ u r, e = PostDirectory u r) t.
Proof.
  intros Hrel t calls segments. subst t calls. unfold _create_folder.
  rewrite Hrel. fold segments.
  rewrite <- (cumulative_ancestors segments) by apply parts_plain.
  split; [|split; [|split; [|split]]].
  - rewrite cumulative_ancestors by apply parts_plain.
    unfold ancestors. by rewrite length_fmap, length_seq.
  - apply create_folder_loop_prefix.
  - apply create_folder_loop_complete.
  - apply create_folder_loop_stops.
  - apply create_folder_loop_only_directories.
Qed.

(** C10. An event for a path that does not lie below the sync folder is
    ignored: the handler returns, the world is as before and the trace
    is empty, so no request was made. *)
Theorem event_outside_sync_folder_ignored
    (change : Change) (path : string) (w : W) :
  ¬ sync_folder `prefix_of` Path path →
  _handle_event sync_folder change path w = (tt, w, []).
Proof.
  intros Hout. apply relative_to_prefix in Hout.
  unfold _handle_event. by rewrite Hout.
Qed.

(** *** What a drained event is dispatched to *)

(** A deletion is dispatched to one delete request for the relative path. *)
Lemma handle_event_delete (change : Change) (path : string)
    (rel : list string) (w : W) :
  relative_to (Path path) sync_folder = Some rel →
  action_kind change = Delete →
  (_handle_event sync_folder change path w).2 =
  Sleep 50 :: (_delete_path (posix rel) w).2.
Proof.
  intros Hrel Hkind. unfold _handle_event. rewrite Hrel, Hkind. by run_cmd.
Qed.

(** An addition or modification of a file is dispatched to its upload. *)
Lemma handle_event_file (change : Change) (path : string)
    (rel : list string) (st : stat_result) (w : W) :
  relative_to (Path path) sync_folder = Some rel →
  action_kind change = Upsert →
  path_stat (Path path) w = Some st → st_is_dir st = false →
  (_handle_event sync_folder change path w).2 =
  Sleep 50 :: (_upload_file sync_folder (Path path) w).2.
Proof.
  intros Hrel Hkind Hst Hdir. unfold _handle_event. rewrite Hrel, Hkind.
  run_cmd. rewrite Hst, Hdir. by run_cmd.
Qed.

(** An addition or modification of a directory is dispatched to
    [_create_folder], and then, whatever came of it, to the children. *)
Lemma handle_event_directory (change : Change) (path : string)
    (rel : list string) (st : stat_result) (w : W) :
  relative_to (Path path) sync_folder = Some rel →
  action_kind change = Upsert →
  path_stat (Path path) w = Some st → st_is_dir st = true →
  let created := _create_folder sync_folder (Path path) w in
  (_handle_event sync_folder change path w).2 =
  Sleep 50 :: created.2 ++
    (for_each (path_rglob (Path path) created.1.2)
       (fun child => emit (ThreadStart (Handle_child child));;
                     _handle_child sync_folder child)
       created.1.2).2.
Proof.
  intros Hrel Hkind Hst Hdir created. subst created. unfold _handle_event.
  rewrite Hrel, Hkind. run_cmd. rewrite Hst, Hdir. by run_cmd.
Qed.



(** *** Reconciliation *)

Lemma started_uploads_app t1 t2 :
  started_uploads (t1 ++ t2) = started_uploads t1 ++ started_uploads t2.
Proof. apply omap_app. Qed.

Lemma started_uploads_cons e t :
  started_uploads (e :: t) =
  match e with
  | ThreadStart (Upload_file p) => p :: started_uploads t
  | _ => started_uploads t
  end.
Proof. by destruct e as [| | | | | | |[]]. Qed.

Lemma started_uploads_quiet t :
  Forall (fun e => is_thread_start e = false) t → started_uploads t = [].
Proof.
  induction 1 as [|e t He _ IH]; [done|].
  rewrite started_uploads_cons. by destruct e.
Qed.

Lemma upload_file_starts_nothing p (w : W) :
  started_uploads (_upload_file sync_folder p w).2 = [].
Proof.
  apply started_uploads_quiet.
  apply (upload_file_within (fun _ _ => True)); auto.
Qed.

Lemma sync_directories_starts_nothing server_files local_files (w : W) :
  started_uploads (sync_directories sync_folder server_files local_files w).2 = [].
Proof.
  apply started_uploads_quiet.
  apply (sync_directories_within (fun _ _ => True)); auto.
Qed.

Lemma for_each_uploads_started (l : list (list string))
    (body : list string → cmd W unit) :
  (∀ p w, started_uploads (body p w).2 = [p]) →
  ∀ w : W, started_uploads (for_each l body w).2 = l.
Proof.
  intros Hbody. induction l as [|p l IH]; intros w; [done|].
  cbn [for_each]. unfold mbind at 1, cmd_bind at 1. cbn [snd].
  by rewrite started_uploads_app, IH, Hbody.
Qed.

Lemma upload_threads_fold server_files local_files acc :
  foldl (fun threads (e : string * local_info) =>
           if negb (li_is_directory e.2)
           then if needs_upload server_files e.1 e.2
                then threads ++ [sync_folder ++ parts e.1]
                else threads
           else threads) acc local_files =
  acc ++ upload_threads sync_folder server_files local_files.
Proof.
  unfold upload_threads. revert acc.
  induction local_files as [|e l IH]; intros acc; cbn [foldl].
  - by rewrite app_nil_r.
  - rewrite IH. rewrite (IH (if negb _ then _ else _)).
    destruct (negb _); [destruct (needs_upload _ _ _)|];
      by rewrite ?app_nil_l, <- ?app_assoc.
Qed.

(** The threads [force_sync] prepares: one for every local file whose
    remote counterpart is missing or older. *)
Lemma upload_threads_spec server_files local_files p :
  p ∈ upload_threads sync_folder server_files local_files ↔
  ∃ rel_path info,
    (rel_path, info) ∈ local_files ∧ p = sync_folder ++ parts rel_path ∧
    li_is_directory info = false ∧
    (server_files !! rel_path = None ∨
     ∃ item, server_files !! rel_path = Some item ∧
             default 0 (modified item) < li_modified info).
Proof.
  induction local_files as [|[rel info] l IH].
  - split; [by intros ?%elem_of_nil|]. by intros (? & ? & ?%elem_of_nil & _).
  - unfold upload_threads. cbn [foldl]. rewrite upload_threads_fold.
    rewrite elem_of_app, IH. clear IH. cbn [fst snd]. split.
    + intros [Hp|(rel' & info' & Hin & Hrest)].
      * exists rel, info. split; [apply elem_of_cons; by left|].
        destruct (li_is_directory info) eqn:Hd; cbn [negb] in Hp;
          [by apply elem_of_nil in Hp|].
        unfold needs_upload in Hp.
        destruct (server_files !! rel) as [item|] eqn:Hs.
        -- destruct (_ <? _) eqn:Hlt; [|by apply elem_of_nil in Hp].
           apply list_elem_of_singleton in Hp. apply Z.ltb_lt in Hlt. eauto 8.
        -- apply list_elem_of_singleton in Hp. eauto.
      * exists rel', info'. split; [apply elem_of_cons; by right|done].
    + intros (rel' & info' & Hin & Hp & Hd & Hs).
      apply elem_of_cons in Hin as [[= -> ->]|Hin]; [left|right; eauto 8].
      rewrite Hd. cbn [negb]. unfold needs_upload.
      destruct Hs as [->|(item & -> & Hlt)].
      * by apply list_elem_of_singleton.
      * apply Z.ltb_lt in Hlt. rewrite Hlt. by apply list_elem_of_singleton.
Qed.

(** When the walk has a root and the server's list arrives,
    [force_sync] starts an upload thread for a local file if and only if
    the list has no entry for its relative path or the entry's
    modification time is strictly smaller than the local one; local
    directories and files whose remote copy is as new or newer get no
    thread. *)
Lemma force_sync_starts_uploads
    (path : option string) (root : list string) (w w1 : W)
    (json : list remote_item) :
  sync_root sync_folder path = Some root →
  requests_get_files w = (FilesResponse 200 json, w1) →
  let server_files := server_files_of json in
  let local_files := local_files_of sync_folder root w1 in
  let t := (force_sync sync_folder path w).2 in
  started_uploads t = upload_threads sync_folder server_files local_files ∧
  ∀ p, p ∈ started_uploads t ↔
    ∃ rel_path info,
      (rel_path, info) ∈ local_files ∧ p = sync_folder ++ parts rel_path ∧
      li_is_directory info = false ∧
      (server_files !! rel_path = None ∨
       ∃ item, server_files !! rel_path = Some item ∧
               default 0 (modified item) < li_modified info).
Proof.
  intros Hroot Hget server_files local_files t.
  assert (Ht : started_uploads t =
               upload_threads sync_folder server_files local_files).
  { subst t. unfold force_sync. rewrite Hroot. run_cmd. rewrite Hget.
    cbn [fst snd app negb]. rewrite Z.eqb_refl. cbn [negb fst snd app].
    rewrite !started_uploads_cons, !started_uploads_app.
    rewrite sync_directories_starts_nothing, for_each_uploads_started.
    - by rewrite app_nil_r.
    - intros p w'. cbn [snd]. rewrite started_uploads_cons.
      by rewrite upload_file_starts_nothing. }
  split; [done|]. intros p. rewrite Ht. apply upload_threads_spec.
Qed.

(** *** Uploads that the server turns down *)

(** If the file can be read and every answer is a response other than
    200, [_upload_file] sends the file three times and prints nothing. *)
Lemma rejected_upload_is_sent_three_times (p rel : list string) (w : W) :
  relative_to p sync_folder = Some rel →
  (∀ w', ∃ content, (open_rb p w').1 = Opened content) →
  (∀ u content w', ∃ status_code text,
      (requests_post_file u content w').1 = Response status_code text ∧
      status_code ≠ 200) →
  let t := (_upload_file sync_folder p w).2 in
  length (upload_requests t) = 3%nat ∧
  Forall (fun c => succeeded c.2 = false) (upload_requests t) ∧
  Forall (fun e => ∀ line, e ≠ Print line) t.
Proof.
  intros Hrel Hopen Hpost t. subst t. unfold _upload_file. rewrite Hrel.
  assert (Hstep : ∀ n w',
    ∃ content status_code text w'',
      status_code ≠ 200 ∧
      (upload_attempts (S n) p (posix rel) w').2 =
      Open p (Opened content) ::
      PostFile (posix rel) content (Response status_code text) ::
      (upload_attempts n p (posix rel) w'').2).
  { intros n w'. destruct (Hopen w') as [content Hc].
    destruct (Hpost (posix rel) content (open_rb p w').2)
      as (status_code & text & Hr & Hne).
    exists content, status_code, text,
      (requests_post_file (posix rel) content (open_rb p w').2).2.
    split; [done|]. cbn [upload_attempts]. run_cmd. rewrite Hc.
    run_cmd. rewrite Hr. by rewrite (proj2 (Z.eqb_neq _ _) Hne). }
  destruct (Hstep 2%nat w) as (c1 & s1 & x1 & w1 & Hn1 & ->).
  destruct (Hstep 1%nat w1) as (c2 & s2 & x2 & w2 & Hn2 & ->).
  destruct (Hstep 0%nat w2) as (c3 & s3 & x3 & w3 & Hn3 & ->).
  cbn. split; [done|]. split.
  - repeat constructor; cbn; by apply Z.eqb_neq.
  - repeat constructor; done.
Qed.

End traces.

End ClientFacts.

(** ** Client and server together *)

Module DeploymentFacts.
Import Paths Client Deployment.

(** *** Request paths *)

Lemma plain_char_not (c : Ascii.ascii) :
  plain_char c = true →
  Ascii.eqb c "?"%char = false ∧ Ascii.eqb c "#"%char = false ∧
  Ascii.eqb c "%"%char = false.
Proof.
  unfold plain_char.
  destruct (Ascii.eqb c "?"%char), (Ascii.eqb c "#"%char),
    (Ascii.eqb c "%"%char); cbn; try done.
Qed.

Lemma before_query_plain (s : string) :
  plain_chars s = true → before_query s = s.
Proof.
  induction s as [|c s IH]; [done|]. cbn [plain_chars before_query].
  intros [Hc Hs]%andb_prop. apply plain_char_not in Hc as (-> & -> & _).
  cbn [orb]. f_equal. by apply IH.
Qed.

Lemma percent_encoded_plain (s : string) :
  plain_chars s = true → percent_encoded s = true.
Proof.
  induction s as [|c s IH]; [done|]. cbn [plain_chars percent_encoded].
  intros [Hc Hs]%andb_prop. apply plain_char_not in Hc as (_ & _ & ->).
  by apply IH.
Qed.

Lemma unquote_other (c : Ascii.ascii) (s : string) :
  Ascii.eqb c "%"%char = false → unquote (String c s) = String c (unquote s).
Proof.
  intros Hc. destruct s as [|a [|b s]]; cbn [unquote]; rewrite ?Hc; reflexivity.
Qed.

Lemma unquote_plain (s : string) : plain_chars s = true → unquote s = s.
Proof.
  induction s as [|c s IH]; [done|]. cbn [plain_chars].
  intros [Hc Hs]%andb_prop. apply plain_char_not in Hc as (_ & _ & Hc).
  rewrite unquote_other by done. f_equal. by apply IH.
Qed.

(** A path without ['?'], ['#'] and ['%'] arrives as it is written. *)
Lemma request_path_plain (s : string) :
  plain_chars s = true → request_path s = s.
Proof.
  intros Hs. unfold request_path.
  rewrite before_query_plain, percent_encoded_plain by done.
  by apply unquote_plain.
Qed.

Lemma url_safe_plain (s : string) : url_safe s = true → plain_chars s = true.
Proof. unfold url_safe. by intros [[? _]%andb_prop _]%andb_prop. Qed.

Lemma request_path_safe (s : string) : url_safe s = true → request_path s = s.
Proof. intros Hs. by apply request_path_plain, url_safe_plain. Qed.

(** What the URL does to other paths: a fragment and a query are cut off,
    escapes are decoded, a lone ['%'] is not. *)
Lemma request_path_of_special_names :
  request_path "a#b.txt" = "a" ∧ request_path "notes?.txt" = "notes" ∧
  request_path "a%20b.txt" = "a b.txt" ∧ request_path "100%.txt" = "100%.txt" ∧
  request_path "50%2/%41" = "50%2/%41".
Proof. repeat split; reflexivity. Qed.

Lemma plain_chars_app (a b : string) :
  plain_chars (a +:+ b) = plain_chars a && plain_chars b.
Proof.
  induction a as [|c a IH]; [done|].
  rewrite ClientFacts.append_cons. cbn [plain_chars]. by rewrite IH, andb_assoc.
Qed.

Lemma plain_chars_lstrip (s : string) :
  plain_chars s = true → plain_chars (lstrip_slash s) = true.
Proof.
  induction s as [|c s IH]; [done|]. cbn [lstrip_slash].
  destruct (Ascii.eqb c "/"%char); [|done].
  cbn [plain_chars]. intros [_ Hs]%andb_prop. by apply IH.
Qed.

Lemma split_on_plain_chars (s : string) : ∀ cur,
  plain_chars s = true → plain_chars cur = true →
  Forall (fun x => plain_chars x = true) (split_on "/"%char s cur).
Proof.
  induction s as [|c s IH]; intros cur Hs Hcur; cbn [split_on].
  - by repeat constructor.
  - cbn [plain_chars] in Hs. apply andb_prop in Hs as [Hc Hs].
    destruct (Ascii.eqb c "/"%char).
    + constructor; [done|]. by apply IH.
    + apply IH; [done|]. rewrite plain_chars_app, Hcur. cbn [plain_chars].
      by rewrite Hc.
Qed.

Lemma parts_plain_chars (s : string) :
  plain_chars s = true → Forall (fun x => plain_chars x = true) (parts s).
Proof.
  intros Hs. unfold parts. apply Forall_forall. intros x Hx.
  apply list_elem_of_filter in Hx as [_ Hx].
  pose proof (split_on_plain_chars s EmptyString Hs eq_refl) as Hall.
  rewrite Forall_forall in Hall. by apply Hall.
Qed.

(** The paths [_create_folder] asks for arrive as they are written if the
    relative path does. *)
Lemma cumulative_plain_chars (parts : list string) : ∀ cur,
  Forall (fun x => plain_chars x = true) parts → plain_chars cur = true →
  Forall (fun u => request_path u = u) (cumulative parts cur).
Proof.
  induction parts as [|part parts IH]; intros cur Hparts Hcur; [constructor|].
  apply Forall_cons in Hparts as [Hpart Hparts]. cbn [cumulative].
  assert (Hcur' : plain_chars (lstrip_slash (cur +:+ "/" +:+ part)) = true).
  { apply plain_chars_lstrip. by rewrite !plain_chars_app, Hcur, Hpart. }
  constructor; [by apply request_path_plain|by apply IH].
Qed.

Section deployed.
Context {E : Type} `{Surroundings E}.

Lemma keeps_remote_refl (w : world E) : keeps_remote w w.
Proof. apply ServerFacts.keeps_refl. Qed.

Lemma keeps_remote_trans (w1 w2 w3 : world E) :
  keeps_remote w1 w2 → keeps_remote w2 w3 → keeps_remote w1 w3.
Proof. apply ServerFacts.keeps_trans. Qed.

Lemma through_keeps serve (w : world E) :
  (∀ now st, Server.keeps st (serve now st).2) →
  keeps_remote w (through serve w).2.
Proof.
  intros Hserve. unfold through, keeps_remote.
  destruct (next_request (around w)) as [[[] now] e']; cbn;
    auto using ServerFacts.keeps_refl.
Qed.

(** C5. A reconciliation pass removes nothing from the server: every
    item of the store before [force_sync] is in the store after it, a
    directory still a directory and a file still a file, whatever the
    local tree holds and whatever happens to the requests; and the
    pass sends no delete request. *)
Theorem reconciliation_never_deletes
    (sync_folder : list string) (path : option string) (w : world E) :
  let r := force_sync sync_folder path w in
  (∀ loc n, remote w !! loc = Some n →
     ∃ n', remote r.1.2 !! loc = Some n' ∧
           Server.node_is_dir n' = Server.node_is_dir n) ∧
  Forall (fun e => is_delete_request e = false) r.2.
Proof.
  apply (ClientFacts.force_sync_within keeps_remote
           (fun e => is_delete_request e = false) sync_folder).
  - apply keeps_remote_refl.
  - apply keeps_remote_trans.
  - intros u w'. apply through_keeps. intros now st.
    apply ServerFacts.upload_file_keeps.
  - intros u c w'. apply through_keeps. intros now st.
    apply ServerFacts.upload_file_keeps.
  - intros w'. unfold keeps_remote. cbn. unfold get_files.
    destruct (next_request (around w')) as [[[] now] e']; cbn;
      apply ServerFacts.keeps_refl.
  - intros p w'. apply ServerFacts.keeps_refl.
  - auto.
  - done.
Qed.

(** C3, as the code has it. Deleting a path that is not in the store:
    the server answers 404 and leaves the store as it is; the client
    sends the one request, gets the 404, prints nothing, sends nothing
    more and returns. The relative path is one that the URL hands on as
    it is written ([url_safe]): of a path such as [a#b.txt] only [a]
    reaches the server, which then deletes [a] if it holds it. *)
Theorem delete_absent_not_found_tolerated
    (rel : string) (w : world E) (now : Z) (e' : E) :
  url_safe rel = true →
  remote w !! Server.storage_path rel = None →
  next_request (around w) = (Delivered, now, e') →
  Server.delete_file rel (remote w) = (Server.error404, remote w) ∧
  _delete_path rel w =
    (tt, World (remote w) e',
     [DeleteRequest rel (Response 404 "File not found")]).
Proof.
  intros Hsafe Habsent Hnet. split; [by apply ServerFacts.delete_file_absent|].
  unfold _delete_path, mbind, cmd_bind, call. cbn. unfold through.
  rewrite Hnet, (request_path_safe rel Hsafe). cbn.
  by rewrite ServerFacts.delete_file_absent.
Qed.

End deployed.

(** C3, as it is worded, does not hold: the delete of a path the store
    does not hold is answered 404, not with a success. *)
Lemma delete_absent_is_not_success :
  Server.empty_storage 0 !! Server.storage_path "old.txt" = None ∧
  Server.status_code
    (Server.delete_file "old.txt" (Server.empty_storage 0)).1 ≠ 200.
Proof. split; [reflexivity|]. vm_compute. discriminate. Qed.

(** Deleting [old.txt], which the server of [office] does not hold. *)
Lemma delete_absent_not_found_tolerated_witness :
  url_safe "old.txt" = true ∧
  remote office !! Server.storage_path "old.txt" = None ∧
  _delete_path "old.txt" office =
    (tt, office, [DeleteRequest "old.txt" (Response 404 "File not found")]).
Proof.
  split; [reflexivity|]. split; [reflexivity|].
  apply (delete_absent_not_found_tolerated "old.txt" office 1000 desk);
    reflexivity.
Defined.



(** An event for [/tmp/elsewhere.txt] while [/sync] is watched. *)
Lemma event_outside_sync_folder_ignored_witness :
  _handle_event sync added "/tmp/elsewhere.txt" office = (tt, office, []).
Proof.
  apply (ClientFacts.event_outside_sync_folder_ignored sync added
           "/tmp/elsewhere.txt" office).
  intros [k Hk]. vm_compute in Hk. discriminate.
Defined.

(** C7, on the code. The server holds a directory [report]; the local
    [report] is a file. Each upload is answered 500; [_upload_file]
    sends the file three times in a row and prints nothing. *)
Lemma rejected_upload_is_retried :
  (_upload_file sync ["/"; "sync"; "report"] office).2 =
    [Open ["/"; "sync"; "report"] (Opened "figures");
     PostFile "report" "figures" (Response 500 EmptyString);
     Open ["/"; "sync"; "report"] (Opened "figures");
     PostFile "report" "figures" (Response 500 EmptyString);
     Open ["/"; "sync"; "report"] (Opened "figures");
     PostFile "report" "figures" (Response 500 EmptyString)].
Proof. vm_compute. reflexivity. Qed.

(** The upload loop of [client_new.py] does the same. *)
Lemma rejected_upload_is_retried_by_older_handler :
  upload_requests
    (ClientNew.upload_attempts 3 ["/"; "sync"; "report"] "report" office).2 =
    [("report", Response 500 EmptyString);
     ("report", Response 500 EmptyString);
     ("report", Response 500 EmptyString)].
Proof. vm_compute. reflexivity. Qed.

End DeploymentFacts.

(** ** Threads: which dispatches can overlap *)

Module SchedFacts.
Import Aggregator Sched.

Lemma omap_cons {A B} (f : A → option B) (x : A) (l : list A) :
  omap f (x :: l) =
  match f x with Some y => y :: omap f l | None => omap f l end.
Proof. reflexivity. Qed.

Lemma omap_ext_elem {A B} (f g : A → option B) (l : list A) :
  (∀ x, x ∈ l → f x = g x) → omap f l = omap g l.
Proof.
  induction l as [|x l IH]; intros Hfg; [done|].
  rewrite !omap_cons, <- (Hfg x) by (apply elem_of_cons; by left).
  rewrite IH; [done|]. intros y Hy. apply Hfg, elem_of_cons. by right.
Qed.

Lemma omap_unique {A B} (f : A → option B) (l : list A) (x1 x2 : A) (y : B) :
  NoDup (omap f l) → x1 ∈ l → x2 ∈ l → f x1 = Some y → f x2 = Some y →
  x1 = x2.
Proof.
  induction l as [|x l IH]; intros Hnd H1 H2 F1 F2.
  - by apply elem_of_nil in H1.
  - rewrite omap_cons in Hnd.
    apply elem_of_cons in H1 as [->|H1]; apply elem_of_cons in H2 as [->|H2].
    + done.
    + rewrite F1 in Hnd. apply NoDup_cons in Hnd as [Hnotin _].
      exfalso. apply Hnotin, list_elem_of_omap. eauto.
    + rewrite F2 in Hnd. apply NoDup_cons in Hnd as [Hnotin _].
      exfalso. apply Hnotin, list_elem_of_omap. eauto.
    + apply IH; try done. destruct (f x); [|done].
      by apply NoDup_cons in Hnd as [_ ?].
Qed.

Lemma inv_init : inv init.
Proof.
  split; [|split; [|split]]; cbn.
  - intros t [th Hth]. by rewrite lookup_empty in Hth.
  - intros t th Hth. by rewrite lookup_empty in Hth.
  - intros t Ht. by apply elem_of_nil in Ht.
  - constructor.
Qed.

(** Steps that leave the loop where it is, keep the path and the kind of
    every thread, and make no handler thread alive. *)
Lemma inv_threads (s : state) (ev' : events) (ths' : gmap tid thread)
    (n' : tid) :
  inv s → (next_tid s ≤ n')%nat →
  (∀ t, is_Some (ths' !! t) → (t < n')%nat) →
  (∀ t th', ths' !! t = Some th' → alive th' = true → is_handler th' = true →
     ∃ th, threads s !! t = Some th ∧ alive th = true ∧ is_handler th = true) →
  (∀ t th, threads s !! t = Some th →
     ∃ th', ths' !! t = Some th' ∧ thread_path th' = thread_path th ∧
            is_handler th' = is_handler th) →
  inv (State ev' ths' n' (loop s)).
Proof.
  intros (I1 & I2 & I3 & I4) Hn Hdom Halive Hkeep.
  split; [|split; [|split]]; cbn [threads next_tid loop].
  - done.
  - intros t th' Hth' Ha Hh.
    destruct (Halive _ _ Hth' Ha Hh) as (th & Hth & Ha' & Hh'). eauto.
  - intros t Ht. destruct (I3 _ Ht) as (th & Hth & Hh).
    destruct (Hkeep _ _ Hth) as (th' & Hth' & _ & Hh'). exists th'.
    split; [done|]. congruence.
  - rewrite (omap_ext_elem _ (path_of (threads s))); [done|].
    intros t Ht. destruct (I3 _ Ht) as (th & Hth & _).
    destruct (Hkeep _ _ Hth) as (th' & Hth' & Hp & _).
    unfold path_of. rewrite Hth, Hth'. cbn. by rewrite Hp.
Qed.

(** A thread changes its program counter or ends. *)
Lemma inv_progress (s : state) (t : tid) (th th' : thread) :
  inv s → threads s !! t = Some th → alive th = true →
  thread_path th' = thread_path th → is_handler th' = is_handler th →
  inv (State (events_of s) (<[t := th']> (threads s)) (next_tid s) (loop s)).
Proof.
  intros Hinv Hth Ha Hp Hh. apply inv_threads; [done|lia|..].
  - intros t' [x Hx]. destruct Hinv as (I1 & _). apply I1.
    destruct (decide (t = t')) as [<-|Hne]; [eauto|].
    rewrite lookup_insert_ne in Hx by done. eauto.
  - intros t' x Hx Hax Hhx. destruct (decide (t = t')) as [<-|Hne].
    + rewrite lookup_insert_eq in Hx. injection Hx as <-.
      exists th. split; [done|]. split; [done|]. congruence.
    + rewrite lookup_insert_ne in Hx by done. eauto.
  - intros t' x Hx. destruct (decide (t = t')) as [<-|Hne].
    + rewrite lookup_insert_eq. exists th'. split; [done|].
      rewrite Hth in Hx. injection Hx as <-. done.
    + rewrite lookup_insert_ne by done. eauto.
Qed.

(** A handler starts a child thread. *)
Lemma inv_spawn_child (s : state) (c : string) :
  inv s → inv (spawn s (Child c)).
Proof.
  intros Hinv. pose proof Hinv as (I1 & _).
  assert (Hfresh : threads s !! next_tid s = None).
  { destruct (threads s !! next_tid s) eqn:Hn; [|done].
    assert (next_tid s < next_tid s)%nat by (apply I1; eauto). lia. }
  unfold spawn. apply inv_threads; [done|lia|..].
  - intros t [x Hx]. destruct (decide (next_tid s = t)) as [<-|Hne]; [lia|].
    rewrite lookup_insert_ne in Hx by done.
    assert (t < next_tid s)%nat by (apply I1; eauto). lia.
  - intros t x Hx Hax Hhx. destruct (decide (next_tid s = t)) as [<-|Hne].
    + rewrite lookup_insert_eq in Hx. by injection Hx as <-.
    + rewrite lookup_insert_ne in Hx by done. eauto.
  - intros t x Hx. exists x. split; [|done].
    rewrite lookup_insert_ne; [done|]. intros <-. congruence.
Qed.

Lemma loop_threads_quiet (s : state) :
  inv s → loop_threads (loop s) = [] →
  ∀ t th, threads s !! t = Some th → alive th = true → is_handler th = false.
Proof.
  intros (_ & I2 & _) Hl t th Hth Ha.
  destruct (is_handler th) eqn:Hh; [|done].
  specialize (I2 _ _ Hth Ha Hh). rewrite Hl in I2. by apply elem_of_nil in I2.
Qed.

(** The loop moves on without starting a thread. *)
Lemma inv_loop (s : state) (ev' : events) (l' : loop_pc) :
  inv s →
  (∀ t, t ∈ loop_threads (loop s) → is_alive (threads s) t = true →
        t ∈ loop_threads l') →
  loop_threads l' ⊆ loop_threads (loop s) →
  NoDup (omap (path_of (threads s)) (loop_threads l') ++ loop_todo l') →
  inv (State ev' (threads s) (next_tid s) l').
Proof.
  intros (I1 & I2 & I3 & I4) Hstay Hsub Hnd.
  split; [|split; [|split]]; cbn [threads next_tid loop]; try done.
  - intros t th Hth Ha Hh. apply Hstay; [by eapply I2|].
    unfold is_alive. by rewrite Hth.
  - intros t Ht. apply I3, Hsub, Ht.
Qed.

Lemma exec_inv (debounce : Z) (l : label) (s s' : state) :
  inv s → exec debounce l s = Some s' → inv s'.
Proof.
  intros Hinv. pose proof Hinv as (I1 & I2 & I3 & I4).
  destruct l as [changes ts|now| |t children|t|t]; cbn [exec].
  - intros [= <-]. apply inv_threads; eauto; lia.
  - destruct (loop s) eqn:Hl; try done. intros [= <-].
    assert (Hquiet := loop_threads_quiet s Hinv). rewrite Hl in Hquiet.
    specialize (Hquiet eq_refl).
    split; [|split; [|split]]; cbn [threads next_tid loop]; try done.
    + intros t th Hth Ha Hh. rewrite (Hquiet _ _ Hth Ha) in Hh. done.
    + intros t Ht. destruct (drain now debounce (events_of s)).1; cbn in Ht;
        by apply elem_of_nil in Ht.
    + pose proof (AggregatorFacts.drain_ready_NoDup now debounce (events_of s))
        as Hnd.
      destruct (drain now debounce (events_of s)).1; [constructor|]. done.
  - destruct (loop s) as [|todo started|pending|] eqn:Hl; try done.
    + destruct todo as [|pc todo]; intros [= <-].
      * unfold set_loop. apply inv_loop; rewrite ?Hl; cbn; try done.
      * assert (Hfresh : threads s !! next_tid s = None).
        { destruct (threads s !! next_tid s) eqn:Hn; [|done].
          assert (next_tid s < next_tid s)%nat by (apply I1; eauto). lia. }
        assert (Hold : ∀ t, t ∈ started → t ≠ next_tid s).
        { intros t Ht ->. destruct (I3 (next_tid s)) as (th & Hth & _);
            [done|congruence]. }
        unfold set_loop, spawn. cbn [events_of threads next_tid loop] in *.
        split; [|split; [|split]]; cbn [threads next_tid loop loop_threads loop_todo].
        -- intros t [x Hx]. destruct (decide (next_tid s = t)) as [<-|Hne]; [lia|].
           rewrite lookup_insert_ne in Hx by done.
           assert (t < next_tid s)%nat by (apply I1; eauto). lia.
        -- intros t x Hx Hax Hhx. apply elem_of_app.
           destruct (decide (next_tid s = t)) as [<-|Hne].
           ++ right. by apply list_elem_of_singleton.
           ++ left. rewrite lookup_insert_ne in Hx by done. eauto.
        -- intros t [Ht|Ht%list_elem_of_singleton]%elem_of_app.
           ++ destruct (I3 _ Ht) as (th & Hth & Hh). exists th.
              rewrite lookup_insert_ne; [done|]. intros Heq.
              by apply (Hold t).
           ++ subst t. rewrite lookup_insert_eq. eauto.
        -- rewrite omap_app, omap_cons. unfold path_of at 2.
           rewrite lookup_insert_eq. cbn [fmap option_fmap option_map omap app].
           rewrite (omap_ext_elem _ (path_of (threads s))).
           ++ cbn [loop_todo fmap list_fmap] in I4.
              by rewrite <- app_assoc.
           ++ intros t Ht. unfold path_of. rewrite lookup_insert_ne; [done|].
              intros Heq. by apply (Hold t).
    + destruct pending as [|t pending].
      * intros [= <-]. unfold set_loop. apply inv_loop; rewrite ?Hl; cbn; done.
      * destruct (is_alive (threads s) t) eqn:Ht; [done|]. intros [= <-].
        unfold set_loop. apply inv_loop; rewrite ?Hl; cbn [loop_threads loop_todo].
        -- done.
        -- intros t' [->|Ht']%elem_of_cons Ha; [congruence|done].
        -- intros t' Ht'. apply elem_of_cons. by right.
        -- cbn [loop_threads loop_todo] in I4. rewrite app_nil_r in *.
           rewrite omap_cons in I4. destruct (path_of (threads s) t); [|done].
           by apply NoDup_cons in I4 as [_ ?].
    + intros [= <-]. unfold set_loop. apply inv_loop; rewrite ?Hl; cbn; done.
  - destruct (threads s !! t) as [[[chg p [| |]|] []]|] eqn:Hth; try done.
    destruct (action_kind chg); [|done]. intros [= <-].
    unfold set_pc. by eapply inv_progress.
  - destruct (threads s !! t) as [[[chg p [|[|c todo] started|[|c pending]]|] []]|]
      eqn:Hth; try done.
    + intros [= <-]. unfold set_pc. by eapply inv_progress.
    + intros [= <-]. unfold set_pc.
      pose proof (inv_spawn_child s c Hinv) as Hinv'.
      assert (Hne : next_tid s ≠ t).
      { intros <-. assert (next_tid s < next_tid s)%nat by (apply I1; eauto). lia. }
      apply (inv_progress (spawn s (Child c)) t
               (Thread (Handler chg p (HSpawning (c :: todo) started)) true));
        try done.
      cbn. by rewrite lookup_insert_ne.
    + destruct (is_alive (threads s) c); [done|]. intros [= <-].
      unfold set_pc. by eapply inv_progress.
  - destruct (threads s !! t) as [[[chg p [| |[|]]|c] []]|] eqn:Hth; try done;
      intros [= <-]; by eapply inv_progress.
Qed.

Lemma run_inv (debounce : Z) (ls : list label) : ∀ s s',
  inv s → run debounce ls s = Some s' → inv s'.
Proof.
  induction ls as [|l ls IH]; intros s s' Hinv; cbn [run].
  - by intros [= <-].
  - destruct (exec debounce l s) as [s1|] eqn:Hexec; [|done].
    apply IH. by eapply exec_inv.
Qed.

(** C2, as the code has it. Whatever the schedule of event batches,
    ticks and thread steps, no two handler threads started by the
    processing loop are at work on the same path at the same time. *)
Theorem handlers_of_one_path_never_overlap
    (debounce : Z) (ls : list label) (s : state) :
  run debounce ls init = Some s → ¬ concurrent_handlers_same_path s.
Proof.
  intros Hrun (t1 & t2 & th1 & th2 & Hne & H1 & H2 & A1 & A2 & Hh1 & Hh2 & Hp).
  destruct (run_inv debounce ls init s inv_init Hrun) as (_ & I2 & _ & I4).
  apply Hne.
  apply (omap_unique (path_of (threads s)) (loop_threads (loop s)) t1 t2
           (thread_path th1)).
  - by apply NoDup_app in I4 as [? _].
  - by eapply I2.
  - by eapply I2.
  - unfold path_of. by rewrite H1.
  - unfold path_of. rewrite H2. cbn. by rewrite Hp.
Qed.

(** The state the crowded schedule leads to. *)
Lemma handlers_of_one_path_never_overlap_witness :
  ∃ s, run 100 crowded_schedule init = Some s ∧
       ¬ concurrent_handlers_same_path s.
Proof.
  eexists. split; [vm_compute; reflexivity|].
  apply (handlers_of_one_path_never_overlap 100 crowded_schedule).
  vm_compute. reflexivity.
Defined.

(** C2, as it is worded, does not hold: when a directory and a file in
    it are drained in the same tick, the handler thread of the file and
    the child thread the directory's handler starts for the same file
    are alive together. *)
Lemma child_overlaps_handler_of_same_path :
  ∃ s, run 100 crowded_schedule init = Some s ∧
       threads s !! 0%nat =
         Some (Thread (Handler added "/sync/d/f.txt" HStart) true) ∧
       threads s !! 2%nat = Some (Thread (Child "/sync/d/f.txt") true) ∧
       concurrent_same_path s.
Proof.
  eexists. split; [vm_compute; reflexivity|].
  split; [vm_compute; reflexivity|]. split; [vm_compute; reflexivity|].
  exists 0%nat, 2%nat. do 2 eexists.
  split; [done|]. split; [vm_compute; reflexivity|].
  split; [vm_compute; reflexivity|]. done.
Qed.

End SchedFacts.

(** ** Server: what requests do to the store, and what the list and
    the downloads show of it *)

Module ServiceFacts.
Import Paths Server Service ServerFacts ClientFacts.

Lemma left_alone_refl (n : node) : left_alone n n.
Proof. by destruct n. Qed.

Lemma left_as_it_was_refl (o : option node) : left_as_it_was o o.
Proof. destruct o as [n|]; [apply left_alone_refl|done]. Qed.

Lemma split_on_app (a : string) : ∀ (rest cur : string),
  Client.no_slash a = true →
  split_on "/"%char (a +:+ rest) cur = split_on "/"%char rest (cur +:+ a).
Proof.
  induction a as [|c a IH]; intros rest cur Ha.
  - by rewrite append_nil_l, append_nil_r.
  - rewrite append_cons. cbn [split_on Client.no_slash] in *.
    apply andb_true_iff in Ha as [Hc Ha]. apply negb_true_iff in Hc.
    rewrite Hc, IH by done. f_equal. rewrite append_assoc. done.
Qed.

Lemma split_on_concat (segs : list string) :
  segs ≠ [] → Forall (fun x => Client.no_slash x = true) segs →
  split_on "/"%char (String.concat "/" segs) EmptyString = segs.
Proof.
  induction segs as [|a segs IH]; [done|]. intros _ Hall.
  apply Forall_cons in Hall as [Ha Hall]. destruct segs as [|b segs].
  - cbn [String.concat]. rewrite <- (append_nil_r a) at 1.
    rewrite split_on_app by done. done.
  - rewrite concat_cons2, split_on_app by done.
    rewrite append_cons, append_nil_l. cbn [split_on]. rewrite Ascii.eqb_refl.
    rewrite append_nil_l. f_equal. by apply IH.
Qed.

Lemma filter_all {A} (P : A → Prop) `{∀ x, Decision (P x)} (l : list A) :
  Forall P l → filter P l = l.
Proof.
  induction 1 as [|x l Hx _ IH]; [done|]. by rewrite filter_cons_True, IH.
Qed.

Lemma parts_posix (segs : list string) :
  Forall segment segs → parts (posix segs) = segs.
Proof.
  intros Hall. destruct segs as [|a segs]; [reflexivity|].
  unfold parts, posix. rewrite split_on_concat; [|done|].
  - apply filter_all. eapply Forall_impl; [exact Hall|].
    intros x (? & ? & ?). done.
  - eapply Forall_impl; [exact Hall|]. by intros x (? & ? & ?).
Qed.

Lemma parts_segments (s : string) : Forall segment (parts s).
Proof.
  pose proof (parts_plain s) as Hp. apply Forall_forall. intros x Hx.
  rewrite Forall_forall in Hp. destruct (Hp x Hx) as [Hne Hns].
  unfold parts in Hx. apply list_elem_of_filter in Hx as [[_ Hdot] _].
  by repeat split.
Qed.


Lemma os_mkdir_fresh (now : Z) (loc : list string) (st : store) :
  st !! loc = None → loc ≠ [] →
  os_mkdir now loc st =
  match st !! removelast loc with
  | None => inl FileNotFoundError
  | Some (RegularFile _ _) => inl NotADirectoryError
  | Some (Directory _) => inr (<[loc := Directory now]> st)
  end.
Proof. intros Hnone Hne. unfold os_mkdir. rewrite Hnone. by destruct loc. Qed.

Lemma is_file_lookup (st : store) (loc : list string) :
  is_file st loc = true ↔ ∃ c m, st !! loc = Some (RegularFile c m).
Proof.
  unfold is_file. destruct (st !! loc) as [[m|c m]|]; split;
    try done; eauto; by intros (? & ? & [=]).
Qed.

Lemma not_file_not_dir (st : store) (loc : list string) :
  is_file st loc = false → is_dir st loc = false → st !! loc = None.
Proof. unfold is_file, is_dir. by destruct (st !! loc) as [[m|c m]|]. Qed.

(** [mkdir(parents=True, exist_ok=True)] succeeds when no file is in
    the way. *)
Lemma makedirs_rev_ok (now : Z) (rloc : list string) : ∀ st : store,
  (∀ a, a `prefix_of` rev rloc → is_file st a = false) →
  ∃ st', makedirs_rev now rloc st = inr st'.
Proof.
  induction rloc as [|x rparent IH]; intros st Hfree; cbn [makedirs_rev].
  - destruct (os_mkdir now (rev []) st) as [e|st1] eqn:Hos; [|eauto].
    unfold os_mkdir in Hos. cbn [rev] in *.
    destruct (st !! []) as [n|] eqn:Hroot; [|done]. injection Hos as <-.
    specialize (Hfree [] (prefix_nil _)). unfold is_file, is_dir in *.
    rewrite Hroot in *. destruct n; [eauto|done].
  - set (loc := rev (x :: rparent)) in *.
    assert (Hloc : loc ≠ []) by (unfold loc; cbn [rev]; by destruct (rev rparent)).
    assert (Hpar : removelast loc = rev rparent) by apply removelast_rev_cons.
    destruct (st !! loc) as [n|] eqn:Hl.
    + rewrite os_mkdir_exists by eauto.
      specialize (Hfree loc (reflexivity _)). unfold is_file, is_dir in *.
      rewrite Hl in *. destruct n; [eauto|done].
    + rewrite os_mkdir_fresh, Hpar by done.
      destruct (st !! rev rparent) as [[m|c m]|] eqn:Hp; [eauto| |].
      * assert (Hpre : rev rparent `prefix_of` loc).
        { rewrite <- Hpar. apply removelast_prefix. }
        specialize (Hfree _ Hpre). unfold is_file in Hfree. by rewrite Hp in Hfree.
      * destruct (IH st) as [st1 Hst1].
        { intros a Ha. apply Hfree. etrans; [exact Ha|].
          rewrite <- Hpar. apply removelast_prefix. }
        rewrite Hst1. unfold mkdir.
        assert (Hl1 : st1 !! loc = None).
        { rewrite <- Hl. eapply makedirs_rev_lookup_longer; [done|].
          unfold loc. rewrite length_rev. cbn. lia. }
        apply makedirs_rev_extends in Hst1 as [_ Hd].
        apply is_dir_lookup in Hd as [m Hm].
        rewrite os_mkdir_fresh, Hpar, Hm by done. eauto.
Qed.

(** In a tree no ancestor of an entry is a file. *)
Lemma well_formed_no_file_above (st : store) (a k : list string) (n : node) :
  well_formed st → st !! (a ++ k) = Some n → k ≠ [] → is_dir st a = true.
Proof.
  intros Hwf Hn Hk. destruct k as [|x k _] using rev_ind; [done|].
  eapply (well_formed_ancestors st a k); [done|].
  rewrite app_assoc in Hn. rewrite <- (removelast_last (a ++ k) x).
  eapply Hwf; [|done]. by destruct (a ++ k).
Qed.



(** What [mkdir(parents=True, exist_ok=True)] adds: directories on the
    way to the path, made now. *)
Lemma makedirs_rev_new (now : Z) (rloc : list string) : ∀ (st st' : store),
  makedirs_rev now rloc st = inr st' →
  ∀ q n, st' !! q = Some n →
    st !! q = Some n ∨ (st !! q = None ∧ q `prefix_of` rev rloc ∧ n = Directory now).
Proof.
  assert (Hins : ∀ (st : store) loc q n,
    st !! loc = None → (<[loc := Directory now]> st) !! q = Some n →
    st !! q = Some n ∨ (st !! q = None ∧ q = loc ∧ n = Directory now)).
  { intros st loc q n Hnone Hq. destruct (decide (q = loc)) as [->|Hne].
    - rewrite lookup_insert_eq in Hq. injection Hq as <-. auto.
    - rewrite lookup_insert_ne in Hq by done. auto. }
  induction rloc as [|x rparent IH]; intros st st'; cbn [makedirs_rev];
    destruct (os_mkdir now (rev _) st) as [e|st1] eqn:Hos.
  - destruct e; try done; destruct (is_dir st (rev [])); try done;
      intros [= <-]; auto.
  - intros [= <-] q n Hq. apply os_mkdir_inr in Hos as (Hnone & -> & _).
    apply Hins in Hq; [|done]. destruct Hq as [?|(? & -> & ?)]; auto.
  - destruct e.
    2:{ destruct (makedirs_rev now rparent st) as [e|st1] eqn:Hrec; [done|].
        intros Hmk q n Hq.
        assert (Hpre : rev rparent `prefix_of` rev (x :: rparent)).
        { cbn [rev]. by apply prefix_app_r. }
        apply mkdir_inr in Hmk as [[-> _]|(Hnone & -> & _)].
        - destruct (IH _ _ Hrec _ _ Hq) as [?|(? & ? & ?)]; [auto|].
          right. split; [done|]. split; [|done]. by etrans.
        - apply Hins in Hq; [|done]. destruct Hq as [Hq|(Hq & -> & ->)].
          + destruct (IH _ _ Hrec _ _ Hq) as [?|(? & ? & ?)]; [auto|].
            right. split; [done|]. split; [|done]. by etrans.
          + right. split; [|done].
            rewrite <- Hnone. symmetry.
            eapply makedirs_rev_lookup_longer; [done|].
            rewrite length_rev. cbn. lia. }
    all: destruct (is_dir st (rev (x :: rparent))); try done;
      intros [= <-]; auto.
  - intros [= <-] q n Hq. apply os_mkdir_inr in Hos as (Hnone & -> & _).
    apply Hins in Hq; [|done]. destruct Hq as [?|(? & -> & ?)]; auto.
Qed.



(** The parent directories of [loc] can be made exactly when no file
    lies on the way to [loc]. *)
Lemma mkdir_parent_ok (now : Z) (loc : list string) (st : store) :
  (∀ a, a `prefix_of` loc → a ≠ loc → is_file st a = false) →
  ∃ st', mkdir_parent now loc st = inr st'.
Proof.
  intros Hfree. unfold mkdir_parent.
  destruct (rev loc) as [|x rparent] eqn:Hrev; [eauto|].
  apply rev_cons_inv in Hrev as [Hloc _]. apply makedirs_rev_ok.
  intros a Ha. apply Hfree.
  - rewrite Hloc. by apply prefix_app_r.
  - intros ->. rewrite Hloc in Ha. apply prefix_length in Ha.
    rewrite length_app in Ha. cbn in Ha. lia.
Qed.


Lemma mkdir_parent_new (now : Z) (loc : list string) (st st' : store) :
  mkdir_parent now loc st = inr st' →
  ∀ q n, st' !! q = Some n →
    st !! q = Some n ∨
    (st !! q = None ∧ q `prefix_of` loc ∧ q ≠ loc ∧ n = Directory now).
Proof.
  unfold mkdir_parent. destruct (rev loc) as [|x rparent] eqn:Hrev.
  - intros [= <-]. auto.
  - apply rev_cons_inv in Hrev as [Hloc _]. intros Hmk q n Hq.
    destruct (makedirs_rev_new _ _ _ _ Hmk _ _ Hq) as [?|(? & Hpre & ?)]; [auto|].
    right. split; [done|]. split; [|split; [|done]].
    + rewrite Hloc. by apply prefix_app_r.
    + intros ->. rewrite Hloc in Hpre. apply prefix_length in Hpre.
      rewrite length_app in Hpre. cbn in Hpre. lia.
Qed.

(** Whatever an upload request adds or changes lies on the way to its
    target. *)
Lemma upload_file_new (now : Z) (file_path : string) (file : option string)
    (is_directory : bool) (st : store) (q : list string) (n : node) :
  (upload_file now file_path file is_directory st).2 !! q = Some n →
  st !! q = Some n ∨ q `prefix_of` storage_path file_path.
Proof.
  unfold upload_file. set (target := storage_path file_path).
  destruct (mkdir_parent now target st) as [e|st1] eqn:Hmk; [auto|].
  assert (Hst1 : ∀ q n, st1 !! q = Some n → st !! q = Some n ∨ q `prefix_of` target).
  { intros q' n' Hq'.
    destruct (mkdir_parent_new _ _ _ _ Hmk _ _ Hq') as [?|(? & ? & ?)]; auto. }
  destruct is_directory.
  - destruct (mkdir now true target st1) as [e|st2] eqn:Hd; cbn [snd]; [auto|].
    apply mkdir_inr in Hd as [[-> _]|(_ & -> & _)]; [auto|].
    destruct (decide (q = target)) as [->|Hne]; [auto|].
    rewrite lookup_insert_ne by done. auto.
  - destruct file as [content|]; cbn [snd]; [|auto].
    destruct (st1 !! target) as [[m|c m]|]; cbn [snd]; [auto| |];
      (destruct (decide (q = target)) as [->|Hne]; [auto|]);
      rewrite lookup_insert_ne by done; auto.
Qed.

Lemma addressable_upload (now : Z) (file_path : string) (file : option string)
    (is_directory : bool) (st : store) :
  addressable st → addressable (upload_file now file_path file is_directory st).2.
Proof.
  intros Had q n Hq. apply upload_file_new in Hq as [Hq|[k Hk]]; [by eapply Had|].
  pose proof (parts_segments file_path) as Hseg. unfold storage_path in Hk.
  rewrite Hk in Hseg. by apply Forall_app in Hseg as [? _].
Qed.

Lemma addressable_delete (file_path : string) (st : store) :
  addressable st → addressable (delete_file file_path st).2.
Proof.
  intros Had q n. unfold delete_file.
  destruct (negb _); [apply Had|]. destruct (is_file _ _); cbn [snd].
  - intros [_ Hq]%lookup_delete_Some. by eapply Had.
  - unfold rmtree. intros [Hq _]%map_lookup_filter_Some. by eapply Had.
Qed.

Lemma serve_all_snoc (rs : list request) (r : request) (st : store) :
  serve_all (rs ++ [r]) st = (serve r (serve_all rs st)).2.
Proof. unfold serve_all. by rewrite foldl_app. Qed.

Lemma serve_all_invariant (rs : list request) (st : store) :
  well_formed st → addressable st →
  well_formed (serve_all rs st) ∧ addressable (serve_all rs st).
Proof.
  intros Hwf Had. induction rs as [|r rs IH] using rev_ind; [done|].
  rewrite serve_all_snoc. destruct IH as [IHw IHa]. destruct r; cbn [serve].
  - split; [by apply upload_file_well_formed | by apply addressable_upload].
  - split; [by apply delete_file_well_formed | by apply addressable_delete].
Qed.

Lemma addressable_empty_storage (mtime : Z) : addressable (empty_storage mtime).
Proof.
  intros q n Hq. unfold empty_storage in Hq.
  apply lookup_singleton_Some in Hq as [<- _]. constructor.
Qed.

(** X1. Whatever upload and delete requests a fresh storage directory has
    served, in whatever order and with whatever outcome, what it holds is
    a tree: every entry other than the storage directory itself lies in a
    directory of the store. *)
Theorem storage_stays_a_tree (rs : list request) (mtime : Z) :
  well_formed (serve_all rs (empty_storage mtime)).
Proof.
  apply serve_all_invariant;
    [apply well_formed_empty_storage | apply addressable_empty_storage].
Qed.

Lemma list_files_elem (st : store) (i : item) :
  i ∈ list_files st ↔ ∃ loc n, loc ≠ [] ∧ st !! loc = Some n ∧ i = item_of (loc, n).
Proof.
  unfold list_files. rewrite list_elem_of_fmap. split.
  - intros ([loc n] & -> & Hin). apply list_elem_of_filter in Hin as [Hne Hin].
    apply elem_of_map_to_list in Hin. eauto.
  - intros (loc & n & Hne & Hn & ->). exists (loc, n). split; [done|].
    apply list_elem_of_filter. split; [done|]. by apply elem_of_map_to_list.
Qed.

Lemma item_of_path (loc : list string) (n : node) :
  path (item_of (loc, n)) = posix loc.
Proof. by destruct n. Qed.

(** X2. The list of a storage that has served any requests names
    every entry by a path that leads back to it: the path of a listed item
    addresses an entry of the store, no item stands for the storage
    directory itself, and the item shows that entry's kind, size and time.
    Every entry below the storage directory is listed. *)
Theorem listed_paths_address_their_entries (rs : list request) (mtime : Z) :
  let st := serve_all rs (empty_storage mtime) in
  (∀ i, i ∈ list_files st →
     storage_path (path i) ≠ [] ∧
     ∃ n, st !! storage_path (path i) = Some n ∧
          i = item_of (storage_path (path i), n)) ∧
  (∀ loc n, loc ≠ [] → st !! loc = Some n → item_of (loc, n) ∈ list_files st).
Proof.
  intros st.
  destruct (serve_all_invariant rs (empty_storage mtime)) as [_ Had];
    [apply well_formed_empty_storage | apply addressable_empty_storage |].
  fold st in Had. split.
  - intros i (loc & n & Hne & Hn & ->)%list_files_elem.
    rewrite item_of_path. unfold storage_path.
    rewrite parts_posix by (by eapply Had). eauto.
  - intros loc n Hne Hn. apply list_files_elem. eauto.
Qed.




Lemma upload_file_stored (now : Z) (file_path content : string) (st : store) :
  let target := storage_path file_path in
  let r := upload_file now file_path (Some content) false st in
  status_code r.1 = 200 →
  ∃ st1, mkdir_parent now target st = inr st1 ∧
         r.2 = <[target := RegularFile content now]> st1.
Proof.
  intros target r. subst r. unfold upload_file. fold target.
  destruct (mkdir_parent now target st) as [e|st1] eqn:Hmk; [done|].
  destruct (st1 !! target) as [[m|c m]|]; cbn [fst snd status_code error500 ok200];
    [done| |]; eauto.
Qed.


(** In a tree, a delete request leaves nothing at or below its target
    and leaves everything else as it is. *)
Lemma delete_file_frame (file_path : string) (st : store) (q : list string) :
  well_formed st →
  (delete_file file_path st).2 !! q =
  if decide (storage_path file_path `prefix_of` q) then None else st !! q.
Proof.
  intros Hwf. unfold delete_file, path_exists, is_file.
  set (target := storage_path file_path).
  assert (Hbelow : ∀ k n, st !! (target ++ k) = Some n → k ≠ [] →
                          is_dir st target = true).
  { intros k n Hq Hk. by eapply well_formed_no_file_above. }
  destruct (st !! target) as [[m|c m]|] eqn:Hn; cbn [negb snd].
  - unfold rmtree. case_decide as Hp.
    + apply map_lookup_filter_None. right. intros n' _ Hk. by apply Hk.
    + destruct (st !! q) as [n'|] eqn:Hq.
      * by apply map_lookup_filter_Some.
      * apply map_lookup_filter_None. by left.
  - case_decide as Hp.
    + destruct Hp as [k ->]. destruct (decide (k = [])) as [->|Hk].
      * rewrite app_nil_r. apply lookup_delete_eq.
      * rewrite lookup_delete_ne.
        2:{ intros Heq. apply Hk. apply (f_equal length) in Heq.
            rewrite length_app in Heq. destruct k; [done|cbn in Heq; lia]. }
        destruct (st !! (target ++ k)) as [n'|] eqn:Hq; [|done].
        specialize (Hbelow _ _ Hq Hk). unfold is_dir in Hbelow.
        by rewrite Hn in Hbelow.
    + rewrite lookup_delete_ne; [done|]. intros <-. by apply Hp.
  - case_decide as Hp; [|done]. destruct Hp as [k ->].
    destruct (decide (k = [])) as [->|Hk]; [by rewrite app_nil_r|].
    destruct (st !! (target ++ k)) as [n'|] eqn:Hq; [|done].
    specialize (Hbelow _ _ Hq Hk). unfold is_dir in Hbelow.
    by rewrite Hn in Hbelow.
Qed.

(** X6. In a tree, deleting a path that exists is answered 200 and removes
    the path and everything below it, and nothing else: outside that
    subtree every regular file is there with its content and time, every
    directory is still a directory, and nothing is new. *)
Theorem delete_removes_exactly_the_subtree (file_path : string) (st : store) :
  well_formed st →
  let target := storage_path file_path in
  is_Some (st !! target) →
  (delete_file file_path st).1 = ok200 ∧
  ∀ q, if decide (target `prefix_of` q)
       then (delete_file file_path st).2 !! q = None
       else left_as_it_was (st !! q) ((delete_file file_path st).2 !! q).
Proof.
  intros Hwf target [n Hn]. split.
  - unfold delete_file, path_exists. fold target. rewrite Hn. cbn [negb].
    by destruct (is_file st target).
  - intros q. rewrite (delete_file_frame file_path st q Hwf). fold target.
    case_decide; [done|apply left_as_it_was_refl].
Qed.

(** X7. What was uploaded can be downloaded: after an accepted upload of
    a file, a download of the same path returns the uploaded content,
    and a later delete of the path makes the download answer 404. *)
Theorem download_returns_uploaded_content (now : Z) (file_path content : string)
    (st : store) :
  let r := upload_file now file_path (Some content) false st in
  status_code r.1 = 200 →
  download_file file_path r.2 = FileResponse content ∧
  download_file file_path (delete_file file_path r.2).2 = NotFound404.
Proof.
  intros r Hok. split.
  - destruct (upload_file_stored now file_path content st Hok) as (st1 & _ & Hr).
    fold r in Hr. unfold download_file, path_exists.
    by rewrite Hr, lookup_insert_eq.
  - unfold download_file, path_exists. by rewrite delete_file_gone.
Qed.

(** X8. Every file in the list of a storage that has served any requests
    can be downloaded under its listed path, and the download has the
    listed size. *)
Theorem listed_files_can_be_downloaded (rs : list request) (mtime : Z) (i : item) :
  let st := serve_all rs (empty_storage mtime) in
  i ∈ list_files st → is_directory i = false →
  ∃ content, download_file (path i) st = FileResponse content ∧
             size i = Z.of_nat (String.length content).
Proof.
  intros st Hi Hfile.
  destruct (serve_all_invariant rs (empty_storage mtime)) as [_ Had];
    [apply well_formed_empty_storage | apply addressable_empty_storage |].
  fold st in Had. apply list_files_elem in Hi as (loc & n & Hne & Hn & ->).
  assert (Hloc : storage_path (path (item_of (loc, n))) = loc).
  { rewrite item_of_path. unfold storage_path. apply parts_posix.
    by eapply Had. }
  unfold download_file, path_exists. rewrite Hloc, Hn. cbn [negb].
  destruct n as [m|c m]; [done|]. cbn. eauto.
Qed.


(** X24. Sending an accepted upload of a file again is harmless: in a
    tree the repeated request is accepted too, and the store it leaves
    differs from the one before only in the time stamp of the target. *)
Theorem repeated_upload_changes_only_the_time (now now' : Z)
    (file_path content : string) (st : store) :
  well_formed st →
  let target := storage_path file_path in
  let r := upload_file now file_path (Some content) false st in
  status_code r.1 = 200 →
  upload_file now' file_path (Some content) false r.2 =
  (ok200, <[target := RegularFile content now']> r.2).
Proof.
  intros Hwf target r Hok.
  pose proof (upload_file_well_formed now file_path (Some content) false st Hwf)
    as Hwf'. fold r in Hwf'.
  destruct (upload_file_stored now file_path content st Hok) as (st1 & _ & Hr).
  fold r target in Hr.
  assert (Ht : r.2 !! target = Some (RegularFile content now)).
  { rewrite Hr. apply lookup_insert_eq. }
  unfold upload_file at 1. fold target.
  rewrite mkdir_parent_present by eauto. by rewrite Ht.
Qed.

Lemma shelf_well_formed : well_formed Deployment.shelf.
Proof. apply well_formedb_correct. vm_compute. reflexivity. Qed.




Lemma delete_removes_exactly_the_subtree_witness :
  well_formed Deployment.shelf ∧
  is_Some (Deployment.shelf !! storage_path "docs") ∧
  (delete_file "docs" Deployment.shelf).1 = ok200 ∧
  ∀ q, if decide (storage_path "docs" `prefix_of` q)
       then (delete_file "docs" Deployment.shelf).2 !! q = None
       else left_as_it_was (Deployment.shelf !! q)
              ((delete_file "docs" Deployment.shelf).2 !! q).
Proof.
  split; [apply shelf_well_formed|]. split; [by eexists|].
  apply (delete_removes_exactly_the_subtree "docs" Deployment.shelf).
  - apply well_formedb_correct. vm_compute. reflexivity.
  - by eexists.
Defined.

Lemma download_returns_uploaded_content_witness :
  let r := upload_file 7 "inbox/a.txt" (Some "abc") false Deployment.shelf in
  status_code r.1 = 200 ∧
  download_file "inbox/a.txt" r.2 = FileResponse "abc" ∧
  download_file "inbox/a.txt" (delete_file "inbox/a.txt" r.2).2 = NotFound404.
Proof.
  split; [reflexivity|].
  apply (download_returns_uploaded_content 7 "inbox/a.txt" "abc" Deployment.shelf).
  reflexivity.
Defined.

Lemma repeated_upload_changes_only_the_time_witness :
  let r := upload_file 7 "inbox/a.txt" (Some "abc") false Deployment.shelf in
  upload_file 8 "inbox/a.txt" (Some "abc") false r.2 =
  (ok200, <[storage_path "inbox/a.txt" := RegularFile "abc" 8]> r.2).
Proof.
  apply (repeated_upload_changes_only_the_time 7 8 "inbox/a.txt" "abc"
           Deployment.shelf).
  - apply well_formedb_correct. vm_compute. reflexivity.
  - reflexivity.
Defined.

Lemma listed_files_can_be_downloaded_witness :
  let rs := [Upload 3 "docs/readme.md" (Some "hello") false] in
  let i := {| path := "docs/readme.md"; is_directory := false;
              size := 5; modified := 3 |} in
  i ∈ list_files (serve_all rs (empty_storage 0)) ∧
  ∃ content,
    download_file (path i) (serve_all rs (empty_storage 0)) = FileResponse content ∧
    size i = Z.of_nat (String.length content).
Proof.
  intros rs i.
  assert (Hi : i ∈ list_files (serve_all rs (empty_storage 0))).
  { vm_compute. apply list_elem_of_In. vm_compute. auto. }
  split; [exact Hi|].
  apply (listed_files_can_be_downloaded rs 0 i); [exact Hi | reflexivity].
Defined.

End ServiceFacts.

(** ** Client: the upload loop, the phases of [force_sync], the fan-out
    of [_handle_event] *)

Module OutcomeFacts.
Import Paths Client Outcomes ClientFacts.

Section uploads.
Context {W : Type} `{World W}.
Variable sync_folder : list string.

(** One iteration of the loop of [_upload_file]. *)
Lemma upload_attempts_S (n : nat) (p : list string) (rel : string) (w : W) :
  upload_attempts (S n) p rel w =
  let o := open_rb p w in
  match o.1 with
  | Opened content =>
      let r := requests_post_file rel content o.2 in
      match r.1 with
      | Response status_code _ =>
          if status_code =? 200
          then (tt, r.2, [Open p o.1; PostFile rel content r.1;
                          Print (Synchronized rel)])
          else let rest := upload_attempts n p rel r.2 in
               (rest.1.1, rest.1.2,
                Open p o.1 :: PostFile rel content r.1 :: rest.2)
      | RequestException =>
          (tt, r.2, [Open p o.1; PostFile rel content r.1;
                     Print (Upload_error rel)])
      end
  | PermissionError | FileNotFoundError =>
      let rest := upload_attempts n p rel o.2 in
      (rest.1.1, rest.1.2, Open p o.1 :: Sleep 500 :: rest.2)
  | OtherError => (tt, o.2, [Open p o.1; Print (Upload_error rel)])
  end.
Proof.
  cbn [upload_attempts]. run_cmd.
  destruct (open_rb p w) as [[content| | |] w1]; cbn [fst snd]; run_cmd;
    try reflexivity.
  destruct (requests_post_file rel content w1) as [[c text|] w2];
    cbn [fst snd]; [destruct (c =? 200)|]; run_cmd; reflexivity.
Qed.


Lemma open_attempts_cons e t :
  open_attempts (e :: t) =
  match e with Open _ r => r :: open_attempts t | _ => open_attempts t end.
Proof. by destruct e. Qed.

Lemma upload_requests_cons e t :
  upload_requests (e :: t) =
  match e with
  | PostFile u _ r => (u, r) :: upload_requests t
  | _ => upload_requests t
  end.
Proof. by destruct e. Qed.

Lemma upload_attempts_bounded (n : nat) (p : list string) (rel : string) :
  ∀ w : W,
    let t := (upload_attempts n p rel w).2 in
    (length (upload_requests t) ≤ length (open_attempts t))%nat ∧
    (length (open_attempts t) ≤ n)%nat.
Proof.
  induction n as [|n IH]; intros w; [cbn; lia|].
  cbn zeta. rewrite upload_attempts_S. cbn zeta.
  destruct (open_rb p w) as [[content| | |] w1]; cbn [fst snd].
  - destruct (requests_post_file rel content w1) as [[c text|] w2];
      cbn [fst snd]; [destruct (c =? 200)|]; cbn [snd]; try (cbn; lia).
    rewrite open_attempts_cons, !upload_requests_cons, open_attempts_cons.
    specialize (IH w2). cbn zeta in IH. cbn [length]. lia.
  - rewrite !open_attempts_cons, !upload_requests_cons.
    specialize (IH w1). cbn zeta in IH. cbn [length]. lia.
  - rewrite !open_attempts_cons, !upload_requests_cons.
    specialize (IH w1). cbn zeta in IH. cbn [length]. lia.
  - cbn. lia.
Qed.

(** What follows an upload request in the loop of [_upload_file]. *)
Lemma upload_attempts_after_request (n : nat) (p : list string) (rel : string) :
  ∀ (w : W) t1 u c r t2,
    (upload_attempts n p rel w).2 = t1 ++ PostFile u c r :: t2 →
    u = rel ∧
    (succeeded r = true → t2 = [Print (Synchronized rel)]) ∧
    (r = RequestException → t2 = [Print (Upload_error rel)]).
Proof.
  induction n as [|n IH]; intros w t1 u c r t2.
  { cbn. by destruct t1. }
  rewrite upload_attempts_S. cbn zeta.
  destruct (open_rb p w) as [[content| | |] w1]; cbn [fst snd].
  - destruct (requests_post_file rel content w1) as [[sc text|] w2] eqn:Hpost;
      cbn [fst snd]; [destruct (sc =? 200) eqn:Hsc|]; cbn [snd]; intros Ht.
    + destruct t1 as [|e1 [|e2 [|e3 t1]]]; cbn [app] in Ht; try done.
      * injection Ht as <- <- <- <-. by repeat split.
      * injection Ht as _ _ Ht. by destruct t1.
    + destruct t1 as [|e1 [|e2 t1]]; cbn [app] in Ht; try done.
      * injection Ht as <- <- <- <-. cbn [succeeded]. rewrite Hsc.
        by repeat split.
      * injection Ht as _ _ Ht. by eapply IH.
    + destruct t1 as [|e1 [|e2 [|e3 t1]]]; cbn [app] in Ht; try done.
      * injection Ht as <- <- <- <-. by repeat split.
      * injection Ht as _ _ Ht. by destruct t1.
  - intros Ht. destruct t1 as [|e1 [|e2 t1]]; cbn [app] in Ht; try done.
    injection Ht as _ _ Ht. by eapply IH.
  - intros Ht. destruct t1 as [|e1 [|e2 t1]]; cbn [app] in Ht; try done.
    injection Ht as _ _ Ht. by eapply IH.
  - intros Ht. destruct t1 as [|e1 [|e2 t1]]; cbn [app] in Ht; try done.
    injection Ht as _ Ht. by destruct t1.
Qed.

Lemma upload_attempts_only_uploads (n : nat) (p : list string) (rel : string) :
  ∀ w : W,
    Forall (fun e => is_request e = true → ∃ c r, e = PostFile rel c r)
           (upload_attempts n p rel w).2.
Proof.
  induction n as [|n IH]; intros w; [constructor|].
  rewrite upload_attempts_S. cbn zeta.
  destruct (open_rb p w) as [[content| | |] w1]; cbn [fst snd].
  - destruct (requests_post_file rel content w1) as [[sc text|] w2];
      cbn [fst snd]; [destruct (sc =? 200)|]; cbn [snd];
      repeat (constructor; [by eauto|]); try constructor. apply IH.
  - repeat (constructor; [by eauto|]). apply IH.
  - repeat (constructor; [by eauto|]). apply IH.
  - repeat (constructor; [by eauto|]). constructor.
Qed.

(** X9. [_upload_file] opens the file at most three times and sends at
    most one upload request per opening, each for the relative path of the
    file and nothing else; the request that is answered 200 is the last
    thing it does but for the line "Synchronized", and so is a request
    that ends in an exception, but for the line "Upload error". *)
Theorem upload_file_tries_at_most_three_times (p rel : list string) (w : W) :
  relative_to p sync_folder = Some rel →
  let t := (_upload_file sync_folder p w).2 in
  (length (upload_requests t) ≤ length (open_attempts t))%nat ∧
  (length (open_attempts t) ≤ 3)%nat ∧
  Forall (fun e => is_request e = true → ∃ c r, e = PostFile (posix rel) c r) t ∧
  (∀ t1 u c r t2, t = t1 ++ PostFile u c r :: t2 →
     (succeeded r = true → t2 = [Print (Synchronized (posix rel))]) ∧
     (r = RequestException → t2 = [Print (Upload_error (posix rel))])).
Proof.
  intros Hrel t. subst t. unfold _upload_file. rewrite Hrel.
  destruct (upload_attempts_bounded 3 p (posix rel) w) as [H1 H2].
  split; [done|]. split; [done|]. split; [apply upload_attempts_only_uploads|].
  intros t1 u c r t2 Ht.
  by destruct (upload_attempts_after_request _ _ _ _ _ _ _ _ _ Ht) as (_ & ? & ?).
Qed.

Lemma upload_attempts_unreadable (n : nat) (p : list string) (rel : string) :
  ∀ w : W,
    Forall (fun r => r = PermissionError ∨ r = FileNotFoundError)
           (open_attempts (upload_attempts n p rel w).2) →
    ∃ rs, length rs = n ∧
          (upload_attempts n p rel w).2 =
          rs ≫= (fun r => [Open p r; Sleep 500]).
Proof.
  induction n as [|n IH]; intros w; [by exists []|].
  rewrite upload_attempts_S. cbn zeta.
  destruct (open_rb p w) as [[content| | |] w1]; cbn [fst snd].
  - destruct (requests_post_file rel content w1) as [[sc text|] w2];
      cbn [fst snd]; [destruct (sc =? 200)|]; cbn [snd];
      rewrite open_attempts_cons; by intros [[?|?] _]%Forall_cons.
  - rewrite !open_attempts_cons. intros [_ Hrest]%Forall_cons.
    destruct (IH w1 Hrest) as (rs & Hlen & ->).
    exists (PermissionError :: rs). split; [by rewrite <- Hlen|done].
  - rewrite !open_attempts_cons. intros [_ Hrest]%Forall_cons.
    destruct (IH w1 Hrest) as (rs & Hlen & ->).
    exists (FileNotFoundError :: rs). split; [by rewrite <- Hlen|done].
  - rewrite open_attempts_cons. by intros [[?|?] _]%Forall_cons.
Qed.

(** X10. A file that cannot be opened, because it is locked or gone, at
    any of its attempts is given up without a word: [_upload_file] tries
    three times, sleeps half a second after each attempt, also after the
    last one, sends nothing and prints nothing. *)
Theorem upload_of_unreadable_file_gives_up_silently (p rel : list string) (w : W) :
  relative_to p sync_folder = Some rel →
  let t := (_upload_file sync_folder p w).2 in
  Forall (fun r => r = PermissionError ∨ r = FileNotFoundError)
         (open_attempts t) →
  ∃ r1 r2 r3,
    t = [Open p r1; Sleep 500; Open p r2; Sleep 500; Open p r3; Sleep 500].
Proof.
  intros Hrel t. subst t. unfold _upload_file. rewrite Hrel. intros Hall.
  destruct (upload_attempts_unreadable _ _ _ _ Hall) as (rs & Hlen & ->).
  destruct rs as [|r1 [|r2 [|r3 [|r4 rs]]]]; try done.
  by exists r1, r2, r3.
Qed.

End uploads.

Section reconciliation.
Context {W : Type} `{World W}.
Variable sync_folder : list string.

Lemma create_folder_events (p : list string) (w : W) :
  Forall (fun e => folder_event e = true) (_create_folder sync_folder p w).2.
Proof.
  unfold _create_folder. destruct (relative_to p sync_folder) as [rel|].
  2:{ by repeat constructor. }
  generalize (parts (posix rel)) EmptyString w. intros l.
  induction l as [|part l IH]; intros cur w'; [constructor|].
  rewrite create_folder_loop_cons. cbn zeta. constructor; [done|].
  destruct (succeeded _).
  - constructor; [done|]. apply IH.
  - destruct (requests_post_dir _ w').1; by repeat constructor.
Qed.

Lemma upload_file_events (p : list string) (w : W) :
  Forall (fun e => upload_event e = true) (_upload_file sync_folder p w).2.
Proof.
  unfold _upload_file. destruct (relative_to p sync_folder) as [rel|].
  2:{ by repeat constructor. }
  generalize 3%nat w. intros n. induction n as [|n IH]; intros w'; [constructor|].
  rewrite upload_attempts_S. cbn zeta.
  destruct (open_rb p w') as [[content| | |] w1]; cbn [fst snd].
  - destruct (requests_post_file (posix rel) content w1) as [[sc text|] w2];
      cbn [fst snd]; [destruct (sc =? 200)|]; cbn [snd];
      repeat (constructor; [done|]); try constructor. apply IH.
  - repeat (constructor; [done|]). apply IH.
  - repeat (constructor; [done|]). apply IH.
  - by repeat constructor.
Qed.

Lemma for_each_events {A} (P : event → Prop) (l : list A)
    (body : A → cmd W unit) :
  (∀ x w, Forall P (body x w).2) → ∀ w, Forall P (for_each l body w).2.
Proof.
  intros Hbody. induction l as [|x l IH]; intros w; [constructor|].
  cbn [for_each]. unfold mbind at 1, cmd_bind at 1. cbn [snd].
  apply Forall_app. split; [apply Hbody | apply IH].
Qed.

Lemma announced_directories_app t1 t2 :
  announced_directories (t1 ++ t2) =
  announced_directories t1 ++ announced_directories t2.
Proof. apply omap_app. Qed.

Lemma announced_directories_cons e t :
  announced_directories (e :: t) =
  match e with
  | Print (Creating_directory rel_path) => rel_path :: announced_directories t
  | _ => announced_directories t
  end.
Proof. by destruct e as [| | | | | |[]|]. Qed.

Lemma announced_directories_none (P : event → bool) t :
  (∀ rel_path, P (Print (Creating_directory rel_path)) = false) →
  Forall (fun e => P e = true) t → announced_directories t = [].
Proof.
  intros HP. induction 1 as [|e t He _ IH]; [done|].
  rewrite announced_directories_cons.
  destruct e as [| | | | | |[]|]; try done. by rewrite HP in He.
Qed.

(** The trace of [force_sync] once the list has arrived: the directory
    phase, the upload threads, and the closing line. *)
Lemma force_sync_phases (path : option string) (root : list string) (w w1 : W)
    (json : list remote_item) :
  sync_root sync_folder path = Some root →
  requests_get_files w = (FilesResponse 200 json, w1) →
  let server_files := server_files_of json in
  let local_files := local_files_of sync_folder root w1 in
  let d := sync_directories sync_folder server_files local_files w1 in
  let u := for_each (upload_threads sync_folder server_files local_files)
             (fun p => emit (ThreadStart (Upload_file p));;
                       _upload_file sync_folder p) d.1.2 in
  (force_sync sync_folder path w).2 =
  [Print Starting_synchronization; GetFiles (FilesResponse 200 json)] ++
  d.2 ++ u.2 ++ [Print Synchronization_complete].
Proof.
  intros Hroot Hget server_files local_files d u. subst d u.
  unfold force_sync. rewrite Hroot. run_cmd. rewrite Hget.
  cbn [fst snd app negb]. rewrite Z.eqb_refl. cbn [negb fst snd app].
  reflexivity.
Qed.

Lemma sync_directories_announced server_files
    (local_files : list (string * local_info)) : ∀ w : W,
  announced_directories
    (sync_directories sync_folder server_files local_files w).2 =
  (filter (fun e : string * local_info =>
             li_is_directory e.2 = true ∧ server_files !! e.1 = None)
          local_files).*1.
Proof.
  unfold sync_directories.
  induction local_files as [|e l IH]; intros w; [done|].
  cbn [for_each]. unfold mbind at 1, cmd_bind at 1. cbn [snd].
  rewrite announced_directories_app, IH.
  destruct (li_is_directory e.2) eqn:Hd; cbn [andb].
  - case_bool_decide as Hs.
    + rewrite filter_cons_True by done. run_cmd.
      rewrite announced_directories_cons.
      rewrite (announced_directories_none folder_event); [done|done|].
      apply create_folder_events.
    + rewrite filter_cons_False by (by intros [_ ?]). done.
  - rewrite filter_cons_False; [done|]. intros [? _]. congruence.
Qed.

Lemma sync_directories_events server_files
    (local_files : list (string * local_info)) (w : W) :
  Forall (fun e => is_upload e = false)
         (sync_directories sync_folder server_files local_files w).2.
Proof.
  unfold sync_directories. apply for_each_events. intros e w'.
  destruct (_ && _); run_cmd; [|constructor].
  constructor; [done|]. eapply Forall_impl; [apply create_folder_events|].
  intros ev. by destruct ev as [| | | | | |[]|].
Qed.

Lemma upload_phase_events (l : list (list string)) (w : W) :
  Forall (fun e => upload_event e = true)
         (for_each l (fun p => emit (ThreadStart (Upload_file p));;
                               _upload_file sync_folder p) w).2.
Proof.
  apply for_each_events. intros p w'. run_cmd. constructor; [done|].
  apply upload_file_events.
Qed.

Lemma after_first_phase {A} (P Q : A → Prop) (l1 l2 t1 t2 : list A) (e : A) :
  Forall (fun x => ¬ P x) l1 → Forall Q l2 →
  l1 ++ l2 = t1 ++ e :: t2 → P e → Forall Q t2.
Proof.
  revert t1. induction l1 as [|x l1 IH]; intros t1 Hl1 Hl2 Heq HP.
  - cbn [app] in Heq. rewrite Heq in Hl2.
    apply Forall_app in Hl2 as [_ Hl2]. by apply Forall_cons in Hl2 as [_ ?].
  - apply Forall_cons in Hl1 as [Hx Hl1]. destruct t1 as [|y t1]; cbn [app] in Heq.
    + injection Heq as -> _. done.
    + injection Heq as _ Heq. by eapply IH.
Qed.

(** X12. [force_sync] brings the directories up to date before the
    files: once the first upload thread has been started, no request to
    create a directory is made any more. *)
Theorem reconcile_directories_before_files
    (path : option string) (root : list string) (w w1 : W)
    (json : list remote_item) :
  sync_root sync_folder path = Some root →
  requests_get_files w = (FilesResponse 200 json, w1) →
  ∀ t1 e t2,
    (force_sync sync_folder path w).2 = t1 ++ e :: t2 →
    is_upload e = true →
    Forall (fun e' => is_create_directory e' = false) t2.
Proof.
  intros Hroot Hget t1 e t2 Ht He.
  rewrite (force_sync_phases _ _ _ _ _ Hroot Hget) in Ht. cbn zeta in Ht.
  rewrite app_assoc in Ht.
  eapply (after_first_phase (fun x => is_upload x = true)); [| |exact Ht|exact He].
  - apply Forall_app. split.
    + by repeat constructor.
    + eapply Forall_impl; [apply sync_directories_events|].
      intros x Hx. by rewrite Hx.
  - apply Forall_app. split; [|by repeat constructor].
    eapply Forall_impl; [apply upload_phase_events|].
    intros x. by destruct x.
Qed.

End reconciliation.

Section directory_requests.
Context {W : Type} `{World W}.
Variable sync_folder : list string.

Lemma directory_requests_app t1 t2 :
  directory_requests (t1 ++ t2) = directory_requests t1 ++ directory_requests t2.
Proof. apply omap_app. Qed.

Lemma directory_requests_none (P : event → bool) t :
  (∀ u r, P (PostDirectory u r) = false) →
  Forall (fun e => P e = true) t → directory_requests t = [].
Proof.
  intros HP. induction 1 as [|e t He _ IH]; [done|].
  destruct e; try done. by rewrite HP in He.
Qed.

(** The calls [_create_folder] makes for a directory of the walk. *)
Lemma create_folder_requests (rel_path : string) (w : W) :
  (∃ k, (directory_requests
           (_create_folder sync_folder (sync_folder ++ parts rel_path) w).2).*1 =
        take k (ancestors (parts rel_path))) ∧
  (Forall (fun c => succeeded c.2 = true)
     (directory_requests
        (_create_folder sync_folder (sync_folder ++ parts rel_path) w).2) →
   (directory_requests
      (_create_folder sync_folder (sync_folder ++ parts rel_path) w).2).*1 =
   ancestors (parts rel_path)).
Proof.
  destruct (create_folder_calls sync_folder (sync_folder ++ parts rel_path)
              (parts rel_path) w (relative_to_app _ _))
    as (_ & Hk & Hall & _).
  rewrite (ServiceFacts.parts_posix _ (ServiceFacts.parts_segments rel_path))
    in Hk, Hall.
  by split.
Qed.

Lemma sync_directories_cons server_files (e : string * local_info)
    (l : list (string * local_info)) (w : W) :
  (sync_directories sync_folder server_files (e :: l) w).2 =
  (if li_is_directory e.2 && bool_decide (server_files !! e.1 = None)
   then Print (Creating_directory e.1) ::
        (_create_folder sync_folder (sync_folder ++ parts e.1) w).2
   else []) ++
  (sync_directories sync_folder server_files l
     (if li_is_directory e.2 && bool_decide (server_files !! e.1 = None)
      then (_create_folder sync_folder (sync_folder ++ parts e.1) w).1.2
      else w)).2.
Proof.
  unfold sync_directories. cbn [for_each].
  unfold mbind at 1, cmd_bind at 1. cbn [snd].
  by destruct (_ && _).
Qed.

Lemma sync_directories_requests server_files
    (local_files : list (string * local_info)) : ∀ w : W,
  (∀ c, c ∈ directory_requests
              (sync_directories sync_folder server_files local_files w).2 →
     ∃ rel_path,
       rel_path ∈ (filter (fun e : string * local_info =>
                             li_is_directory e.2 = true ∧
                             server_files !! e.1 = None) local_files).*1 ∧
       c.1 ∈ ancestors (parts rel_path)) ∧
  (Forall (fun c => succeeded c.2 = true)
     (directory_requests
        (sync_directories sync_folder server_files local_files w).2) →
   (directory_requests
      (sync_directories sync_folder server_files local_files w).2).*1 =
   (filter (fun e : string * local_info =>
              li_is_directory e.2 = true ∧ server_files !! e.1 = None)
           local_files).*1 ≫= (fun rel_path => ancestors (parts rel_path))).
Proof.
  induction local_files as [|e l IH]; intros w.
  { split; [|done]. intros c Hc. by apply elem_of_nil in Hc. }
  rewrite sync_directories_cons, directory_requests_app.
  destruct (li_is_directory e.2) eqn:Hd; cbn [andb].
  - case_bool_decide as Hs.
    + rewrite filter_cons_True by done.
      rewrite directory_requests_print, fmap_cons. cbn [mbind list_bind].
      destruct (IH (_create_folder sync_folder (sync_folder ++ parts e.1) w).1.2)
        as [IHin IHall].
      destruct (create_folder_requests e.1 w) as [[k Hk] Hall]. split.
      * intros c [Hc|Hc]%elem_of_app.
        -- exists e.1. split; [apply elem_of_cons; by left|].
           apply (subseteq_take k). rewrite <- Hk.
           apply list_elem_of_fmap. by exists c.
        -- destruct (IHin c Hc) as (rel_path & Hin & Hu). exists rel_path.
           split; [apply elem_of_cons; by right|done].
      * intros [H1 H2]%Forall_app. rewrite fmap_app. f_equal; auto.
    + rewrite filter_cons_False by (by intros [_ ?]). apply IH.
  - rewrite filter_cons_False; [apply IH|]. intros [? _]. congruence.
Qed.

(** X11. When the walk has a root and the server's list arrives,
    [force_sync] announces exactly the local directories whose relative
    path has no entry in the list, in the order of the local walk, and
    calls [_create_folder] for each of them. The create-directory
    requests of the pass are those calls: every one of them is for such a
    directory or for an ancestor of one, whether the server lists that
    ancestor or not; and if every request is answered 200, the requests
    are, directory by directory, for all the ancestors of the directory,
    the root-most first, and then for the directory itself. Nothing is
    requested for a local file, or for a directory that the server lists
    and that lies above no missing one. *)
Theorem reconcile_creates_missing_directories
    (path : option string) (root : list string) (w w1 : W)
    (json : list remote_item) :
  sync_root sync_folder path = Some root →
  requests_get_files w = (FilesResponse 200 json, w1) →
  let server_files := server_files_of json in
  let local_files := local_files_of sync_folder root w1 in
  let t := (force_sync sync_folder path w).2 in
  let missing :=
    (filter (fun e : string * local_info =>
               li_is_directory e.2 = true ∧ server_files !! e.1 = None)
            local_files).*1 in
  announced_directories t = missing ∧
  (∀ rel_path, rel_path ∈ announced_directories t ↔
     ∃ info, (rel_path, info) ∈ local_files ∧
             li_is_directory info = true ∧ server_files !! rel_path = None) ∧
  (∀ u result, (u, result) ∈ directory_requests t →
     ∃ rel_path, rel_path ∈ missing ∧ u ∈ ancestors (parts rel_path)) ∧
  (Forall (fun c => succeeded c.2 = true) (directory_requests t) →
   (directory_requests t).*1 =
   missing ≫= (fun rel_path => ancestors (parts rel_path))).
Proof.
  intros Hroot Hget server_files local_files t missing.
  assert (Ht : announced_directories t = missing).
  { subst t. rewrite (force_sync_phases sync_folder _ _ _ _ _ Hroot Hget). cbn zeta.
    cbn [app]. rewrite !announced_directories_cons.
    rewrite !announced_directories_app, sync_directories_announced.
    rewrite (announced_directories_none upload_event);
      [|done|apply upload_phase_events].
    cbn. by rewrite app_nil_r. }
  assert (Hcalls : directory_requests t =
                   directory_requests
                     (sync_directories sync_folder server_files local_files w1).2).
  { subst t. rewrite (force_sync_phases sync_folder _ _ _ _ _ Hroot Hget). cbn zeta.
    cbn [app]. rewrite directory_requests_print.
    change (directory_requests (GetFiles ?r :: ?t')) with (directory_requests t').
    rewrite !directory_requests_app.
    rewrite (directory_requests_none upload_event (for_each _ _ _).2);
      [|done|apply upload_phase_events].
    cbn. by rewrite app_nil_r. }
  destruct (sync_directories_requests server_files local_files w1)
    as [Hin Hall].
  split; [done|]. split; [|split].
  - intros rel_path. rewrite Ht. unfold missing. rewrite list_elem_of_fmap. split.
    + intros ([rel info] & -> & Hin'). apply list_elem_of_filter in Hin' as [[? ?] ?].
      eauto.
    + intros (info & Hin' & Hd & Hs). exists (rel_path, info). split; [done|].
      by apply list_elem_of_filter.
  - intros u result Hu. rewrite Hcalls in Hu. apply (Hin (u, result) Hu).
  - rewrite Hcalls. apply Hall.
Qed.

End directory_requests.


Section fan_out.
Context {W : Type} `{World W}.
Variable sync_folder : list string.

Lemma started_children_app t1 t2 :
  started_children (t1 ++ t2) = started_children t1 ++ started_children t2.
Proof. apply omap_app. Qed.

Lemma started_children_cons e t :
  started_children (e :: t) =
  match e with
  | ThreadStart (Handle_child child) => child :: started_children t
  | _ => started_children t
  end.
Proof. by destruct e as [| | | | | | |[]]. Qed.

Lemma started_children_none (P : event → bool) t :
  (∀ child, P (ThreadStart (Handle_child child)) = false) →
  Forall (fun e => P e = true) t → started_children t = [].
Proof.
  intros HP. induction 1 as [|e t He _ IH]; [done|].
  rewrite started_children_cons.
  destruct e as [| | | | | | |[]]; try done. by rewrite HP in He.
Qed.

Lemma handle_child_starts_nothing (child : list string) (w : W) :
  started_children (_handle_child sync_folder child w).2 = [].
Proof.
  unfold _handle_child. run_cmd. destruct (path_stat child w) as [s|]; [|done].
  destruct (st_is_dir s); cbn [app].
  - apply (started_children_none folder_event); [done|apply create_folder_events].
  - apply (started_children_none upload_event); [done|apply upload_file_events].
Qed.

Lemma for_each_children_started (l : list (list string)) : ∀ w : W,
  started_children
    (for_each l (fun child => emit (ThreadStart (Handle_child child));;
                              _handle_child sync_folder child) w).2 = l.
Proof.
  induction l as [|child l IH]; intros w; [done|].
  cbn [for_each]. unfold mbind at 1, cmd_bind at 1. cbn [snd].
  rewrite started_children_app, IH. run_cmd.
  by rewrite started_children_cons, handle_child_starts_nothing.
Qed.

(** X23. An addition or modification of a directory is fanned out: after
    the request for the directory itself, whatever came of it,
    [_handle_event] starts one child thread for every path that the
    recursive listing of the directory yields, in the order of the
    listing; for a file it starts none. *)
Theorem directory_event_fans_out (change : Change) (path : string)
    (rel : list string) (st : stat_result) (w : W) :
  relative_to (Path path) sync_folder = Some rel →
  action_kind change = Upsert →
  path_stat (Path path) w = Some st →
  started_children (_handle_event sync_folder change path w).2 =
  if st_is_dir st
  then path_rglob (Path path) (_create_folder sync_folder (Path path) w).1.2
  else [].
Proof.
  intros Hrel Hkind Hst. destruct (st_is_dir st) eqn:Hdir.
  - rewrite (handle_event_directory sync_folder change path rel st w) by done.
    cbn zeta. rewrite started_children_cons, started_children_app.
    rewrite (started_children_none folder_event);
      [|done|apply create_folder_events].
    apply for_each_children_started.
  - rewrite (handle_event_file sync_folder change path rel st w) by done.
    rewrite started_children_cons.
    apply (started_children_none upload_event); [done|apply upload_file_events].
Qed.

End fan_out.

End OutcomeFacts.

(** ** Client and server together: what the handler's requests leave on
    the server *)

Module EndToEndFacts.
Import Paths Client Deployment Outcomes Service.
Import ServerFacts ClientFacts ServiceFacts OutcomeFacts DeploymentFacts.

Lemma keeps_is_dir (st st' : Server.store) (loc : list string) :
  Server.keeps st st' → Server.is_dir st loc = true → Server.is_dir st' loc = true.
Proof.
  intros Hk Hd. apply is_dir_lookup in Hd as [m Hm].
  destruct (Hk _ _ Hm) as (n' & Hn' & Hkind). unfold Server.is_dir.
  rewrite Hn'. by destruct n'.
Qed.

Lemma upload_directory_made (now : Z) (file_path : string)
    (file : option string) (st : Server.store) :
  Server.status_code (Server.upload_file now file_path file true st).1 = 200 →
  Server.is_dir (Server.upload_file now file_path file true st).2
    (Server.storage_path file_path) = true.
Proof.
  unfold Server.upload_file.
  destruct (Server.mkdir_parent _ _ st) as [e|st1]; [done|].
  destruct (Server.mkdir now true _ st1) as [e|st2] eqn:Hd; [done|].
  intros _. by apply mkdir_extends in Hd as [_ ?].
Qed.

Section deployed.
Context {E : Type} `{Surroundings E}.
Variable sync_folder : list string.

Lemma through_succeeded serve (w : world E) :
  succeeded (through serve w).1 = true →
  ∃ now, Server.status_code (serve now (remote w)).1 = 200 ∧
         remote (through serve w).2 = (serve now (remote w)).2.
Proof.
  unfold through. destruct (next_request (around w)) as [[[] now] e']; cbn;
    try done.
  intros Hok%Z.eqb_eq. eauto.
Qed.

Lemma post_dir_keeps u (w : world E) :
  keeps_remote w (requests_post_dir u w).2.
Proof. apply through_keeps. intros now st. apply upload_file_keeps. Qed.

Lemma post_file_keeps u c (w : world E) :
  keeps_remote w (requests_post_file u c w).2.
Proof. apply through_keeps. intros now st. apply upload_file_keeps. Qed.

Lemma get_files_keeps (w : world E) : keeps_remote w (requests_get_files w).2.
Proof.
  unfold keeps_remote. cbn. unfold get_files.
  destruct (next_request (around w)) as [[[] now] e']; cbn; apply keeps_refl.
Qed.

Lemma open_keeps p (w : world E) : keeps_remote w (open_rb p w).2.
Proof. apply keeps_refl. Qed.

Lemma create_folder_keeps p :
  within keeps_remote no_delete (_create_folder sync_folder p).
Proof.
  apply create_folder_within;
    [apply keeps_remote_refl | apply keeps_remote_trans | apply post_dir_keeps
    | by intros e He ?].
Qed.

Lemma create_folder_loop_keeps p parts cur :
  within keeps_remote no_delete (create_folder_loop p parts cur).
Proof.
  apply create_folder_loop_within;
    [apply keeps_remote_refl | apply keeps_remote_trans | apply post_dir_keeps
    | by intros e He ?].
Qed.

Lemma upload_file_keeps_remote p :
  within keeps_remote no_delete (_upload_file sync_folder p).
Proof.
  apply upload_file_within;
    [apply keeps_remote_refl | apply keeps_remote_trans | apply post_file_keeps
    | apply open_keeps | by intros e He ?].
Qed.

Lemma handle_child_keeps child :
  within keeps_remote no_delete (_handle_child sync_folder child).
Proof.
  unfold _handle_child.
  apply (within_bind _ _ keeps_remote_trans);
    [apply within_ask, keeps_remote_refl|].
  intros [s|]; [|apply within_ret, keeps_remote_refl].
  destruct (st_is_dir s); [apply create_folder_keeps|apply upload_file_keeps_remote].
Qed.


(** X13. Dispatching an addition or a modification removes nothing from
    the server, whether the path is a file, a directory with any
    number of children, or gone, and whatever happens to the requests:
    every entry of the store is kept with its kind, and no delete request
    is sent. *)
Theorem upsert_event_never_deletes (change : Change) (path : string)
    (w : world E) :
  action_kind change = Upsert →
  let r := _handle_event sync_folder change path w in
  (∀ loc n, remote w !! loc = Some n →
     ∃ n', remote r.1.2 !! loc = Some n' ∧
           Server.node_is_dir n' = Server.node_is_dir n) ∧
  Forall (fun e => is_delete_request e = false) r.2.
Proof.
  intros Hkind.
  enough (Hw : within keeps_remote no_delete
                 (_handle_event sync_folder change path)) by apply Hw.
  unfold _handle_event. rewrite Hkind.
  destruct (relative_to (Path path) sync_folder) as [rel|];
    [|apply within_ret, keeps_remote_refl].
  apply (within_bind _ _ keeps_remote_trans);
    [by apply within_emit; [apply keeps_remote_refl|]|intros _].
  apply (within_bind _ _ keeps_remote_trans);
    [apply within_ask, keeps_remote_refl|].
  intros [s|]; [|apply within_ret, keeps_remote_refl].
  destruct (st_is_dir s); [|apply upload_file_keeps_remote].
  apply (within_bind _ _ keeps_remote_trans); [apply create_folder_keeps|intros _].
  apply (within_bind _ _ keeps_remote_trans);
    [apply within_ask, keeps_remote_refl|intros children].
  apply (within_for_each _ _ keeps_remote_refl keeps_remote_trans). intros child.
  apply (within_bind _ _ keeps_remote_trans);
    [by apply within_emit; [apply keeps_remote_refl|]|intros _].
  apply handle_child_keeps.
Qed.

Lemma create_folder_loop_world p part parts cur (w : world E) :
  (create_folder_loop p (part :: parts) cur w).1.2 =
  let cur' := lstrip_slash (cur +:+ "/" +:+ part) in
  let r := requests_post_dir cur' w in
  if succeeded r.1 then (create_folder_loop p parts cur' r.2).1.2 else r.2.
Proof.
  cbn [create_folder_loop]. run_cmd.
  destruct (requests_post_dir _ w) as [[c text|] w1]; cbn [fst snd succeeded];
    [destruct (c =? 200)|]; run_cmd; reflexivity.
Qed.

(** The directories the loop of [_create_folder] has asked for exist
    when every call was answered 200. *)
Lemma create_folder_loop_made p parts : ∀ cur (w : world E),
  Forall (fun c => succeeded c.2 = true)
         (directory_requests (create_folder_loop p parts cur w).2) →
  ∀ u, u ∈ cumulative parts cur →
    Server.is_dir (remote (create_folder_loop p parts cur w).1.2)
      (Server.storage_path (request_path u)) = true.
Proof.
  induction parts as [|part parts IH]; intros cur w Hall u Hu.
  { by apply elem_of_nil in Hu. }
  rewrite create_folder_loop_world. rewrite create_folder_loop_cons in Hall.
  cbn zeta in *. rewrite directory_requests_dir in Hall.
  apply Forall_cons in Hall as [Hfirst Hall]. cbn [snd] in Hfirst.
  rewrite Hfirst in *. rewrite directory_requests_print in Hall.
  cbn [cumulative] in Hu. apply elem_of_cons in Hu as [->|Hu]; [|by apply IH].
  set (cur' := lstrip_slash (cur +:+ "/" +:+ part)) in *.
  eapply keeps_is_dir; [apply create_folder_loop_keeps|].
  cbn in Hfirst. apply through_succeeded in Hfirst as (now & Hok & Hst).
  cbn. rewrite Hst. by apply upload_directory_made.
Qed.

(** X14. When every call of [_create_folder] is answered 200, the
    directory and all its ancestors below the storage directory exist on
    the server afterwards, provided the relative path is one that the
    URL hands on as it is written. *)
Theorem created_folder_exists_remotely (p rel : list string) (w : world E) :
  relative_to p sync_folder = Some rel →
  url_safe (posix rel) = true →
  let r := _create_folder sync_folder p w in
  Forall (fun c => succeeded c.2 = true) (directory_requests r.2) →
  ∀ a, a `prefix_of` parts (posix rel) → a ≠ [] →
    Server.is_dir (remote r.1.2) a = true.
Proof.
  intros Hrel Hsafe r Hall a [k Hk] Hne. subst r. unfold _create_folder in *.
  rewrite Hrel in *. set (segments := parts (posix rel)) in *.
  pose proof (parts_segments (posix rel)) as Hseg. fold segments in Hseg.
  assert (Ha : Forall segment a).
  { rewrite Hk in Hseg. by apply Forall_app in Hseg as [? _]. }
  assert (Hin : posix a ∈ cumulative segments EmptyString).
  { rewrite cumulative_ancestors by apply parts_plain. unfold ancestors.
    apply list_elem_of_fmap. exists (length a). split.
    - rewrite Hk, take_app_length. by destruct a.
    - apply elem_of_seq. rewrite Hk, length_app. destruct a; [done|]. cbn. lia. }
  pose proof (create_folder_loop_made p segments EmptyString w Hall _ Hin) as Hd.
  assert (Hplain : request_path (posix a) = posix a).
  { pose proof (cumulative_plain_chars segments EmptyString
                  (parts_plain_chars _ (url_safe_plain _ Hsafe)) eq_refl)
      as Hall'.
    rewrite Forall_forall in Hall'. by apply Hall'. }
  rewrite Hplain in Hd. unfold Server.storage_path in Hd.
  by rewrite (parts_posix a Ha) in Hd.
Qed.

Lemma upload_stored (now : Z) (u c : string) (st : Server.store) :
  Server.status_code (Server.upload_file now u (Some c) false st).1 = 200 →
  (Server.upload_file now u (Some c) false st).2 !! Server.storage_path u =
  Some (Server.RegularFile c now).
Proof.
  intros Hok. destruct (upload_file_stored now u c st Hok) as (st1 & _ & ->).
  apply lookup_insert_eq.
Qed.

(** The upload request that is answered 200 is the last thing the loop
    of [_upload_file] does to the world. *)
Lemma upload_attempts_success_last (n : nat) (p : list string) (rel : string) :
  ∀ (w : world E) t1 u c r t2,
    (upload_attempts n p rel w).2 = t1 ++ PostFile u c r :: t2 →
    succeeded r = true →
    ∃ w0, requests_post_file u c w0 = (r, (upload_attempts n p rel w).1.2).
Proof.
  induction n as [|n IH]; intros w t1 u c r t2.
  { cbn. by destruct t1. }
  rewrite upload_attempts_S. cbn zeta.
  destruct (open_rb p w) as [[content| | |] w1] eqn:Hopen; cbn [fst snd].
  - destruct (requests_post_file rel content w1) as [[sc text|] w2] eqn:Hpost;
      cbn [fst snd]; [destruct (sc =? 200) eqn:Hsc|]; cbn [fst snd];
      intros Ht Hok.
    + destruct t1 as [|e1 [|e2 [|e3 t1]]]; cbn [app] in Ht; try done.
      * injection Ht as <- <- <- <-. eauto.
      * injection Ht as _ _ Ht. by destruct t1.
    + destruct t1 as [|e1 [|e2 t1]]; cbn [app] in Ht; try done.
      * injection Ht as <- <- <- <-. cbn [succeeded] in Hok. congruence.
      * injection Ht as _ _ Ht. by eapply IH.
    + destruct t1 as [|e1 [|e2 [|e3 t1]]]; cbn [app] in Ht; try done.
      * by injection Ht as <- <- <- <-.
      * injection Ht as _ _ Ht. by destruct t1.
  - intros Ht Hok. destruct t1 as [|e1 [|e2 t1]]; cbn [app] in Ht; try done.
    injection Ht as _ _ Ht. by eapply IH.
  - intros Ht Hok. destruct t1 as [|e1 [|e2 t1]]; cbn [app] in Ht; try done.
    injection Ht as _ _ Ht. by eapply IH.
  - intros Ht Hok. destruct t1 as [|e1 [|e2 t1]]; cbn [app] in Ht; try done.
    injection Ht as _ Ht. by destruct t1.
Qed.

(** X15. "Synchronized" means stored: when an upload request of
    [_upload_file] is answered 200, the server holds afterwards, at the
    relative path of the file, a regular file with the content that was
    read from the local file for that request, provided the relative
    path is one that the URL hands on as it is written. *)
Theorem synchronized_file_is_stored (p rel : list string) (w : world E) :
  relative_to p sync_folder = Some rel →
  url_safe (posix rel) = true →
  let r := _upload_file sync_folder p w in
  ∀ t1 u c result t2,
    r.2 = t1 ++ PostFile u c result :: t2 → succeeded result = true →
    u = posix rel ∧
    ∃ now, remote r.1.2 !! parts (posix rel) = Some (Server.RegularFile c now).
Proof.
  intros Hrel Hsafe r t1 u c result t2 Ht Hok. subst r. unfold _upload_file in *.
  rewrite Hrel in *.
  destruct (upload_attempts_after_request _ _ _ _ _ _ _ _ _ Ht) as (-> & _).
  split; [done|].
  destruct (upload_attempts_success_last _ _ _ _ _ _ _ _ _ Ht Hok) as [w0 Hw0].
  assert (Hr : (requests_post_file (posix rel) c w0).1 = result)
    by (by rewrite Hw0).
  assert (Hfin : (requests_post_file (posix rel) c w0).2 =
                 (upload_attempts 3 p (posix rel) w).1.2) by (by rewrite Hw0).
  rewrite <- Hr in Hok. rewrite <- Hfin. clear Hr Hfin Hw0 Ht.
  change (requests_post_file (posix rel) c w0)
    with (through (fun now =>
            Server.upload_file now (request_path (posix rel)) (Some c) false) w0)
    in *.
  rewrite (request_path_safe _ Hsafe) in *.
  apply through_succeeded in Hok as (now & Hst & Hrem).
  exists now. rewrite Hrem. by apply upload_stored.
Qed.

(** X16. A deletion that reaches a server whose store is a tree removes
    the relative path of the event and everything below it from the
    store, whether or not the path was there and whatever the local tree
    holds by now, provided the relative path is one that the URL hands
    on as it is written. Outside that subtree every regular file is
    there with its content and time, every directory is still a
    directory, and nothing is new. The handler makes this one request
    and no other. *)
Theorem deleted_event_removes_remote_subtree (change : Change) (path : string)
    (rel : list string) (w : world E) (now : Z) (e' : E) :
  relative_to (Path path) sync_folder = Some rel →
  url_safe (posix rel) = true →
  action_kind change = Delete →
  next_request (around w) = (Delivered, now, e') →
  Server.well_formed (remote w) →
  let r := _handle_event sync_folder change path w in
  (∀ q, if decide (parts (posix rel) `prefix_of` q)
        then remote r.1.2 !! q = None
        else left_as_it_was (remote w !! q) (remote r.1.2 !! q)) ∧
  Forall (fun e => is_request e = true → ∃ result, e = DeleteRequest (posix rel) result)
         r.2.
Proof.
  intros Hrel Hsafe Hkind Hnet Hwf r. subst r. unfold _handle_event.
  rewrite Hrel, Hkind. unfold _delete_path. run_cmd. cbn. unfold through.
  rewrite Hnet, (request_path_safe _ Hsafe). cbn [fst snd]. split.
  - intros q.
    pose proof (delete_file_frame (posix rel) (remote w) q Hwf) as Hq.
    change (Server.storage_path (posix rel)) with (parts (posix rel)) in Hq.
    destruct (Server.status_code _ =? 200); cbn [fst snd]; simpl remote;
      rewrite Hq; (case_decide; [done|apply left_as_it_was_refl]).
  - constructor; [done|]. constructor; [eauto|].
    destruct (Server.status_code _ =? 200); by repeat constructor.
Qed.

(** X17. If the path of a deletion is the sync folder itself, the
    request is for the relative path ["."], which the server reads as its
    storage directory: once the request arrives, the whole store is gone. *)
Theorem deleted_sync_folder_empties_the_storage (change : Change)
    (path : string) (w : world E) (now : Z) (e' : E) :
  Path path = sync_folder →
  action_kind change = Delete →
  next_request (around w) = (Delivered, now, e') →
  Server.is_dir (remote w) [] = true →
  let r := _handle_event sync_folder change path w in
  remote r.1.2 = ∅ ∧
  ∃ rest, r.2 = Sleep 50 :: DeleteRequest "." (Response 200 EmptyString) :: rest.
Proof.
  intros Hpath Hkind Hnet Hroot r. subst r.
  assert (Hrel : relative_to (Path path) sync_folder = Some []).
  { rewrite Hpath. pose proof (relative_to_app sync_folder []) as Hr.
    by rewrite app_nil_r in Hr. }
  unfold _handle_event. rewrite Hrel, Hkind. unfold _delete_path. run_cmd. cbn.
  unfold through. rewrite Hnet. cbn [fst snd].
  assert (Hdel : Server.delete_file "." (remote w) = (Server.ok200, ∅)).
  { unfold Server.delete_file, Server.path_exists, Server.is_file.
    change (Server.storage_path ".") with (@nil string).
    apply is_dir_lookup in Hroot as [m ->]. cbn [negb]. f_equal.
    apply map_eq. intros q. rewrite lookup_empty. unfold Server.rmtree.
    apply map_lookup_filter_None. right. intros n _ Hk. apply Hk, prefix_nil. }
  rewrite Hdel. cbn. split; [done|]. eauto.
Qed.

End deployed.

(** The upload of [/sync/notes.txt] in [office]: one opening, one request. *)
Lemma upload_file_tries_at_most_three_times_witness :
  let t := (_upload_file sync ["/"; "sync"; "notes.txt"] office).2 in
  (length (upload_requests t) ≤ length (open_attempts t))%nat ∧
  (length (open_attempts t) ≤ 3)%nat.
Proof.
  intros t.
  pose proof (upload_file_tries_at_most_three_times sync
                ["/"; "sync"; "notes.txt"] ["notes.txt"] office eq_refl)
    as (H1 & H2 & _).
  by split.
Defined.

(** [/sync/gone.txt] is not in the local tree of [office]. *)
Lemma upload_of_unreadable_file_gives_up_silently_witness :
  ∃ r1 r2 r3,
    (_upload_file sync ["/"; "sync"; "gone.txt"] office).2 =
    [Open ["/"; "sync"; "gone.txt"] r1; Sleep 500;
     Open ["/"; "sync"; "gone.txt"] r2; Sleep 500;
     Open ["/"; "sync"; "gone.txt"] r3; Sleep 500].
Proof.
  apply (upload_of_unreadable_file_gives_up_silently sync
           ["/"; "sync"; "gone.txt"] ["gone.txt"] office eq_refl).
  vm_compute. repeat constructor; by right.
Defined.

(** In [gallery] the server lists [pics] and not [pics/2024]: the one
    missing directory is announced, and asked for after [pics]. *)
Lemma reconcile_creates_missing_directories_witness :
  announced_directories (force_sync sync None gallery).2 = ["pics/2024"] ∧
  (directory_requests (force_sync sync None gallery).2).*1 =
    ["pics"; "pics/2024"].
Proof.
  pose proof (reconcile_creates_missing_directories sync None sync
                gallery gallery
                (remote_item_of <$> Server.list_files (remote gallery))
                eq_refl eq_refl) as (Ha & _ & _ & Hall).
  split.
  - rewrite Ha. vm_compute. reflexivity.
  - rewrite Hall; [vm_compute; reflexivity|]. vm_compute. repeat constructor.
Defined.
Lemma reconcile_directories_before_files_witness :
  Forall (fun e' => is_create_directory e' = false)
         (drop 3 (force_sync sync None office).2).
Proof.
  pose proof (reconcile_directories_before_files sync None sync office office
                (remote_item_of <$> Server.list_files shelf) eq_refl eq_refl
                (take 2 (force_sync sync None office).2)
                (ThreadStart (Upload_file ["/"; "sync"; "report"]))
                (drop 3 (force_sync sync None office).2))
    as Hordered.
  apply Hordered; vm_compute; reflexivity.
Defined.

(** The directory [/sync/docs], with one file in it, is reported as added
    in [office]. *)
Lemma directory_event_fans_out_witness :
  started_children (_handle_event sync added "/sync/docs" office).2 =
  [["/"; "sync"; "docs"; "readme.md"]].
Proof.
  rewrite (directory_event_fans_out sync added "/sync/docs" ["docs"]
             {| st_is_dir := true; st_mtime := 10 |} office)
    by (vm_compute; reflexivity).
  vm_compute. reflexivity.
Defined.

(** The directory [/sync/docs] is reported as added in [office]. *)
Lemma upsert_event_never_deletes_witness :
  Forall (fun e => is_delete_request e = false)
         (_handle_event sync added "/sync/docs" office).2.
Proof.
  apply (upsert_event_never_deletes sync added "/sync/docs" office eq_refl).
Defined.

(** Creating [docs/img/raw] in [office]. *)
Lemma created_folder_exists_remotely_witness :
  Server.is_dir
    (remote (_create_folder sync ["/"; "sync"; "docs"; "img"; "raw"] office).1.2)
    ["docs"; "img"] = true.
Proof.
  apply (created_folder_exists_remotely sync
           ["/"; "sync"; "docs"; "img"; "raw"] ["docs"; "img"; "raw"]
           office eq_refl eq_refl).
  - vm_compute. repeat constructor.
  - exists ["raw"]. vm_compute. reflexivity.
  - done.
Defined.

(** Uploading [/sync/docs/readme.md] in [office]. *)
Lemma synchronized_file_is_stored_witness :
  ∃ now,
    remote (_upload_file sync ["/"; "sync"; "docs"; "readme.md"] office).1.2
      !! ["docs"; "readme.md"] = Some (Server.RegularFile "hello" now).
Proof.
  apply (synchronized_file_is_stored sync
           ["/"; "sync"; "docs"; "readme.md"] ["docs"; "readme.md"]
           office eq_refl eq_refl
           [Open ["/"; "sync"; "docs"; "readme.md"] (Opened "hello")]
           "docs/readme.md" "hello" (Response 200 EmptyString)
           [Print (Synchronized "docs/readme.md")]).
  - vm_compute. reflexivity.
  - reflexivity.
Defined.

(** [/sync/docs] is reported as deleted in [office]. *)
Lemma deleted_event_removes_remote_subtree_witness :
  remote (_handle_event sync deleted "/sync/docs" office).1.2
    !! ["docs"; "readme.md"] = None ∧
  left_as_it_was (remote office !! ["notes.txt"])
    (remote (_handle_event sync deleted "/sync/docs" office).1.2
       !! ["notes.txt"]).
Proof.
  pose proof (deleted_event_removes_remote_subtree sync deleted "/sync/docs"
                ["docs"] office 1000 desk eq_refl eq_refl eq_refl eq_refl
                shelf_well_formed) as [Hq _].
  split.
  - apply (Hq ["docs"; "readme.md"]).
  - apply (Hq ["notes.txt"]).
Defined.

(** [/sync] itself is reported as deleted in [office]. *)
Lemma deleted_sync_folder_empties_the_storage_witness :
  remote (_handle_event sync deleted "/sync" office).1.2 = ∅.
Proof.
  apply (deleted_sync_folder_empties_the_storage sync deleted "/sync"
           office 1000 desk); reflexivity.
Defined.

End EndToEndFacts.

(** ** Reconciliation: what is uploaded and what is left alone *)

Module ReconcileFacts.
Import Paths Client Deployment Outcomes Service.
Import ServerFacts ClientFacts ServiceFacts OutcomeFacts DeploymentFacts.
Import EndToEndFacts.

(** *** The dictionary [local_files] *)

Lemma dict_set_elem {V} (k : string) (v : V) (d : list (string * V))
    (kv : string * V) :
  kv ∈ dict_set k v d → kv = (k, v) ∨ kv ∈ d.
Proof.
  induction d as [|x d IH]; cbn [dict_set].
  - intros ->%list_elem_of_singleton. by left.
  - case_decide.
    + intros [->|?]%elem_of_cons; [by left|]. right. apply elem_of_cons. by right.
    + intros [->|Hin]%elem_of_cons.
      * right. apply elem_of_cons. by left.
      * destruct (IH Hin) as [?|?]; [by left|]. right. apply elem_of_cons. by right.
Qed.

Lemma dict_set_NoDup {V} (k : string) (v : V) (d : list (string * V)) :
  NoDup d.*1 → NoDup (dict_set k v d).*1.
Proof.
  induction d as [|x d IH]; cbn [dict_set]; intros Hd.
  - apply NoDup_singleton.
  - rewrite fmap_cons in Hd. apply NoDup_cons in Hd as [Hx Hd].
    case_decide as Hk; rewrite fmap_cons; apply NoDup_cons.
    + cbn [fst]. by rewrite <- Hk.
    + split; [|by apply IH]. intros Hin.
      apply list_elem_of_fmap in Hin as (kv & Hkv & Hin).
      apply dict_set_elem in Hin as [->|Hin]; [cbn in Hkv; congruence|].
      apply Hx. rewrite Hkv. apply list_elem_of_fmap. by exists kv.
Qed.

(** A dictionary has one value for a key. *)
Lemma dict_functional {V} (d : list (string * V)) (k : string) (v v' : V) :
  NoDup d.*1 → (k, v) ∈ d → (k, v') ∈ d → v = v'.
Proof.
  induction d as [|x d IH]; [by intros _ ?%elem_of_nil|].
  rewrite fmap_cons. intros [Hx Hd]%NoDup_cons H1 H2.
  apply elem_of_cons in H1 as [H1|H1]; apply elem_of_cons in H2 as [H2|H2].
  - congruence.
  - exfalso. apply Hx. subst x. apply list_elem_of_fmap. by exists (k, v').
  - exfalso. apply Hx. subst x. apply list_elem_of_fmap. by exists (k, v).
  - by apply IH.
Qed.

Section walk.
Context {W : Type} `{Client.World W}.
Variable sync_folder : list string.

(** [local_files] has one entry for a relative path, and its keys are
    the relative paths of the walk. *)
Lemma local_files_keys (root : list string) (w : W) :
  NoDup (local_files_of sync_folder root w).*1 ∧
  ∀ kv, kv ∈ local_files_of sync_folder root w →
    ∃ item rel, item ∈ path_rglob root w ∧
                relative_to item sync_folder = Some rel ∧ kv.1 = posix rel.
Proof.
  unfold local_files_of.
  match goal with |- context [foldl ?f _ _] => set (step := f) end.
  assert (Hfold : ∀ l d, NoDup d.*1 →
            NoDup (foldl step d l).*1 ∧
            ∀ kv, kv ∈ foldl step d l →
              kv ∈ d ∨ ∃ item rel, item ∈ l ∧
                         relative_to item sync_folder = Some rel ∧
                         kv.1 = posix rel).
  { induction l as [|x l IH]; intros d Hd; cbn [foldl]; [by auto|].
    assert (Hd' : NoDup (step d x).*1).
    { unfold step. destruct (relative_to x sync_folder); [|done].
      by apply dict_set_NoDup. }
    destruct (IH _ Hd') as [Hn Hin]. split; [done|]. intros kv Hkv.
    destruct (Hin kv Hkv) as [Hold|(item & rel & Hitem & Hrel & Hk)].
    - unfold step in Hold. destruct (relative_to x sync_folder) as [rel|] eqn:Hrel;
        [|by left].
      apply dict_set_elem in Hold as [->|Hold]; [|by left].
      right. exists x, rel. split; [apply elem_of_cons; by left|done].
    - right. exists item, rel. split; [apply elem_of_cons; by right|done]. }
  destruct (Hfold (path_rglob root w) [] NoDup_nil_2) as [Hn Hin].
  split; [done|]. intros kv Hkv.
  destruct (Hin kv Hkv) as [Hnil|?]; [by apply elem_of_nil in Hnil|done].
Qed.

(** In a plain walk the keys of [local_files] are read back as they
    were written. *)
Lemma plain_walk_key (root : list string) (w : W) (rel_path : string)
    (info : local_info) :
  plain_walk sync_folder (path_rglob root w) →
  (rel_path, info) ∈ local_files_of sync_folder root w →
  posix (parts rel_path) = rel_path ∧ url_safe rel_path = true.
Proof.
  intros Hplain Hin.
  destruct (local_files_keys root w) as [_ Hkeys].
  destruct (Hkeys _ Hin) as (item & rel & Hitem & Hrel & Hk). cbn [fst] in Hk.
  unfold plain_walk in Hplain. rewrite Forall_forall in Hplain.
  specialize (Hplain item Hitem). rewrite Hrel in Hplain.
  destruct Hplain as [Hseg Hsafe]. subst rel_path.
  by rewrite parts_posix.
Qed.

Lemma force_sync_world (path : option string) (root : list string) (w w1 : W)
    (json : list remote_item) :
  sync_root sync_folder path = Some root →
  requests_get_files w = (FilesResponse 200 json, w1) →
  (force_sync sync_folder path w).1.2 =
  (for_each (upload_threads sync_folder (server_files_of json)
               (local_files_of sync_folder root w1))
     (fun p => emit (ThreadStart (Upload_file p));; _upload_file sync_folder p)
     (sync_directories sync_folder (server_files_of json)
        (local_files_of sync_folder root w1) w1).1.2).1.2.
Proof.
  intros Hroot Hget. unfold force_sync. rewrite Hroot. run_cmd. rewrite Hget.
  cbn [fst snd app negb]. rewrite Z.eqb_refl. cbn [negb fst snd app].
  reflexivity.
Qed.

Lemma for_each_elem_trace {A} (l : list A) (body : A → cmd W unit) (x : A) :
  x ∈ l → ∀ w, ∃ t1 w' t2, (for_each l body w).2 = t1 ++ (body x w').2 ++ t2.
Proof.
  induction l as [|y l IH]; [by intros ?%elem_of_nil|].
  intros Hx w. cbn [for_each]. unfold mbind at 1, cmd_bind at 1. cbn [snd].
  apply elem_of_cons in Hx as [->|Hx].
  - by exists [], w, (for_each l body (body y w).1.2).2.
  - destruct (IH Hx (body y w).1.2) as (t1 & w' & t2 & ->).
    exists ((body y w).2 ++ t1), w', t2. by rewrite <- app_assoc.
Qed.

Lemma for_each_events_elem {A} (P : event → Prop) (l : list A)
    (body : A → cmd W unit) :
  (∀ x w, x ∈ l → Forall P (body x w).2) → ∀ w, Forall P (for_each l body w).2.
Proof.
  induction l as [|x l IH]; intros Hbody w; [constructor|].
  cbn [for_each]. unfold mbind at 1, cmd_bind at 1. cbn [snd].
  apply Forall_app. split.
  - apply Hbody, elem_of_cons. by left.
  - apply IH. intros y w' Hy. apply Hbody, elem_of_cons. by right.
Qed.

(** The first attempt of [_upload_file]: the file is opened, and what
    was read is sent. *)
Lemma upload_attempts_first (n : nat) (p : list string) (rel : string) (w : W) :
  ∃ result t2,
    (upload_attempts (S n) p rel w).2 = Open p result :: t2 ∧
    ∀ content, result = Opened content →
      ∃ answer t3, t2 = PostFile rel content answer :: t3.
Proof.
  rewrite upload_attempts_S. cbn zeta.
  destruct (open_rb p w) as [[content| | |] w1]; cbn [fst snd].
  - destruct (requests_post_file rel content w1) as [[sc text|] w2];
      cbn [fst snd]; [destruct (sc =? 200)|]; cbn [snd];
      do 2 eexists; (split; [reflexivity|]); intros c [= <-]; eauto.
  - do 2 eexists. split; [reflexivity|]. by intros c.
  - do 2 eexists. split; [reflexivity|]. by intros c.
  - do 2 eexists. split; [reflexivity|]. by intros c.
Qed.

End walk.

(** *** What an upload leaves alone *)

(** An upload request writes to its target only: a regular file
    elsewhere stays as it is, and a request to create a directory
    leaves every regular file as it is. *)
Lemma upload_file_spares (now : Z) (file_path : string) (file : option string)
    (is_directory : bool) (st : Server.store) (loc : list string)
    (content : string) (mtime : Z) :
  st !! loc = Some (Server.RegularFile content mtime) →
  (is_directory = false → Server.storage_path file_path ≠ loc) →
  (Server.upload_file now file_path file is_directory st).2 !! loc =
  Some (Server.RegularFile content mtime).
Proof.
  intros Hloc Hne. unfold Server.upload_file.
  destruct (Server.mkdir_parent now _ st) as [e|st1] eqn:Hmk; [done|].
  apply mkdir_parent_extends in Hmk as [[Hkeep _] _]. apply Hkeep in Hloc.
  destruct is_directory.
  - destruct (Server.mkdir now true _ st1) as [e|st2] eqn:Hd; [done|].
    apply mkdir_extends in Hd as [[Hkeep2 _] _]. by apply Hkeep2.
  - destruct file as [c|]; [|done].
    destruct (st1 !! Server.storage_path file_path) as [[m|c' m]|];
      cbn [snd]; try done; rewrite lookup_insert_ne; auto.
Qed.

Section untouched.
Context {E : Type} `{Surroundings E}.
Variable sync_folder : list string.
Variable loc : list string.
Variable content : string.
Variable mtime : Z.

Lemma through_spares serve (w : world E) :
  (∀ now st, st !! loc = Some (Server.RegularFile content mtime) →
     (serve now st).2 !! loc = Some (Server.RegularFile content mtime)) →
  remote w !! loc = Some (Server.RegularFile content mtime) →
  remote (through serve w).2 !! loc = Some (Server.RegularFile content mtime).
Proof.
  intros Hs Hw. unfold through.
  destruct (next_request (around w)) as [[[] now] e']; cbn; auto.
Qed.

Lemma get_files_remote (w w1 : world E) (r : files_result) :
  requests_get_files w = (r, w1) → remote w1 = remote w.
Proof.
  cbn. unfold get_files.
  destruct (next_request (around w)) as [[[] now] e']; cbn; by intros [= _ <-].
Qed.

Lemma post_dir_spares (u : string) (w : world E) :
  remote w !! loc = Some (Server.RegularFile content mtime) →
  remote (requests_post_dir u w).2 !! loc =
  Some (Server.RegularFile content mtime).
Proof.
  apply (through_spares (fun now =>
           Server.upload_file now (request_path u) None true)).
  intros now st Hst. by apply upload_file_spares.
Qed.

Lemma sync_directories_spares server_files
    (local_files : list (string * local_info)) (w : world E) :
  remote w !! loc = Some (Server.RegularFile content mtime) →
  remote (sync_directories sync_folder server_files local_files w).1.2 !! loc =
  Some (Server.RegularFile content mtime).
Proof.
  apply (sync_directories_within
           (fun w w' : world E =>
              remote w !! loc = Some (Server.RegularFile content mtime) →
              remote w' !! loc = Some (Server.RegularFile content mtime))
           (fun _ => True) sync_folder); auto using post_dir_spares.
Qed.

Lemma upload_attempts_spares (n : nat) (p : list string) (rel : string) :
  Server.storage_path (request_path rel) ≠ loc →
  ∀ w : world E,
    remote w !! loc = Some (Server.RegularFile content mtime) →
    remote (upload_attempts n p rel w).1.2 !! loc =
    Some (Server.RegularFile content mtime).
Proof.
  intros Hne. induction n as [|n IH]; intros w Hw; [done|].
  rewrite upload_attempts_S. cbn zeta.
  assert (Hopen : remote (open_rb p w).2 !! loc =
                  Some (Server.RegularFile content mtime)) by done.
  destruct (open_rb p w) as [[c| | |] w1]; cbn [fst snd] in *; auto.
  assert (Hpost : remote (requests_post_file rel c w1).2 !! loc =
                  Some (Server.RegularFile content mtime)).
  { apply (through_spares (fun now =>
             Server.upload_file now (request_path rel) (Some c) false));
      [|done].
    intros now st Hst. apply upload_file_spares; [done|]. by intros _. }
  destruct (requests_post_file rel c w1) as [[sc text|] w2];
    cbn [fst snd] in *; [destruct (sc =? 200)|]; cbn [fst snd]; auto.
Qed.

Lemma uploads_spare (l : list (list string)) :
  (∀ p, p ∈ l →
     ∃ rel, relative_to p sync_folder = Some rel ∧
            Server.storage_path (request_path (posix rel)) ≠ loc) →
  ∀ w : world E,
    remote w !! loc = Some (Server.RegularFile content mtime) →
    remote (for_each l (fun p => emit (ThreadStart (Upload_file p));;
                                 _upload_file sync_folder p) w).1.2 !! loc =
    Some (Server.RegularFile content mtime).
Proof.
  induction l as [|p l IH]; intros Hl w Hw; [done|].
  cbn [for_each]. unfold mbind at 1, cmd_bind at 1. cbn [fst snd].
  apply IH; [intros q Hq; apply Hl, elem_of_cons; by right|].
  destruct (Hl p) as (rel & Hrel & Hne); [apply elem_of_cons; by left|].
  run_cmd. unfold _upload_file. rewrite Hrel. by apply upload_attempts_spares.
Qed.

End untouched.

Section reconcile.
Context {E : Type} `{Surroundings E}.
Variable sync_folder : list string.

(** X26. When the walk has a root and the server's list arrives,
    [force_sync] uploads a local file if and only if the list has no
    entry for its relative path or the entry's modification time is
    strictly smaller than the local one. For such a file, and for no
    other path, it starts an upload thread; the thread opens the file
    and, if the file can be read, sends what it read in an upload
    request for the relative path. Every upload request of the pass is
    one of these: nothing is sent for a directory, or for a file whose
    remote copy is as new or newer. Such a remote copy is left as it is
    where the paths of the walk are plain: the server holds after the
    pass the same content with the same time as before, whatever
    happens to the requests on their way. *)
Theorem reconcile_uploads_the_missing_and_the_older
    (path : option string) (root : list string) (w w1 : world E)
    (json : list remote_item) :
  sync_root sync_folder path = Some root →
  requests_get_files w = (FilesResponse 200 json, w1) →
  let server_files := server_files_of json in
  let local_files := local_files_of sync_folder root w1 in
  let r := force_sync sync_folder path w in
  let missing_or_older (rel_path : string) (info : local_info) :=
    (rel_path, info) ∈ local_files ∧ li_is_directory info = false ∧
    (server_files !! rel_path = None ∨
     ∃ item, server_files !! rel_path = Some item ∧
             default 0 (modified item) < li_modified info) in
  started_uploads r.2 = upload_threads sync_folder server_files local_files ∧
  (∀ p, p ∈ started_uploads r.2 ↔
     ∃ rel_path info,
       p = sync_folder ++ parts rel_path ∧ missing_or_older rel_path info) ∧
  (∀ rel_path info, missing_or_older rel_path info →
     let p := sync_folder ++ parts rel_path in
     ∃ t1 result t2,
       r.2 = t1 ++ ThreadStart (Upload_file p) :: Open p result :: t2 ∧
       ∀ content, result = Opened content →
         ∃ answer t3,
           t2 = PostFile (posix (parts rel_path)) content answer :: t3) ∧
  (∀ u content answer, PostFile u content answer ∈ r.2 →
     ∃ rel_path info,
       missing_or_older rel_path info ∧ u = posix (parts rel_path)) ∧
  (plain_walk sync_folder (path_rglob root w1) →
   ∀ rel_path info content mtime,
     (rel_path, info) ∈ local_files → li_is_directory info = false →
     needs_upload server_files rel_path info = false →
     remote w !! parts rel_path = Some (Server.RegularFile content mtime) →
     remote r.1.2 !! parts rel_path =
     Some (Server.RegularFile content mtime)).
Proof.
  intros Hroot Hget server_files local_files r missing_or_older.
  destruct (force_sync_starts_uploads sync_folder path root w w1 json Hroot Hget)
    as [Hstarted Hiff].
  cbn zeta in Hstarted, Hiff. fold server_files local_files in Hstarted, Hiff.
  assert (Hthread : ∀ rel_path info, missing_or_older rel_path info →
            sync_folder ++ parts rel_path ∈
            upload_threads sync_folder server_files local_files).
  { intros rel_path info (Hin & Hd & Hs). apply upload_threads_spec.
    by exists rel_path, info. }
  assert (Hneeded : ∀ p,
            p ∈ upload_threads sync_folder server_files local_files →
            ∃ rel_path info,
              p = sync_folder ++ parts rel_path ∧
              missing_or_older rel_path info).
  { intros p (rel_path & info & Hin & Hp & Hd & Hs)%upload_threads_spec.
    by exists rel_path, info. }
  pose proof (force_sync_phases sync_folder path root w w1 json Hroot Hget)
    as Hphases.
  cbn zeta in Hphases. fold server_files local_files in Hphases.
  set (body := fun p : list string =>
                 emit (ThreadStart (Upload_file p));;
                 _upload_file sync_folder p) in *.
  assert (Hbody : ∀ (rel_path : string) (w' : world E),
            (body (sync_folder ++ parts rel_path) w').2 =
            ThreadStart (Upload_file (sync_folder ++ parts rel_path)) ::
            (upload_attempts 3 (sync_folder ++ parts rel_path)
               (posix (parts rel_path)) w').2).
  { intros rel_path w'. unfold body, _upload_file.
    rewrite relative_to_app. by run_cmd. }
  split; [done|]. split; [|split; [|split]].
  - intros p. unfold r. rewrite (Hiff p). split.
    + intros (rel_path & info & ? & ? & ? & ?). by exists rel_path, info.
    + intros (rel_path & info & ? & ? & ? & ?). by exists rel_path, info.
  - intros rel_path info Hmo p.
    destruct (for_each_elem_trace
                (upload_threads sync_folder server_files local_files) body p
                (Hthread _ _ Hmo)
                (sync_directories sync_folder server_files local_files w1).1.2)
      as (t1 & w' & t2 & Hu).
    destruct (upload_attempts_first 2 p (posix (parts rel_path)) w')
      as (result & t2' & Ht & Hsent).
    exists ([Print Starting_synchronization; GetFiles (FilesResponse 200 json)] ++
            (sync_directories sync_folder server_files local_files w1).2 ++ t1),
      result, (t2' ++ t2 ++ [Print Synchronization_complete]).
    split.
    + unfold r. rewrite Hphases, Hu. unfold p. rewrite Hbody. fold p.
      rewrite Ht. rewrite <- !app_assoc. reflexivity.
    + intros content Hc. destruct (Hsent content Hc) as (answer & t3 & ->).
      by exists answer, (t3 ++ t2 ++ [Print Synchronization_complete]).
  - intros u content answer Hin. unfold r in Hin. rewrite Hphases in Hin.
    apply elem_of_app in Hin as [Hin|Hin].
    { apply elem_of_cons in Hin as [Hin|Hin]; [done|].
      apply elem_of_cons in Hin as [Hin|Hin]; [done|].
      by apply elem_of_nil in Hin. }
    apply elem_of_app in Hin as [Hin|Hin].
    { pose proof (sync_directories_events sync_folder server_files local_files w1)
        as Hd.
      rewrite Forall_forall in Hd. by specialize (Hd _ Hin). }
    apply elem_of_app in Hin as [Hin|Hin].
    2:{ apply elem_of_cons in Hin as [Hin|Hin]; [done|].
        by apply elem_of_nil in Hin. }
    assert (Hall : Forall (fun e => ∀ u content answer,
                             e = PostFile u content answer →
                             ∃ rel_path info,
                               missing_or_older rel_path info ∧
                               u = posix (parts rel_path))
                     (for_each
                        (upload_threads sync_folder server_files local_files)
                        body
                        (sync_directories sync_folder server_files
                           local_files w1).1.2).2).
    { apply for_each_events_elem. intros p w' Hp.
      destruct (Hneeded p Hp) as (rel_path & info & -> & Hmo).
      rewrite Hbody. constructor; [done|].
      eapply Forall_impl;
        [apply (upload_attempts_only_uploads 3 (sync_folder ++ parts rel_path)
                  (posix (parts rel_path)) w')|].
      intros e He u' c' a' ->. destruct (He eq_refl) as (c'' & r'' & [= -> _ _]).
      by exists rel_path, info. }
    rewrite Forall_forall in Hall. exact (Hall _ Hin _ _ _ eq_refl).
  - intros Hplain rel_path info content mtime Hin Hd Hnot Hw.
    unfold r.
    rewrite (force_sync_world sync_folder path root w w1 json Hroot Hget).
    fold server_files local_files.
    apply uploads_spare.
    + intros p (rel_g & info_g & Hin_g & -> & Hd_g & Hs_g)%upload_threads_spec.
      exists (parts rel_g). split; [apply relative_to_app|].
      destruct (plain_walk_key sync_folder root w1 rel_g info_g Hplain Hin_g)
        as [Hkey_g Hsafe_g].
      destruct (plain_walk_key sync_folder root w1 rel_path info Hplain Hin)
        as [Hkey _].
      rewrite Hkey_g, (request_path_safe _ Hsafe_g).
      unfold Server.storage_path. intros Heq.
      assert (rel_g = rel_path) as -> by (by rewrite <- Hkey_g, <- Hkey, Heq).
      assert (info_g = info) as ->.
      { eapply dict_functional; [|exact Hin_g|exact Hin].
        apply (local_files_keys sync_folder root w1). }
      unfold needs_upload in Hnot.
      destruct Hs_g as [Hn|(item & Hi & Hlt)].
      * by rewrite Hn in Hnot.
      * rewrite Hi in Hnot. apply Z.ltb_ge in Hnot. lia.
    + apply sync_directories_spares. by rewrite (get_files_remote _ _ _ Hget).
Qed.

End reconcile.

(** In [office] the server's [docs/readme.md] (100) is older than the
    local one (150) and is uploaded, and so is [report]; its [notes.txt]
    (200) is newer than the local one (50): no thread is started for it,
    and the server holds it afterwards as before. *)
Lemma reconcile_uploads_the_missing_and_the_older_witness :
  started_uploads (force_sync sync None office).2 =
    [["/"; "sync"; "report"]; ["/"; "sync"; "docs"; "readme.md"]] ∧
  remote (force_sync sync None office).1.2 !! ["notes.txt"] =
    Some (Server.RegularFile "final" 200).
Proof.
  pose proof (reconcile_uploads_the_missing_and_the_older sync None sync
                office office
                (remote_item_of <$> Server.list_files shelf)
                eq_refl eq_refl) as (Heq & _ & _ & _ & Hleft).
  split.
  - rewrite Heq. vm_compute. reflexivity.
  - apply (Hleft (ltac:(vm_compute; repeat constructor; done))
             "notes.txt" {| li_is_directory := false; li_modified := 50 |}
             "final" 200).
    + vm_compute. apply list_elem_of_In. vm_compute. auto.
    + reflexivity.
    + vm_compute. reflexivity.
    + reflexivity.
Defined.

(** C4, on the code. In [annex] the server's copy of [a] (200) is newer
    than the local one (50), and [a#b.txt] is on the server under no
    name. [force_sync] starts no upload for [a] and one for [a#b.txt];
    the request is written for [a#b.txt], reaches the server as a request
    for [a], and is answered 200: the newer remote copy of [a] is
    replaced by the content of [a#b.txt], and the server holds no
    [a#b.txt] afterwards. *)
Lemma reconcile_overwrites_newer_remote_copy :
  let r := force_sync sync None annex in
  remote annex !! ["a"] = Some (Server.RegularFile "new" 200) ∧
  started_uploads r.2 = [["/"; "sync"; "a#b.txt"]] ∧
  upload_requests r.2 = [("a#b.txt", Response 200 EmptyString)] ∧
  remote r.1.2 !! ["a"] = Some (Server.RegularFile "stray" 1000) ∧
  remote r.1.2 !! ["a#b.txt"] = None.
Proof. repeat split; vm_compute; reflexivity. Qed.

End ReconcileFacts.

(** ** Threads: the joins of a tick *)

Module JoinFacts.
Import Aggregator Sched Joins SchedFacts.

Lemma children_joined_init : children_joined (threads init).
Proof. intros c th Hth. cbn in Hth. by rewrite lookup_empty in Hth. Qed.

(** A handler thread moves on and keeps its living children in its list. *)
Lemma children_joined_handler (ths : gmap tid thread) (t : tid)
    (change : Change) (path : string) (pc0 pc : handler_pc) :
  children_joined ths →
  ths !! t = Some (Thread (Handler change path pc0) true) →
  (∀ c, c ∈ handler_threads pc0 → is_alive ths c = true →
        c ∈ handler_threads pc) →
  children_joined (<[t := Thread (Handler change path pc) true]> ths).
Proof.
  intros Hcj Ht Hlist c th Hc Ha Hh.
  destruct (decide (c = t)) as [->|Hne].
  { rewrite lookup_insert_eq in Hc. by injection Hc as <-. }
  rewrite lookup_insert_ne in Hc by done.
  destruct (Hcj _ _ Hc Ha Hh) as (t0 & chg0 & p0 & pc1 & Ht0 & Hin).
  destruct (decide (t0 = t)) as [->|Hne0].
  - rewrite Ht in Ht0. injection Ht0 as <- <- <-.
    exists t, change, path, pc. rewrite lookup_insert_eq. split; [done|].
    apply Hlist; [done|]. unfold is_alive. by rewrite Hc.
  - exists t0, chg0, p0, pc1. by rewrite lookup_insert_ne.
Qed.

(** A thread that has no child to wait for ends. *)
Lemma children_joined_finish (ths : gmap tid thread) (t : tid) (th : thread) :
  children_joined ths →
  ths !! t = Some th →
  (∀ change path pc, code_of th = Handler change path pc →
                     handler_threads pc = []) →
  children_joined (<[t := Thread (code_of th) false]> ths).
Proof.
  intros Hcj Ht Hnone c th' Hc Ha Hh.
  destruct (decide (c = t)) as [->|Hne].
  { rewrite lookup_insert_eq in Hc. by injection Hc as <-. }
  rewrite lookup_insert_ne in Hc by done.
  destruct (Hcj _ _ Hc Ha Hh) as (t0 & chg0 & p0 & pc1 & Ht0 & Hin).
  exists t0, chg0, p0, pc1. split; [|done].
  rewrite lookup_insert_ne; [done|]. intros <-.
  rewrite Ht in Ht0. injection Ht0 as ->.
  rewrite (Hnone _ _ _ eq_refl) in Hin. by apply elem_of_nil in Hin.
Qed.

(** A new handler thread: it has no child yet, and is nobody's child. *)
Lemma children_joined_spawn_handler (ths : gmap tid thread) (n : tid)
    (change : Change) (path : string) :
  children_joined ths → ths !! n = None →
  children_joined (<[n := Thread (Handler change path HStart) true]> ths).
Proof.
  intros Hcj Hfresh c th Hc Ha Hh.
  destruct (decide (c = n)) as [->|Hne].
  { rewrite lookup_insert_eq in Hc. by injection Hc as <-. }
  rewrite lookup_insert_ne in Hc by done.
  destruct (Hcj _ _ Hc Ha Hh) as (t0 & chg0 & p0 & pc1 & Ht0 & Hin).
  exists t0, chg0, p0, pc1. split; [|done].
  rewrite lookup_insert_ne; [done|]. intros <-. congruence.
Qed.

(** A handler starts a child thread and appends it to its list. *)
Lemma children_joined_spawn_child (ths : gmap tid thread) (t n : tid)
    (change : Change) (path child : string) (todo todo' : list string)
    (started : list tid) :
  children_joined ths → ths !! n = None →
  ths !! t = Some (Thread (Handler change path (HSpawning todo started)) true) →
  children_joined
    (<[t := Thread (Handler change path (HSpawning todo' (started ++ [n]))) true]>
       (<[n := Thread (Child child) true]> ths)).
Proof.
  intros Hcj Hfresh Ht c th Hc Ha Hh.
  assert (Hnt : n ≠ t) by congruence.
  destruct (decide (c = t)) as [->|Hne].
  { rewrite lookup_insert_eq in Hc. by injection Hc as <-. }
  rewrite lookup_insert_ne in Hc by done.
  destruct (decide (c = n)) as [->|Hcn].
  { exists t, change, path, (HSpawning todo' (started ++ [n])).
    rewrite lookup_insert_eq. split; [done|]. cbn.
    apply elem_of_app. right. by apply list_elem_of_singleton. }
  rewrite lookup_insert_ne in Hc by done.
  destruct (Hcj _ _ Hc Ha Hh) as (t0 & chg0 & p0 & pc1 & Ht0 & Hin).
  destruct (decide (t0 = t)) as [->|Hne0].
  - rewrite Ht in Ht0. injection Ht0 as <- <- <-.
    exists t, change, path, (HSpawning todo' (started ++ [n])).
    rewrite lookup_insert_eq. split; [done|]. cbn. apply elem_of_app. by left.
  - exists t0, chg0, p0, pc1. split; [|done].
    rewrite !lookup_insert_ne; [done| |done]. intros <-. congruence.
Qed.

Lemma exec_children_joined (debounce : Z) (l : label) (s s' : state) :
  inv s → children_joined (threads s) → exec debounce l s = Some s' →
  children_joined (threads s').
Proof.
  intros Hinv Hcj. pose proof Hinv as (I1 & _).
  assert (Hfresh : threads s !! next_tid s = None).
  { destruct (threads s !! next_tid s) eqn:Hn; [|done].
    assert (next_tid s < next_tid s)%nat by (apply I1; eauto). lia. }
  destruct l as [changes ts|now| |t children|t|t]; cbn [exec].
  - by intros [= <-].
  - destruct (loop s); try done. by intros [= <-].
  - destruct (loop s) as [|[|e todo] started|[|t pending]|]; try done;
      try (by intros [= <-]).
    + intros [= <-]. cbn. by apply children_joined_spawn_handler.
    + destruct (is_alive (threads s) t); [done|]. by intros [= <-].
  - destruct (threads s !! t) as [[[chg p [| |]|] []]|] eqn:Hth; try done.
    destruct (action_kind chg); [|done]. intros [= <-]. cbn.
    eapply children_joined_handler; [done..|].
    intros c Hc. by apply elem_of_nil in Hc.
  - destruct (threads s !! t) as [[[chg p [|[|c todo] started|[|c pending]]|] []]|]
      eqn:Hth; try done.
    + intros [= <-]. cbn. by eapply children_joined_handler.
    + intros [= <-]. cbn. by eapply children_joined_spawn_child.
    + destruct (is_alive (threads s) c) eqn:Hc; [done|]. intros [= <-]. cbn.
      eapply children_joined_handler; [done..|]. cbn.
      intros c' [->|Hc']%elem_of_cons Ha; [congruence|done].
  - destruct (threads s !! t) as [[[chg p [| |[|]]|c] []]|] eqn:Hth; try done;
      intros [= <-]; cbn;
      apply (children_joined_finish _ _ _ Hcj Hth); cbn; by intros ? ? ? [= <- <- <-].
Qed.

Lemma run_children_joined (debounce : Z) (ls : list label) : ∀ s s',
  inv s → children_joined (threads s) → run debounce ls s = Some s' →
  inv s' ∧ children_joined (threads s').
Proof.
  induction ls as [|l ls IH]; intros s s' Hinv Hcj; cbn [run].
  - by intros [= <-].
  - destruct (exec debounce l s) as [s1|] eqn:Hexec; [|done].
    apply IH; [by eapply exec_inv | by eapply exec_children_joined].
Qed.

(** X18. The joins of a tick cover the child threads too: whenever the
    processing loop is about to drain or is asleep, no thread it started
    and no child thread of such a thread is still alive. What the
    threads of one tick do to a path, they do before the next tick
    starts any thread. *)
Theorem no_thread_outlives_its_tick (debounce : Z) (ls : list label)
    (s : state) :
  run debounce ls init = Some s →
  loop s = LTop ∨ loop s = LSleeping →
  ∀ t th, threads s !! t = Some th → alive th = false.
Proof.
  intros Hrun Hloop t th Hth.
  destruct (run_children_joined debounce ls init s inv_init
              children_joined_init Hrun) as [Hinv Hcj].
  assert (Hquiet : loop_threads (loop s) = []) by (by destruct Hloop as [->| ->]).
  assert (Hhandlers := loop_threads_quiet s Hinv Hquiet).
  destruct (alive th) eqn:Ha; [exfalso|done].
  pose proof (Hhandlers _ _ Hth Ha) as Hh.
  destruct (Hcj _ _ Hth Ha Hh) as (t0 & chg & p & pc & Ht0 & _).
  by specialize (Hhandlers _ _ Ht0 eq_refl).
Qed.

(** The crowded tick, once the loop has joined its two handlers. *)
Lemma no_thread_outlives_its_tick_witness :
  ∃ s, run 100 settled_schedule init = Some s ∧
       loop s = LSleeping ∧
       ∀ t th, threads s !! t = Some th → alive th = false.
Proof.
  eexists. split; [vm_compute; reflexivity|]. split; [reflexivity|].
  apply (no_thread_outlives_its_tick 100 settled_schedule);
    [vm_compute; reflexivity | by right].
Defined.

End JoinFacts.

(** ** The drive letter *)

Module DriveFacts.
Import Drive.

Lemma first_free_spec (letters : string) (used_drives : gset string) :
  match first_free letters used_drives with
  | Some drive =>
      (drive ∉ used_drives) ∧
      ∃ before letter after,
        letters = before +:+ String letter after ∧
        drive = String letter ":" ∧
        ∀ c, c ∈ list_ascii_of_string before → String c ":" ∈ used_drives
  | None =>
      ∀ c, c ∈ list_ascii_of_string letters → String c ":" ∈ used_drives
  end.
Proof.
  induction letters as [|letter letters IH]; cbn [first_free].
  - intros c Hc. cbn in Hc. by apply elem_of_nil in Hc.
  - case_decide as Hused.
    + destruct (first_free letters used_drives) as [drive|].
      * destruct IH as (Hfree & before & l & after & -> & -> & Hbefore).
        split; [done|]. exists (String letter before), l, after.
        split; [done|]. split; [done|]. intros c Hc. cbn in Hc.
        apply elem_of_cons in Hc as [->|Hc]; auto.
      * intros c Hc. cbn in Hc. apply elem_of_cons in Hc as [->|Hc]; auto.
    + split; [done|]. exists EmptyString, letter, letters.
      split; [done|]. split; [done|]. intros c Hc. cbn in Hc.
      by apply elem_of_nil in Hc.
Qed.

(** X19. The drive letter that is chosen is free, it is one of Z down
    to D, never A, B or C, and every letter that comes before it in the
    order Z, Y, ..., D is in use; no letter is found exactly when all
    of Z to D are in use. *)
Theorem drive_letter_is_highest_free (used_drives : gset string) :
  match _get_available_drive_letter used_drives with
  | Some drive =>
      (drive ∉ used_drives) ∧
      ∃ before letter after,
        "ZYXWVUTSRQPONMLKJIHGFED" = before +:+ String letter after ∧
        drive = String letter ":" ∧
        (∀ c, c ∈ list_ascii_of_string before → String c ":" ∈ used_drives) ∧
        drive ≠ "A:" ∧ drive ≠ "B:" ∧ drive ≠ "C:"
  | None =>
      ∀ c, c ∈ list_ascii_of_string "ZYXWVUTSRQPONMLKJIHGFED" →
           String c ":" ∈ used_drives
  end.
Proof.
  unfold _get_available_drive_letter.
  pose proof (first_free_spec "ZYXWVUTSRQPONMLKJIHGFED" used_drives) as Hspec.
  destruct (first_free _ used_drives) as [drive|]; [|done].
  destruct Hspec as (Hfree & before & letter & after & Heq & -> & Hbefore).
  split; [done|]. exists before, letter, after.
  split; [done|]. split; [done|]. split; [done|].
  assert (Hin : letter ∈ list_ascii_of_string "ZYXWVUTSRQPONMLKJIHGFED").
  { rewrite Heq. clear. induction before as [|c before IH]; cbn.
    - apply elem_of_cons. by left.
    - apply elem_of_cons. by right. }
  cbn in Hin. repeat (apply elem_of_cons in Hin as [->|Hin]; [done|]).
  by apply elem_of_nil in Hin.
Qed.

End DriveFacts.

(** ** The older handler ([client_new.py]) *)

Module OlderHandlerFacts.
Import Paths Client Deployment Outcomes.
Import ServerFacts ClientFacts OutcomeFacts EndToEndFacts.

Section any_world.
Context {W : Type} `{Client.World W}.

(** X20. The upload loop of the older handler, on a file that cannot be
    opened at any of its attempts: three attempts with a sleep of one
    second between them and none after the last; nothing is sent and
    nothing is printed. *)
Theorem older_handler_sleeps_between_attempts
    (file_path : list string) (relative_path : string) (w : W) :
  let t := (ClientNew.upload_attempts 3 file_path relative_path w).2 in
  Forall (fun r => r = PermissionError ∨ r = FileNotFoundError)
         (open_attempts t) →
  ∃ r1 r2 r3,
    t = [Open file_path r1; Sleep 1000; Open file_path r2; Sleep 1000;
         Open file_path r3].
Proof.
  intros t. subst t. cbn [ClientNew.upload_attempts]. run_cmd.
  destruct (open_rb file_path w) as [[c1| | |] w1]; cbn [fst snd];
    run_cmd; rewrite ?open_attempts_cons;
    try (by intros [[?|?] _]%Forall_cons);
    (destruct (open_rb file_path w1) as [[c2| | |] w2]; cbn [fst snd];
     run_cmd; rewrite ?open_attempts_cons;
     try (by intros [_ [[?|?] _]%Forall_cons]%Forall_cons);
     (destruct (open_rb file_path w2) as [[c3| | |] w3]; cbn [fst snd];
      run_cmd; rewrite ?open_attempts_cons;
      try (by intros [_ [_ [[?|?] _]%Forall_cons]%Forall_cons]%Forall_cons);
      intros _; by do 3 eexists)).
Qed.

End any_world.

Section deployed.
Context {E : Type} `{Surroundings E}.
Variable sync_folder : list string.

(** X21. The older handler asks for a directory with one request, for
    the whole relative path; when a server whose store is a tree
    answers 200, the directory and every ancestor of it exist on the
    server afterwards, as after the request per segment of the newer
    handler, provided the relative path is one that the URL hands on as
    it is written. *)
Theorem older_handler_folder_request_makes_ancestors
    (p rel : list string) (w : world E) :
  relative_to p sync_folder = Some rel →
  url_safe (posix rel) = true →
  Server.well_formed (remote w) →
  let r := ClientNew._create_folder sync_folder p w in
  ∃ result,
    directory_requests r.2 = [(posix rel, result)] ∧
    (succeeded result = true →
     ∀ a, a `prefix_of` parts (posix rel) →
          Server.is_dir (remote r.1.2) a = true).
Proof.
  intros Hrel Hsafe Hwf r. subst r. unfold ClientNew._create_folder.
  rewrite Hrel. run_cmd.
  assert (Hmade : ∀ a, succeeded (requests_post_dir (posix rel) w).1 = true →
            a `prefix_of` parts (posix rel) →
            Server.is_dir (remote (requests_post_dir (posix rel) w).2) a = true).
  { intros a Hok [k Hk]. cbn in Hok |- *.
    apply through_succeeded in Hok as (now & Hst & ->).
    rewrite (DeploymentFacts.request_path_safe _ Hsafe) in *.
    apply (well_formed_ancestors _ a k).
    - by apply upload_file_well_formed.
    - rewrite <- Hk. by apply upload_directory_made. }
  destruct (requests_post_dir (posix rel) w) as [[sc text|] w1];
    cbn [fst snd] in *.
  - exists (Response sc text). destruct (sc =? 200) eqn:Hsc; cbn.
    + split; [done|]. intros _ a Ha. apply Hmade; [|done]. cbn. by rewrite Hsc.
    + split; [done|]. by rewrite Hsc.
  - exists RequestException. by split.
Qed.

End deployed.

(** Creating [docs/img/raw] in [office] with the older handler. *)
Lemma older_handler_folder_request_makes_ancestors_witness :
  ∃ result,
    directory_requests
      (ClientNew._create_folder sync ["/"; "sync"; "docs"; "img"; "raw"] office).2 =
    [("docs/img/raw", result)] ∧
    (succeeded result = true →
     ∀ a, a `prefix_of` ["docs"; "img"; "raw"] →
          Server.is_dir
            (remote (ClientNew._create_folder sync
                       ["/"; "sync"; "docs"; "img"; "raw"] office).1.2) a = true).
Proof.
  apply (older_handler_folder_request_makes_ancestors sync
           ["/"; "sync"; "docs"; "img"; "raw"] ["docs"; "img"; "raw"] office
           eq_refl eq_refl).
  apply well_formedb_correct. vm_compute. reflexivity.
Defined.

(** [/sync/gone.txt] is not in the local tree of [office]. *)
Lemma older_handler_sleeps_between_attempts_witness :
  ∃ r1 r2 r3,
    (ClientNew.upload_attempts 3 ["/"; "sync"; "gone.txt"] "gone.txt" office).2 =
    [Open ["/"; "sync"; "gone.txt"] r1; Sleep 1000;
     Open ["/"; "sync"; "gone.txt"] r2; Sleep 1000;
     Open ["/"; "sync"; "gone.txt"] r3].
Proof.
  apply (older_handler_sleeps_between_attempts
           ["/"; "sync"; "gone.txt"] "gone.txt" office).
  vm_compute. repeat constructor; by right.
Defined.

End OlderHandlerFacts.

(** ** Startup: the first download *)

Module StartupFacts.
Import Paths Server Service Startup.
Import ServerFacts ClientFacts ServiceFacts.

Section mirror.
Context {E : Type} `{Outside E}.
Variable S : store.
Hypothesis S_tree : well_formed S.
Hypothesis reliable : ∀ e : E, (request_fate e).1 = Deployment.Delivered.

(** What the sync folder holds comes from the server: every entry but
    the sync folder itself has a counterpart of its kind on the server,
    with the same content if it is a file. *)
Lemma mirrored_no_file_above (t : store) (loc a : list string) (n0 : node) :
  (∀ q n, t !! q = Some n →
     (q = [] ∧ node_is_dir n = true) ∨ same_entry (S !! q) (Some n)) →
  S !! loc = Some n0 → a `prefix_of` loc → a ≠ loc → is_file t a = false.
Proof.
  intros Hj Hloc [k Hk] Hne. unfold is_file.
  destruct (t !! a) as [n|] eqn:Ha; [|done].
  destruct (Hj _ _ Ha) as [[_ Hd]|Hs]; [by destruct n|].
  assert (Hdir : is_dir S a = true).
  { rewrite Hk in Hloc. eapply well_formed_no_file_above; [done|done|].
    intros ->. by rewrite app_nil_r in Hk. }
  apply is_dir_lookup in Hdir as [m Hm]. rewrite Hm in Hs.
  by destruct n.
Qed.

Lemma mirrored_new_directory (loc q : list string) (n0 : node) (now : Z) :
  S !! loc = Some n0 → q `prefix_of` loc → q ≠ loc →
  (q = [] ∧ node_is_dir (Directory now) = true) ∨
  same_entry (S !! q) (Some (Directory now)).
Proof.
  intros Hloc [k Hk] Hne. right.
  assert (Hdir : is_dir S q = true).
  { rewrite Hk in Hloc. eapply well_formed_no_file_above; [done|done|].
    intros ->. by rewrite app_nil_r in Hk. }
  apply is_dir_lookup in Hdir as [m ->]. done.
Qed.

Lemma make_directories_mirror (directories : list string) : ∀ s : site E,
  server s = S →
  (∀ d, d ∈ directories → is_dir S (parts d) = true) →
  (∀ q n, tree s !! q = Some n →
     (q = [] ∧ node_is_dir n = true) ∨ same_entry (S !! q) (Some n)) →
  let r := make_directories directories s in
  r.1.1 = Ready ∧ server r.1.2 = S ∧
  (∀ q n, tree r.1.2 !! q = Some n →
     (q = [] ∧ node_is_dir n = true) ∨ same_entry (S !! q) (Some n)) ∧
  (∀ q, is_Some (tree s !! q) → is_Some (tree r.1.2 !! q)) ∧
  (∀ d, d ∈ directories → is_Some (tree r.1.2 !! parts d)) ∧
  r.2 = Folder_created <$> directories.
Proof.
  induction directories as [|d directories IH]; intros s Hs Hdirs Hj.
  { cbn. repeat split; try done. intros d Hd. by apply elem_of_nil in Hd. }
  cbn [make_directories]. unfold local_mkdir.
  set (now := (local_clock (env s)).1).
  assert (HdS : is_dir S (parts d) = true).
  { apply Hdirs, elem_of_cons. by left. }
  pose proof HdS as [m HmS]%is_dir_lookup.
  destruct (makedirs_rev_ok now (rev (parts d)) (tree s)) as [t1 Ht1].
  { rewrite rev_involutive. intros a Ha.
    destruct (decide (a = parts d)) as [->|Hne].
    - unfold is_file. destruct (tree s !! parts d) as [n|] eqn:Hn; [|done].
      destruct (Hj _ _ Hn) as [[_ Hd]|Hsame]; [by destruct n|].
      rewrite HmS in Hsame. by destruct n.
    - by eapply mirrored_no_file_above. }
  rewrite Ht1.
  pose proof (makedirs_rev_extends _ _ _ _ Ht1) as [[Hkeep _] Hmade].
  rewrite rev_involutive in Hmade.
  pose proof (makedirs_rev_new _ _ _ _ Ht1) as Hnew.
  set (s1 := Site (server s) t1 (local_clock (env s)).2).
  destruct (IH s1) as (Hr & Hsrv & Hj' & Hdom & Hall & Hlog); [done| | |].
  { intros d' Hd'. apply Hdirs, elem_of_cons. by right. }
  { intros q n Hq. cbn in Hq.
    destruct (Hnew _ _ Hq) as [Hold|(_ & Hpre & ->)]; [by eapply Hj|].
    rewrite rev_involutive in Hpre.
    destruct (decide (q = parts d)) as [->|Hne].
    - right. by rewrite HmS.
    - by eapply mirrored_new_directory. }
  cbn zeta. cbn [fst snd]. split; [done|]. split; [done|]. split; [done|].
  split; [|split].
  - intros q [n Hq]. apply Hdom. cbn. eauto.
  - intros d' [->|Hd']%elem_of_cons; [|by apply Hall].
    apply Hdom. cbn. apply is_dir_lookup in Hmade as [m' ->]. eauto.
  - by rewrite Hlog.
Qed.

Lemma download_files_mirror (files : list string) : ∀ s : site E,
  server s = S →
  (∀ f, f ∈ files → is_file S (parts f) = true ∧ parts f ≠ [] ∧
                     Deployment.request_path f = f) →
  (∀ q n, tree s !! q = Some n →
     (q = [] ∧ node_is_dir n = true) ∨ same_entry (S !! q) (Some n)) →
  let r := download_files files s in
  r.1.1 = Ready ∧ server r.1.2 = S ∧
  (∀ q n, tree r.1.2 !! q = Some n →
     (q = [] ∧ node_is_dir n = true) ∨ same_entry (S !! q) (Some n)) ∧
  (∀ q, is_Some (tree s !! q) → is_Some (tree r.1.2 !! q)) ∧
  (∀ f, f ∈ files → is_Some (tree r.1.2 !! parts f)) ∧
  r.2 = File_downloaded <$> files.
Proof.
  induction files as [|f files IH]; intros s Hs Hfiles Hj.
  { cbn. repeat split; try done. intros f Hf. by apply elem_of_nil in Hf. }
  cbn [download_files]. unfold local_mkdir_parent.
  set (now := (local_clock (env s)).1).
  destruct (Hfiles f) as (HfS & Hne & Hurl); [apply elem_of_cons; by left|].
  pose proof HfS as (c & m & HcS)%is_file_lookup.
  destruct (mkdir_parent_ok now (parts f) (tree s)) as [t1 Ht1].
  { intros a Ha Hna. by eapply mirrored_no_file_above. }
  rewrite Ht1.
  pose proof (mkdir_parent_extends _ _ _ _ Ht1) as [[Hkeep _] Hparent].
  pose proof (mkdir_parent_new _ _ _ _ Ht1) as Hnew.
  pose proof (mkdir_parent_lookup_target _ _ _ _ Ht1) as Htarget.
  assert (Hj1 : ∀ q n, t1 !! q = Some n →
            (q = [] ∧ node_is_dir n = true) ∨ same_entry (S !! q) (Some n)).
  { intros q n Hq.
    destruct (Hnew _ _ Hq) as [Hold|(_ & Hpre & Hnq & ->)]; [by eapply Hj|].
    by eapply mirrored_new_directory. }
  unfold get_download. cbn [server tree env]. rewrite reliable. cbn [fst snd].
  rewrite Hs, Hurl. unfold download_file, path_exists, storage_path.
  rewrite HcS.
  cbn [negb].
  rewrite Z.eqb_refl. unfold local_write. cbn [server tree env].
  assert (Hnodir : ∀ m', t1 !! parts f ≠ Some (Directory m')).
  { intros m' Hd. destruct (Hj1 _ _ Hd) as [[? _]|Hsame]; [done|].
    by rewrite HcS in Hsame. }
  destruct Hparent as [?|Hparent]; [done|].
  set (e2 := (request_fate (local_clock (env s)).2).2).
  set (t3 := <[parts f := RegularFile c (local_clock e2).1]> t1).
  assert (Hwrite :
    match t1 !! parts f with
    | Some (Directory _) => None
    | _ =>
        match parts f with
        | [] => Some (Site S t3 (local_clock e2).2)
        | _ :: _ =>
            if is_dir t1 (removelast (parts f))
            then Some (Site S t3 (local_clock e2).2)
            else None
        end
    end = Some (Site S t3 (local_clock e2).2)).
  { destruct (t1 !! parts f) as [[m'|c' m']|] eqn:Ht; [by destruct (Hnodir m')| |];
      rewrite Hparent; by destruct (parts f). }
  rewrite Hwrite.
  destruct (IH (Site S t3 (local_clock e2).2)) as (Hr & Hsrv & Hj' & Hdom & Hall & Hlog);
    [done| | |].
  { intros f' Hf'. apply Hfiles, elem_of_cons. by right. }
  { intros q n Hq. cbn in Hq. unfold t3 in Hq.
    destruct (decide (q = parts f)) as [->|Hnq].
    - rewrite lookup_insert_eq in Hq. injection Hq as <-. right.
      by rewrite HcS.
    - rewrite lookup_insert_ne in Hq by done. by apply Hj1. }
  cbn zeta. cbn [fst snd]. split; [done|]. split; [done|]. split; [done|].
  split; [|split].
  - intros q [n Hq]. apply Hdom. cbn. unfold t3.
    destruct (decide (q = parts f)) as [->|Hnq].
    + rewrite lookup_insert_eq. eauto.
    + rewrite lookup_insert_ne by done. eauto.
  - intros f' [->|Hf']%elem_of_cons; [|by apply Hall].
    apply Hdom. cbn. unfold t3. rewrite lookup_insert_eq. eauto.
  - by rewrite Hlog.
Qed.

End mirror.

Section whatever_happens.
Context {E : Type} `{Outside E}.

Lemma keeps_insert_file (t : store) (loc : list string) (content : string)
    (now : Z) :
  (∀ m, t !! loc ≠ Some (Directory m)) →
  keeps t (<[loc := RegularFile content now]> t).
Proof.
  intros Hnodir q n Hq. destruct (decide (q = loc)) as [->|Hne].
  - rewrite lookup_insert_eq. eexists. split; [done|].
    destruct n as [m|c m]; [by destruct (Hnodir m)|done].
  - rewrite lookup_insert_ne by done. eauto.
Qed.

Lemma local_write_keeps (loc : list string) (content : string) (s s' : site E) :
  local_write loc content s = Some s' →
  server s' = server s ∧ keeps (tree s) (tree s').
Proof.
  unfold local_write.
  destruct (tree s !! loc) as [[m|c m]|] eqn:Ht; [done| |];
    (destruct loc as [|x loc']; [|destruct (is_dir _ _); [|done]]);
    intros [= <-]; (split; [done|]); cbn [tree];
    apply keeps_insert_file; congruence.
Qed.

Lemma make_directories_keeps (directories : list string) : ∀ s : site E,
  server (make_directories directories s).1.2 = server s ∧
  keeps (tree s) (tree (make_directories directories s).1.2).
Proof.
  induction directories as [|d directories IH]; intros s;
    [split; [done|apply keeps_refl]|].
  cbn [make_directories]. unfold local_mkdir.
  destruct (makedirs_rev _ _ (tree s)) as [e|t1] eqn:Hmk;
    [split; [done|apply keeps_refl]|].
  apply makedirs_rev_extends in Hmk as [Hext _]. apply extends_keeps in Hext.
  cbn [fst snd]. destruct (IH (Site (server s) t1 (local_clock (env s)).2))
    as [Hs Hk]. split; [done|]. by eapply keeps_trans.
Qed.

Lemma download_files_keeps (files : list string) : ∀ s : site E,
  server (download_files files s).1.2 = server s ∧
  keeps (tree s) (tree (download_files files s).1.2).
Proof.
  induction files as [|f files IH]; intros s;
    [split; [done|apply keeps_refl]|].
  cbn [download_files]. unfold local_mkdir_parent.
  destruct (mkdir_parent _ _ (tree s)) as [e|t1] eqn:Hmk;
    [split; [done|apply keeps_refl]|].
  apply mkdir_parent_extends in Hmk as [Hext _]. apply extends_keeps in Hext.
  set (s1 := Site (server s) t1 (local_clock (env s)).2).
  assert (Hget : server (get_download f s1).2 = server s ∧
                 tree (get_download f s1).2 = t1).
  { unfold get_download. by destruct (request_fate (env s1)).1. }
  destruct Hget as [Hgs Hgt].
  destruct (get_download f s1).1 as [[status_code content]|];
    [|cbn [fst snd]; split; [done|by rewrite Hgt]].
  destruct (status_code =? 200).
  - destruct (local_write (parts f) content (get_download f s1).2) as [s3|] eqn:Hw;
      [|cbn [fst snd]; split; [done|by rewrite Hgt]].
    apply local_write_keeps in Hw as [Hs3 Hk3]. rewrite Hgt in Hk3.
    cbn [fst snd]. destruct (IH s3) as [Hs Hk]. split; [congruence|].
    eapply keeps_trans; [exact Hext|]. by eapply keeps_trans.
  - destruct (IH (get_download f s1).2) as [Hs Hk]. split; [congruence|].
    rewrite Hgt in Hk. by eapply keeps_trans.
Qed.

(** X25. Whatever the network does and whatever the sync folder held
    before, the download at startup removes nothing: every entry of the
    sync folder is still there afterwards, a directory as a directory and
    a file as a file, and the server's store is as it was. *)
Theorem startup_download_removes_nothing (s : site E) :
  let r := download_existing s in
  server r.1.2 = server s ∧
  ∀ loc n, tree s !! loc = Some n →
    ∃ n', tree r.1.2 !! loc = Some n' ∧ node_is_dir n' = node_is_dir n.
Proof.
  intros r.
  change (server r.1.2 = server s ∧ keeps (tree s) (tree r.1.2)).
  subst r. unfold download_existing.
  assert (Hget : server (get_files s).2 = server s ∧
                 tree (get_files s).2 = tree s).
  { unfold get_files. by destruct (request_fate (env s)).1. }
  destruct (get_files s) as [response s1]. cbn [fst snd] in *.
  destruct Hget as [Hgs Hgt]. rewrite <- Hgt.
  destruct response as [[status_code items]|]; cbn [fst snd];
    [|split; [done|apply keeps_refl]].
  destruct (status_code =? 200); [|split; [done|apply keeps_refl]].
  destruct items as [|i items]; [split; [done|apply keeps_refl]|].
  set (directories := merge_sort string_le _).
  destruct (make_directories_keeps directories s1) as [Hs1 Hk1].
  destruct (make_directories directories s1).1.1; cbn [fst snd].
  - set (files := path <$> _).
    destruct (download_files_keeps files (make_directories directories s1).1.2)
      as [Hs2 Hk2].
    split; [congruence|]. by eapply keeps_trans.
  - split; [congruence|done].
Qed.

End whatever_happens.

Section first_download.
Context {E : Type} `{Outside E}.

Lemma match_nonempty {A B} (l : list A) (a b : B) :
  l ≠ [] → match l with [] => a | _ :: _ => b end = b.
Proof. by destruct l. Qed.

Lemma listed_item (st : store) (i : item) :
  addressable st → i ∈ list_files st →
  parts (path i) ≠ [] ∧ path i = posix (parts (path i)) ∧
  ∃ n, st !! parts (path i) = Some n ∧ is_directory i = node_is_dir n.
Proof.
  intros Had (loc & n & Hne & Hn & ->)%list_files_elem.
  rewrite item_of_path, parts_posix by (by eapply Had).
  split; [done|]. split; [done|]. exists n. split; [done|]. by destruct n.
Qed.

Lemma fetchableb_correct (st : store) : fetchableb st = true → fetchable st.
Proof.
  unfold fetchableb. rewrite forallb_forall. intros Hall loc n Hn.
  apply (Hall (loc, n)). by apply list_elem_of_In, elem_of_map_to_list.
Qed.

(** X22. The first download mirrors the server. When a client starts
    with a new sync folder, the network is reliable, and the server's
    store is a tree whose entries have plain names that the URL of a
    download hands on as they are written, the block runs to its end
    without an exception, leaves the server as it is, and afterwards the
    sync folder holds, below itself, exactly what the server holds: a
    directory where the server has a directory, a file with the same
    content where the server has a file, and nothing where the server
    has nothing. *)
Theorem first_download_mirrors_the_server (s : site E) (mtime : Z) :
  well_formed (server s) → addressable (server s) → fetchable (server s) →
  (∀ e : E, (request_fate e).1 = Deployment.Delivered) →
  tree s = empty_storage mtime →
  let r := download_existing s in
  r.1.1 = Ready ∧ server r.1.2 = server s ∧
  ∀ loc, loc ≠ [] → same_entry (server s !! loc) (tree r.1.2 !! loc).
Proof.
  intros Hwf Had Hurl Hnet Htree r. subst r.
  set (S := server s).
  assert (Hfinal : ∀ t : store,
    (∀ q n, t !! q = Some n →
       (q = [] ∧ node_is_dir n = true) ∨ same_entry (S !! q) (Some n)) →
    (∀ i, i ∈ list_files S → is_Some (t !! parts (path i))) →
    ∀ loc, loc ≠ [] → same_entry (S !! loc) (t !! loc)).
  { intros t Hj Hall loc Hne. destruct (t !! loc) as [n|] eqn:Hn.
    - destruct (Hj _ _ Hn) as [[? _]|?]; done.
    - destruct (S !! loc) as [n0|] eqn:Hn0; [|done]. exfalso.
      destruct (Hall (item_of (loc, n0))) as [n' Hn'].
      { apply list_files_elem. eauto. }
      rewrite item_of_path, parts_posix in Hn' by (by eapply Had).
      congruence. }
  unfold download_existing, get_files. rewrite Hnet. cbn [fst snd].
  fold S. rewrite Z.eqb_refl.
  assert (Hj0 : ∀ q n, tree s !! q = Some n →
            (q = [] ∧ node_is_dir n = true) ∨ same_entry (S !! q) (Some n)).
  { intros q n. rewrite Htree. unfold empty_storage.
    intros [<- <-]%lookup_singleton_Some. by left. }
  destruct (decide (list_files S = [])) as [Hnil|Hitems].
  { rewrite Hnil. cbn [fst snd server tree]. split; [done|]. split; [done|].
    apply Hfinal; [done|]. intros i Hi. rewrite Hnil in Hi.
    by apply elem_of_nil in Hi. }
  rewrite (match_nonempty (list_files S)) by done.
  set (s1 := Site S (tree s) (request_fate (env s)).2).
  set (directories := path <$> filter (fun i => is_directory i = true) (list_files S)).
  set (files := path <$> filter (fun i => is_directory i = false) (list_files S)).
  destruct (make_directories_mirror S Hwf (merge_sort string_le directories) s1)
    as (Hr1 & Hs1 & Hj1 & Hdom1 & Hall1 & Hlog1); [done| |done|].
  { intros d Hd. rewrite merge_sort_Permutation in Hd.
    apply list_elem_of_fmap in Hd as (i & -> & Hi).
    apply list_elem_of_filter in Hi as [Hdir Hi].
    destruct (listed_item S i Had Hi) as (_ & _ & n & Hn & Hkind).
    unfold is_dir. rewrite Hn. rewrite Hdir in Hkind. by destruct n. }
  cbn zeta in *. rewrite Hr1.
  set (d := make_directories (merge_sort string_le directories) s1) in *.
  destruct (download_files_mirror S Hwf Hnet files d.1.2)
    as (Hr2 & Hs2 & Hj2 & Hdom2 & Hall2 & Hlog2); [done| |done|].
  { intros f Hf. apply list_elem_of_fmap in Hf as (i & -> & Hi).
    apply list_elem_of_filter in Hi as [Hfile Hi].
    destruct (listed_item S i Had Hi) as (Hne & Hpath & n & Hn & Hkind).
    split; [|split; [done|]].
    - unfold is_file. rewrite Hn. rewrite Hfile in Hkind. by destruct n.
    - rewrite Hpath. apply DeploymentFacts.request_path_safe. by eapply Hurl. }
  cbn zeta in *. cbn [fst snd]. split; [done|]. split; [done|].
  apply Hfinal; [done|]. intros i Hi.
  destruct (is_directory i) eqn:Hkind.
  - apply Hdom2, Hall1. rewrite merge_sort_Permutation.
    apply list_elem_of_fmap. exists i. split; [done|].
    by apply list_elem_of_filter.
  - apply Hall2. apply list_elem_of_fmap. exists i. split; [done|].
    by apply list_elem_of_filter.
Qed.

End first_download.

(** The first start: [docs], [docs/readme.md] and [notes.txt] arrive. *)
Lemma first_download_mirrors_the_server_witness :
  (download_existing first_start).1.1 = Ready ∧
  same_entry (server first_start !! ["docs"; "readme.md"])
             (tree (download_existing first_start).1.2 !! ["docs"; "readme.md"]).
Proof.
  destruct (serve_all_invariant
              [Upload 5 "docs" None true;
               Upload 100 "docs/readme.md" (Some "hullo") false;
               Upload 200 "notes.txt" (Some "final") false]
              (empty_storage 0) (well_formed_empty_storage 0)
              (addressable_empty_storage 0)) as [Hwf Had].
  destruct (first_download_mirrors_the_server first_start 900 Hwf Had)
    as (Hready & _ & Hmirror);
    [by apply fetchableb_correct; vm_compute | by intros e | reflexivity |].
  split; [exact Hready|]. by apply Hmirror.
Defined.

End StartupFacts.
